(** * Google Calendar service: credential lifecycle and availability

    A shallow embedding of the security utilities
    ([app/core/security.py]), the token repository
    ([app/db/repositories.py]), the OAuth and calendar services
    ([app/api/auth/service.py], [app/api/calendar/service.py]) and of the
    free-slot calculation, followed by the properties proved about them.

    Conventions.  A Python [str] is represented by the [string] of its UTF-8
    bytes: concatenation, equality, splitting on the ASCII separator ["."]
    and the code-point order used by [<], [>], [max] and [sorted] all agree
    with the byte-wise operations on that representation.  A Python [bytes]
    is a [list byte]. *)

From Stdlib Require Import List String Ascii Bool Arith NArith ZArith Lia.
From Stdlib Require Import Strings.Byte DecimalString DecimalZ DecimalPos.
From Stdlib Require Import Sorting.Sorted Sorting.Permutation.
From Stdlib Require Import Structures.OrderedType Structures.OrderedTypeEx.
Import ListNotations.

Local Open Scope string_scope.
Local Open Scope list_scope.

(* ================================================================== *)
(** * Part I.  The embedding *)
(* ================================================================== *)

(** ** Exceptions ([app/core/exceptions.py]) *)

(** The service's exception classes with the arguments of their
    constructors, and [BuiltinError] for the exceptions raised by the
    standard library and by third-party packages ([ValueError],
    [binascii.Error], [InvalidTag], transport errors, ...).  All of them
    derive from [Exception]. *)
Inductive exc : Type :=
| UnauthorizedError (message : string)
| TokenNotFoundError (user_id : string)
| TokenExpiredError (user_id reason : string)
| TokenEncryptionError (operation reason : string)
| GoogleAPIError (message : string) (google_error_code : option Z)
                 (google_error_reason : option string)
| OAuthStateError (reason : string)
| CalendarNotConnectedError (user_id : string)
| BuiltinError (cls message : string).

(** The name of the class of an exception. *)
Definition exc_class (e : exc) : string :=
  match e with
  | UnauthorizedError _ => "UnauthorizedError"
  | TokenNotFoundError _ => "TokenNotFoundError"
  | TokenExpiredError _ _ => "TokenExpiredError"
  | TokenEncryptionError _ _ => "TokenEncryptionError"
  | GoogleAPIError _ _ _ => "GoogleAPIError"
  | OAuthStateError _ => "OAuthStateError"
  | CalendarNotConnectedError _ => "CalendarNotConnectedError"
  | BuiltinError cls _ => cls
  end.

(** [str(e)]: the message handed to [Exception.__init__]. *)
Definition exc_str (e : exc) : string :=
  match e with
  | UnauthorizedError m => m
  | TokenNotFoundError _ => "Google Calendar not connected"
  | TokenExpiredError _ reason => reason
  | TokenEncryptionError operation reason =>
      "Token " ++ operation ++ " failed: " ++ reason
  | GoogleAPIError m _ _ => m
  | OAuthStateError reason => reason
  | CalendarNotConnectedError _ =>
      "Google Calendar not connected. Please connect your calendar first."
  | BuiltinError _ m => m
  end.

(** [status_code] of the service's exceptions. *)
Definition status_code (e : exc) : Z :=
  match e with
  | UnauthorizedError _ => 401
  | TokenNotFoundError _ => 404
  | TokenExpiredError _ _ => 401
  | TokenEncryptionError _ _ => 500
  | GoogleAPIError _ _ _ => 502
  | OAuthStateError _ => 400
  | CalendarNotConnectedError _ => 400
  | BuiltinError _ _ => 500
  end.

(** A computation either raises ([inl]) or returns ([inr]). *)
Definition result (A : Type) : Type := (exc + A)%type.

Definition ret {A} (a : A) : result A := inr a.
Definition raise {A} (e : exc) : result A := inl e.
Definition bind {A B} (m : result A) (k : A -> result B) : result B :=
  match m with
  | inl e => inl e
  | inr a => k a
  end.

Declare Scope result_scope.
Delimit Scope result_scope with result.
Notation "x <- m ;; k" := (bind m (fun x => k))
  (at level 61, m at next level, right associativity) : result_scope.

(** [try: body except Exception as e: handler(e)]. *)
Definition try_except {A} (body : result A) (handler : exc -> result A)
  : result A :=
  match body with
  | inl e => handler e
  | inr a => inr a
  end.

(** ** Built-in operations on [str] *)

Module PyStr.

Definition dot : ascii := "."%char.

Definition chars (s : string) : list ascii := list_ascii_of_string s.

(** [sep not in s]. *)
Definition no_sep (sep : ascii) (s : string) : bool :=
  forallb (fun c => negb (Ascii.eqb c sep)) (chars s).

(** [s.split(sep)] for a one-character separator. *)
Fixpoint split (sep : ascii) (s : string) : list string :=
  match s with
  | EmptyString => [EmptyString]
  | String c s' =>
      if Ascii.eqb c sep then EmptyString :: split sep s'
      else match split sep s' with
           | [] => [String c EmptyString]
           | p :: ps => String c p :: ps
           end
  end.

(** The split of [s] at its last separator, if it has one. *)
Fixpoint rsplit_last (sep : ascii) (s : string) : option (string * string) :=
  match s with
  | EmptyString => None
  | String c s' =>
      match rsplit_last sep s' with
      | Some (p, q) => Some (String c p, q)
      | None => if Ascii.eqb c sep then Some (EmptyString, s') else None
      end
  end.

(** [s.rsplit(sep, 1)]. *)
Definition rsplit1 (sep : ascii) (s : string) : list string :=
  match rsplit_last sep s with
  | Some (p, q) => [p; q]
  | None => [s]
  end.

(** Every character is ASCII ([s.isascii()]). *)
Definition is_ascii (s : string) : bool :=
  forallb (fun c => (N_of_ascii c <? 128)%N) (chars s).

(** [s[:n]]. *)
Definition prefix (n : nat) (s : string) : string := substring 0 n s.

(** [Py_ISSPACE]: the white space of C's [isspace] in the ASCII range
    (tab, line feed, vertical tab, form feed, carriage return, space), as
    [int] skips it around a literal. *)
Definition is_space (c : ascii) : bool :=
  let n := N_of_ascii c in
  ((9 <=? n) && (n <=? 13) || (n =? 32))%N.

Fixpoint lstrip (s : string) : string :=
  match s with
  | EmptyString => EmptyString
  | String c s' => if is_space c then lstrip s' else s
  end.

Fixpoint rstrip (s : string) : string :=
  match s with
  | EmptyString => EmptyString
  | String c s' =>
      match rstrip s' with
      | EmptyString => if is_space c then EmptyString else String c EmptyString
      | r => String c r
      end
  end.

Definition strip (s : string) : string := rstrip (lstrip s).

Definition is_digit (c : ascii) : bool :=
  let n := N_of_ascii c in ((48 <=? n) && (n <=? 57))%N.

(** [s] consists of decimal digits. *)
Definition all_digits (s : string) : Prop := forallb is_digit (chars s) = true.

(** Digits, with single underscores allowed between two digits. *)
Fixpoint digit_groups (s : string) (after_digit : bool) : bool :=
  match s with
  | EmptyString => after_digit
  | String c s' =>
      if is_digit c then digit_groups s' true
      else if Ascii.eqb c "_" then after_digit && digit_groups s' false
      else false
  end.

Fixpoint remove_underscores (s : string) : string :=
  match s with
  | EmptyString => EmptyString
  | String c s' =>
      if Ascii.eqb c "_" then remove_underscores s'
      else String c (remove_underscores s')
  end.

Definition invalid_literal (s : string) : exc :=
  BuiltinError "ValueError" ("invalid literal for int() with base 10: " ++ s).

(** The optional sign of a numeral, and the rest. *)
Definition split_sign (t : string) : bool * string :=
  match t with
  | String c r =>
      if Ascii.eqb c "+" then (false, r)
      else if Ascii.eqb c "-" then (true, r)
      else (false, t)
  | EmptyString => (false, t)
  end.

(** The code points of a [str], read off its UTF-8 bytes (one, two, three
    or four bytes each). *)
Fixpoint code_points (l : list N) : list N :=
  match l with
  | [] => []
  | a :: r1 =>
      if (a <? 128)%N then a :: code_points r1
      else
        match r1 with
        | [] => [a]
        | b :: r2 =>
            if (a <? 224)%N then ((a - 192) * 64 + (b - 128))%N :: code_points r2
            else
              match r2 with
              | [] => [a]
              | c :: r3 =>
                  if (a <? 240)%N
                  then ((a - 224) * 4096 + (b - 128) * 64 + (c - 128))%N
                       :: code_points r3
                  else
                    match r3 with
                    | [] => [a]
                    | d :: r4 =>
                        ((a - 240) * 262144 + (b - 128) * 4096
                         + (c - 128) * 64 + (d - 128))%N
                        :: code_points r4
                    end
              end
        end
  end.

(** [Py_UNICODE_ISSPACE] above the ASCII range. *)
Definition unicode_space (cp : N) : bool :=
  ((cp =? 0x85) || (cp =? 0xa0) || (cp =? 0x1680)
   || (0x2000 <=? cp) && (cp <=? 0x200a)
   || (cp =? 0x2028) || (cp =? 0x2029) || (cp =? 0x202f)
   || (cp =? 0x205f) || (cp =? 0x3000))%N.

(** The digits zero of the decimal digits above the ASCII range (general
    category Nd of Unicode 14.0, the database of CPython 3.11); each is
    followed by its digits one to nine. *)
Definition decimal_zeros : list N :=
  [0x660; 0x6f0; 0x7c0; 0x966; 0x9e6; 0xa66; 0xae6; 0xb66;
   0xbe6; 0xc66; 0xce6; 0xd66; 0xde6; 0xe50; 0xed0; 0xf20;
   0x1040; 0x1090; 0x17e0; 0x1810; 0x1946; 0x19d0; 0x1a80; 0x1a90;
   0x1b50; 0x1bb0; 0x1c40; 0x1c50; 0xa620; 0xa8d0; 0xa900; 0xa9d0;
   0xa9f0; 0xaa50; 0xabf0; 0xff10; 0x104a0; 0x10d30; 0x11066; 0x110f0;
   0x11136; 0x111d0; 0x112f0; 0x11450; 0x114d0; 0x11650; 0x116c0; 0x11730;
   0x118e0; 0x11950; 0x11c50; 0x11d50; 0x11da0; 0x16a60; 0x16ac0; 0x16b50;
   0x1d7ce; 0x1d7d8; 0x1d7e2; 0x1d7ec; 0x1d7f6; 0x1e140; 0x1e2f0; 0x1e950;
   0x1fbf0
  ]%N.

(** [Py_UNICODE_TODECIMAL] above the ASCII range. *)
Definition unicode_decimal (cp : N) : option N :=
  match find (fun z => ((z <=? cp) && (cp <? z + 10))%N) decimal_zeros with
  | Some z => Some (cp - z)%N
  | None => None
  end.

(** [_PyUnicode_TransformDecimalAndSpaceToASCII] on a [str] that is not
    ASCII: code points below 127 are kept, white space becomes a space, a
    decimal digit its ASCII digit; at any other code point the buffer ends
    with a question mark. *)
Fixpoint transform_decimal_and_space (cps : list N) : string :=
  match cps with
  | [] => EmptyString
  | cp :: r =>
      if (cp <? 127)%N
      then String (ascii_of_N cp) (transform_decimal_and_space r)
      else if unicode_space cp
      then String " " (transform_decimal_and_space r)
      else
        match unicode_decimal cp with
        | Some d => String (ascii_of_N (48 + d)) (transform_decimal_and_space r)
        | None => "?"
        end
  end.

(** [PyLong_FromString] in base 10 on the ASCII buffer [a]: optional
    surrounding white space, an optional sign, then decimal digits with
    optional single underscores between them; anything else (a NUL
    included) is a [ValueError], which names the argument [s] of [int]. *)
Definition long_from_string (s a : string) : result Z :=
  let t := strip a in
  let '(negative, body) := split_sign t in
  if digit_groups body false then
    match NilZero.uint_of_string (remove_underscores body) with
    | Some u => ret (if negative then (- Z.of_uint u)%Z else Z.of_uint u)
    | None => raise (invalid_literal s)
    end
  else raise (invalid_literal s).

(** [sys.int_max_str_digits], the interpreter's default limit on the
    digits of a literal given to [int] and of the text made by [str]. *)
Definition int_max_str_digits : nat := 4300.

(** [int(s)] for a [str] of at most [int_max_str_digits] characters, which
    cannot reach that limit: an ASCII string is parsed as it is, any other
    after its white space and decimal digits have been made ASCII.  The
    message of the [ValueError] shows the argument itself where the
    interpreter shows its [repr]. *)
Definition py_int (s : string) : result Z :=
  long_from_string s
    (if is_ascii s then s
     else transform_decimal_and_space (code_points (map N_of_ascii (chars s)))).

(** The [str] whose UTF-8 encoding is the bytes [l]. *)
Definition of_utf8 (l : list N) : string :=
  string_of_list_ascii (map ascii_of_N l).

(** [str(n)] for an [int]. *)
Definition py_str (n : Z) : string := NilZero.string_of_int (Z.to_int n).

(** [hmac.compare_digest(a, b)] on two [str]: a [TypeError] unless both are
    ASCII, otherwise their equality (in time independent of the contents). *)
Definition compare_digest (a b : string) : result bool :=
  if is_ascii a && is_ascii b then ret (String.eqb a b)
  else raise (BuiltinError "TypeError"
                "comparing strings with non-ASCII characters is not supported").

End PyStr.

(** ** Base64 ([base64], [binascii]) *)

Module Base64.

Definition std_alphabet : string :=
  "ABCDEFGHIJKLMNOPQRSTUVWXYZabcdefghijklmnopqrstuvwxyz0123456789+/".

Definition urlsafe_alphabet : string :=
  "ABCDEFGHIJKLMNOPQRSTUVWXYZabcdefghijklmnopqrstuvwxyz0123456789-_".

Definition pad : ascii := "="%char.

(** The character of a six-bit value. *)
Definition b2a (alphabet : string) (v : N) : ascii :=
  match String.get (N.to_nat v) alphabet with
  | Some c => c
  | None => pad
  end.

(** [binascii.b2a_base64]: three bytes become four characters; a final
    group of one or two bytes is padded with ["="]. *)
Fixpoint encode (alphabet : string) (data : list byte) : string :=
  match data with
  | [] => EmptyString
  | [x] =>
      let a := Byte.to_N x in
      String (b2a alphabet (a / 4))
        (String (b2a alphabet ((a mod 4) * 16))
           (String pad (String pad EmptyString)))
  | [x; y] =>
      let a := Byte.to_N x in
      let b := Byte.to_N y in
      String (b2a alphabet (a / 4))
        (String (b2a alphabet ((a mod 4) * 16 + b / 16))
           (String (b2a alphabet ((b mod 16) * 4))
              (String pad EmptyString)))
  | x :: y :: z :: rest =>
      let a := Byte.to_N x in
      let b := Byte.to_N y in
      let c := Byte.to_N z in
      String (b2a alphabet (a / 4))
        (String (b2a alphabet ((a mod 4) * 16 + b / 16))
           (String (b2a alphabet ((b mod 16) * 4 + c / 64))
              (String (b2a alphabet (c mod 64)) (encode alphabet rest))))
  end%N.

(** [base64.b64encode(data).decode("utf-8")]. *)
Definition b64encode (data : list byte) : string := encode std_alphabet data.

(** [base64.urlsafe_b64encode(data)]. *)
Definition urlsafe_b64encode (data : list byte) : string :=
  encode urlsafe_alphabet data.

(** [table_a2b_base64]: the six-bit value of a character of the standard
    alphabet. *)
Definition a2b (c : ascii) : option N :=
  let n := N_of_ascii c in
  (if (65 <=? n) && (n <=? 90) then Some (n - 65)
  else if (97 <=? n) && (n <=? 122) then Some (n - 71)
  else if (48 <=? n) && (n <=? 57) then Some (n + 4)
  else if n =? 43 then Some 62
  else if n =? 47 then Some 63
  else None)%N.

(** Storing into an [unsigned char]. *)
Definition byte_of_N (n : N) : byte :=
  match Byte.of_N (n mod 256) with
  | Some b => b
  | None => x00
  end.

Definition incorrect_padding : exc :=
  BuiltinError "binascii.Error" "Incorrect padding".

Definition one_extra_character : exc :=
  BuiltinError "binascii.Error"
    "Invalid base64-encoded string: number of data characters cannot be 1 more than a multiple of 4".

(** The loop of [binascii.a2b_base64] in its default, non-strict mode:
    characters outside the alphabet are skipped; a pad sequence that
    completes a quad ends the decoding; [quad_pos] counts the data
    characters of the current quad, [leftchar] holds its pending bits and
    [pads] the pad characters seen since the last data character. *)
Fixpoint a2b_loop (s : string) (quad_pos : N) (leftchar : N) (pads : N)
  (out : list byte) : result (list byte) :=
  match s with
  | EmptyString =>
      if quad_pos =? 0 then ret out
      else if quad_pos =? 1 then raise one_extra_character
      else raise incorrect_padding
  | String ch s' =>
      if Ascii.eqb ch pad then
        if 2 <=? quad_pos then
          if 4 <=? quad_pos + (pads + 1) then ret out
          else a2b_loop s' quad_pos leftchar (pads + 1) out
        else a2b_loop s' quad_pos leftchar pads out
      else
        match a2b ch with
        | None => a2b_loop s' quad_pos leftchar pads out
        | Some v =>
            if quad_pos =? 0 then a2b_loop s' 1 v 0 out
            else if quad_pos =? 1 then
              a2b_loop s' 2 (v mod 16) 0
                (out ++ [byte_of_N (leftchar * 4 + v / 16)])
            else if quad_pos =? 2 then
              a2b_loop s' 3 (v mod 4) 0
                (out ++ [byte_of_N (leftchar * 16 + v / 4)])
            else
              a2b_loop s' 0 0 0 (out ++ [byte_of_N (leftchar * 64 + v)])
        end
  end%N.

Definition a2b_base64 (s : string) : result (list byte) := a2b_loop s 0 0 0 [].

(** [base64.b64decode(s)] on a [str]: the argument must be ASCII. *)
Definition b64decode (s : string) : result (list byte) :=
  if PyStr.is_ascii s then a2b_base64 s
  else raise (BuiltinError "ValueError"
                "string argument should contain only ASCII characters").

End Base64.

(** ** UTF-8 *)

Module Utf8.

Local Open Scope N_scope.

Definition cont (b : N) : bool := (128 <=? b) && (b <=? 191).

(** Well-formed UTF-8 (Unicode table 3-7): no overlong forms, no
    surrogates, nothing above U+10FFFF. *)
Fixpoint well_formed (l : list N) : bool :=
  match l with
  | [] => true
  | a :: r1 =>
      if a <? 128 then well_formed r1
      else
        match r1 with
        | [] => false
        | b :: r2 =>
            if (194 <=? a) && (a <=? 223) then cont b && well_formed r2
            else
              match r2 with
              | [] => false
              | c :: r3 =>
                  if (224 <=? a) && (a <=? 239) then
                    (if a =? 224 then (160 <=? b) && (b <=? 191)
                     else if a =? 237 then (128 <=? b) && (b <=? 159)
                     else cont b)
                    && cont c && well_formed r3
                  else
                    match r3 with
                    | [] => false
                    | d :: r4 =>
                        if (240 <=? a) && (a <=? 244) then
                          (if a =? 240 then (144 <=? b) && (b <=? 191)
                           else if a =? 244 then (128 <=? b) && (b <=? 143)
                           else cont b)
                          && cont c && cont d && well_formed r4
                        else false
                    end
              end
        end
  end.

Definition valid (data : list byte) : bool := well_formed (map Byte.to_N data).

(** [s.encode("utf-8")]: a [str] is represented by its UTF-8 bytes. *)
Definition encode (s : string) : list byte := list_byte_of_string s.

(** [data.decode("utf-8")]. *)
Definition decode (data : list byte) : result string :=
  if valid data then ret (string_of_list_byte data)
  else raise (BuiltinError "UnicodeDecodeError"
                "'utf-8' codec can't decode bytes").

(** The strings that represent a Python [str]. *)
Definition is_str (s : string) : bool := valid (encode s).

End Utf8.

(** ** Cryptographic primitives ([hashlib], [hmac], [cryptography]) *)

(** The primitives are taken as an interface: SHA-256 and HMAC-SHA-256 with
    their hexadecimal digests, and AES-GCM without associated data
    ([AESGCM(key).encrypt(nonce, data, None)] and [.decrypt], which raise on
    a nonce of unsupported length and, for [decrypt], on a failed
    authentication: [InvalidTag]). *)
Class Primitives : Type := {
  sha256_hexdigest : list byte -> string;
  hmac_sha256_hexdigest : list byte -> list byte -> string;
  aesgcm_encrypt : list byte -> list byte -> list byte -> result (list byte);
  aesgcm_decrypt : list byte -> list byte -> list byte -> result (list byte)
}.

Definition is_hex_char (c : ascii) : bool :=
  let n := N_of_ascii c in
  ((48 <=? n) && (n <=? 57) || (97 <=? n) && (n <=? 102))%N.

(** What the development relies on: a hexadecimal digest consists of
    lower-case hexadecimal characters, and AES-GCM decrypts what it has
    encrypted under the same key and nonce. *)
Class PrimitivesOk (P : Primitives) : Prop := {
  hmac_hexdigest_hex : forall key msg,
    forallb is_hex_char (PyStr.chars (hmac_sha256_hexdigest key msg)) = true;
  aesgcm_round_trip : forall key nonce data ct,
    aesgcm_encrypt key nonce data = inr ct ->
    aesgcm_decrypt key nonce ct = inr data
}.

(** What AES-GCM does besides: decryption returns data only for a
    ciphertext that is the encryption of that data under the same key and
    nonce (the tag is recomputed and compared), and a ciphertext is the
    encrypted data, which determines the data, followed by a tag of sixteen
    bytes. *)
Class PrimitivesAuthentic (P : Primitives) : Prop := {
  aesgcm_decrypt_sound : forall key nonce ct data,
    aesgcm_decrypt key nonce ct = inr data ->
    aesgcm_encrypt key nonce data = inr ct;
  aesgcm_body : forall key nonce data data' ct ct',
    aesgcm_encrypt key nonce data = inr ct ->
    aesgcm_encrypt key nonce data' = inr ct' ->
    firstn (length ct - 16) ct = firstn (length ct' - 16) ct' ->
    data = data'
}.

(** ** Security utilities ([app/core/security.py]) *)

Module Security.
Section WithPrimitives.
Context {P : Primitives}.

Local Open Scope result_scope.

(** *** [TokenEncryptor] *)

Record TokenEncryptor : Type := mkTokenEncryptor {
  aesgcm : list byte;   (* the key held by [AESGCM(master_key)] *)
  key_id : string
}.

(** [TokenEncryptor._generate_key_id]. *)
Definition _generate_key_id (key : list byte) : string :=
  PyStr.prefix 8 (sha256_hexdigest key).

(** [TokenEncryptor.__init__]. *)
Definition TokenEncryptor_init (master_key_b64 : string) : result TokenEncryptor :=
  try_except
    (master_key <- Base64.b64decode master_key_b64 ;;
     if negb (length master_key =? 32)%nat
     then raise (BuiltinError "ValueError"
                  ("Key must be 32 bytes, got "
                   ++ PyStr.py_str (Z.of_nat (length master_key))))
     else ret (mkTokenEncryptor master_key (_generate_key_id master_key)))
    (fun e => raise (TokenEncryptionError "initialization" (exc_str e))).

(** The body of [TokenEncryptor.encrypt] once [os.urandom(12)] has
    returned [nonce]. *)
Definition encrypt_with (self : TokenEncryptor) (nonce : list byte)
  (plaintext : string) : result (string * string * string) :=
  try_except
    (ciphertext <- aesgcm_encrypt (aesgcm self) nonce (Utf8.encode plaintext) ;;
     ret (Base64.b64encode ciphertext, Base64.b64encode nonce, key_id self))
    (fun e => raise (TokenEncryptionError "encryption" (exc_str e))).

(** The operating system's entropy: an unbounded stream of bytes and the
    number of bytes drawn so far. *)
Record entropy : Type := mkEntropy {
  stream : nat -> byte;
  drawn : nat
}.

(** [os.urandom(n)]. *)
Definition os_urandom (n : nat) (r : entropy) : list byte * entropy :=
  (map (stream r) (seq (drawn r) n), mkEntropy (stream r) (drawn r + n)).

(** [TokenEncryptor.encrypt]. *)
Definition encrypt (self : TokenEncryptor) (plaintext : string) (r : entropy)
  : result (string * string * string) * entropy :=
  let '(nonce, r') := os_urandom 12 r in
  (encrypt_with self nonce plaintext, r').

(** [TokenEncryptor.decrypt]. *)
Definition decrypt (self : TokenEncryptor) (ciphertext_b64 nonce_b64 : string)
  : result string :=
  try_except
    (ciphertext <- Base64.b64decode ciphertext_b64 ;;
     nonce <- Base64.b64decode nonce_b64 ;;
     plaintext <- aesgcm_decrypt (aesgcm self) nonce ciphertext ;;
     Utf8.decode plaintext)
    (fun e => raise (TokenEncryptionError "decryption" (exc_str e))).

(** *** [OAuthStateManager] *)

Record OAuthStateManager : Type := mkOAuthStateManager {
  secret_key : list byte;
  ttl_seconds : Z
}.

Definition default_ttl_seconds : Z := 600.

(** [OAuthStateManager.__init__]. *)
Definition OAuthStateManager_init (secret : string) (ttl : Z) : OAuthStateManager :=
  mkOAuthStateManager (Utf8.encode secret) ttl.

(** [OAuthStateManager._sign]. *)
Definition _sign (self : OAuthStateManager) (payload : string) : string :=
  PyStr.prefix 32 (hmac_sha256_hexdigest (secret_key self) (Utf8.encode payload)).

(** [bytes.rstrip(b"=")]. *)
Fixpoint rstrip_pad (s : string) : string :=
  match s with
  | EmptyString => EmptyString
  | String c s' =>
      match rstrip_pad s' with
      | EmptyString =>
          if Ascii.eqb c Base64.pad then EmptyString else String c EmptyString
      | r => String c r
      end
  end.

(** [secrets.token_urlsafe] on the bytes drawn by [secrets.token_bytes]. *)
Definition token_urlsafe (tok : list byte) : string :=
  rstrip_pad (Base64.urlsafe_b64encode tok).

(** [OAuthStateManager.generate_state]; [tok] are the 16 random bytes drawn
    by [secrets.token_urlsafe(16)] and [now] is the clock,
    [int(datetime.now(timezone.utc).timestamp())]. *)
Definition generate_state (self : OAuthStateManager) (tok : list byte) (now : Z)
  (user_id : string) : string :=
  let random_part := token_urlsafe tok in
  let timestamp := now in
  let payload :=
    (random_part ++ "." ++ user_id ++ "." ++ PyStr.py_str timestamp)%string in
  let signature := _sign self payload in
  (payload ++ "." ++ signature)%string.

(** The [try] block of [OAuthStateManager.validate_state]. *)
Definition validate_state_body (self : OAuthStateManager) (now : Z) (state : string)
  : result (option string) :=
  match PyStr.rsplit1 PyStr.dot state with
  | [payload; signature] =>
      same <- PyStr.compare_digest signature (_sign self payload) ;;
      if negb same then ret None
      else
        match PyStr.split PyStr.dot payload with
        | [_; user_id; timestamp_str] =>
            timestamp <- PyStr.py_int timestamp_str ;;
            if (now - timestamp >? ttl_seconds self)%Z then ret None
            else ret (Some user_id)
        | _ => ret None
        end
  | _ => ret None
  end.

(** [OAuthStateManager.validate_state]: [None] on any exception. *)
Definition validate_state (self : OAuthStateManager) (now : Z) (state : string)
  : result (option string) :=
  try_except (validate_state_body self now state) (fun _ => ret None).

End WithPrimitives.
End Security.

(** ** Records of the store ([app/db/models.py]) *)

Module Models.

(** A [datetime] is represented by its POSIX timestamp. *)
Definition datetime : Type := Z.

(** [GoogleCalendarToken]: a row of table [google_calendar_tokens]. *)
Record GoogleCalendarToken : Type := mkToken {
  id : option string;
  user_id : string;
  organization_id : option string;
  google_email : string;
  google_account_id : string;
  encrypted_refresh_token : string;
  encryption_nonce : string;
  encryption_key_id : string;
  access_token_expires_at : option datetime;
  scopes_granted : list string;
  is_active : bool;
  last_sync_at : option datetime;
  last_error : option string;
  connected_at : option datetime;
  revoked_at : option datetime;
  created_at : option datetime;
  updated_at : option datetime
}.

(** [GoogleCalendarTokenCreate]. *)
Record GoogleCalendarTokenCreate : Type := mkTokenCreate {
  new_user_id : string;
  new_organization_id : option string;
  new_google_email : string;
  new_google_account_id : string;
  new_encrypted_refresh_token : string;
  new_encryption_nonce : string;
  new_encryption_key_id : string;
  new_access_token_expires_at : option datetime;
  new_scopes_granted : list string
}.

(** The [update] payloads of the repository, applied to one row. *)
Definition with_expiry (expires_at now : datetime) (t : GoogleCalendarToken)
  : GoogleCalendarToken :=
  mkToken (id t) (user_id t) (organization_id t) (google_email t)
    (google_account_id t) (encrypted_refresh_token t) (encryption_nonce t)
    (encryption_key_id t) (Some expires_at) (scopes_granted t) (is_active t)
    (last_sync_at t) (last_error t) (connected_at t) (revoked_at t)
    (created_at t) (Some now).

Definition with_revoked (now : datetime) (t : GoogleCalendarToken)
  : GoogleCalendarToken :=
  mkToken (id t) (user_id t) (organization_id t) (google_email t)
    (google_account_id t) (encrypted_refresh_token t) (encryption_nonce t)
    (encryption_key_id t) (access_token_expires_at t) (scopes_granted t) false
    (last_sync_at t) (last_error t) (connected_at t) (Some now)
    (created_at t) (Some now).

Definition with_error (error : string) (now : datetime) (t : GoogleCalendarToken)
  : GoogleCalendarToken :=
  mkToken (id t) (user_id t) (organization_id t) (google_email t)
    (google_account_id t) (encrypted_refresh_token t) (encryption_nonce t)
    (encryption_key_id t) (access_token_expires_at t) (scopes_granted t)
    (is_active t) (last_sync_at t) (Some error) (connected_at t) (revoked_at t)
    (created_at t) (Some now).

(** Modelled from the spec: the column defaults of table
    [google_calendar_tokens], whose migration is not among the sources: a
    record is created active, with no error and no revocation time; the
    columns that the insert does not name are left empty. *)
Definition inserted_row (data : GoogleCalendarTokenCreate) (now : datetime)
  : GoogleCalendarToken :=
  mkToken None (new_user_id data) (new_organization_id data)
    (new_google_email data) (new_google_account_id data)
    (new_encrypted_refresh_token data) (new_encryption_nonce data)
    (new_encryption_key_id data) (new_access_token_expires_at data)
    (new_scopes_granted data) true None None (Some now) None None None.

End Models.

(** ** The world of a request *)

Module World.
Import Models Security.

(** What a request does to the outside: calls to the provider, draws of
    entropy and requests to the store. *)
Inductive event : Type :=
| ExchangeCode (code : string)
| GetUserInfo (access_token : string)
| RefreshCall (refresh_token : string)
| RevokeCall (refresh_token : string)
| Urandom (n : nat)
| DbSelect
| DbInsert
| DbUpdate (user_id : string)
| DbDelete (user_id : string).

(** The table of credential records, the outcome of the coming requests to
    the store ([true]: the request raises; an exhausted list: the store
    answers), the entropy, the clock and the events so far. *)
Record world : Type := mkWorld {
  tokens : list GoogleCalendarToken;
  faults : list bool;
  rng : entropy;
  clock : datetime;
  trace : list event
}.

(** A computation in the world: it raises or returns, and leaves a world. *)
Definition M (A : Type) : Type := world -> result A * world.

Definition mret {A} (a : A) : M A := fun w => (inr a, w).
Definition mraise {A} (e : exc) : M A := fun w => (inl e, w).
Definition mbind {A B} (m : M A) (k : A -> M B) : M B :=
  fun w => match m w with
           | (inl e, w') => (inl e, w')
           | (inr a, w') => k a w'
           end.
Definition lift {A} (r : result A) : M A := fun w => (r, w).

(** [try: body except Exception as e: handler(e)]. *)
Definition mtry {A} (body : M A) (handler : exc -> M A) : M A :=
  fun w => match body w with
           | (inl e, w') => handler e w'
           | (inr a, w') => (inr a, w')
           end.

Declare Scope world_scope.
Delimit Scope world_scope with world.
Notation "x <- m ;; k" := (mbind m (fun x => k))
  (at level 61, m at next level, right associativity) : world_scope.
Notation "m ;; k" := (mbind m (fun _ => k))
  (at level 61, right associativity) : world_scope.

(** The world after one more event, and with another table. *)
Definition add_event (ev : event) (w : world) : world :=
  mkWorld (tokens w) (faults w) (rng w) (clock w) (trace w ++ [ev]).

Definition with_rows (l : list GoogleCalendarToken) (w : world) : world :=
  mkWorld l (faults w) (rng w) (clock w) (trace w).

Definition log (ev : event) : M unit := fun w => (inr tt, add_event ev w).

Definition now : M datetime := fun w => (inr (clock w), w).

Definition rows : M (list GoogleCalendarToken) := fun w => (inr (tokens w), w).

Definition set_rows (l : list GoogleCalendarToken) : M unit :=
  fun w => (inr tt, with_rows l w).

Definition store_unavailable : exc :=
  BuiltinError "APIError" "the request to the store failed".

(** Whether the store answers the coming request, and the world once the
    request has been sent. *)
Definition accepts (w : world) : bool :=
  match faults w with
  | true :: _ => false
  | _ => true
  end.

Definition sent (ev : event) (w : world) : world :=
  mkWorld (tokens w) (tl (faults w)) (rng w) (clock w) (trace w ++ [ev]).

(** [.execute()]: the request is sent; it raises when the store fails. *)
Definition execute (ev : event) : M unit :=
  fun w => (if accepts w then ret tt else raise store_unavailable, sent ev w).

(** [.single()]: the request raises unless exactly one row matches. *)
Definition single (l : list GoogleCalendarToken) : result GoogleCalendarToken :=
  match l with
  | [row] => ret row
  | _ => raise (BuiltinError "APIError"
                  "JSON object requested, multiple (or no) rows returned")
  end.

(** [os.urandom] in the world. *)
Definition urandom (n : nat) : M (list byte) :=
  fun w =>
    let '(bytes, r) := os_urandom n (rng w) in
    (inr bytes, mkWorld (tokens w) (faults w) r (clock w) (trace w ++ [Urandom n])).

End World.

(** ** The token repository ([app/db/repositories.py]) *)

Module TokenRepository.
Import Models World.

Local Open Scope world_scope.

Definition for_user (uid : string) (t : GoogleCalendarToken) : bool :=
  String.eqb (user_id t) uid.

(** The active records of a user, and of a provider account. *)
Definition active_of_user (uid : string) (table : list GoogleCalendarToken) :=
  filter (fun t => for_user uid t && is_active t) table.

Definition active_of_account (account : string) (table : list GoogleCalendarToken) :=
  filter (fun t => String.eqb (google_account_id t) account && is_active t) table.

(** The table after [.update(payload).eq("user_id", uid)]. *)
Definition updated (uid : string)
  (payload : GoogleCalendarToken -> GoogleCalendarToken)
  (table : list GoogleCalendarToken) : list GoogleCalendarToken :=
  map (fun t => if for_user uid t then payload t else t) table.

(** The row of a request for a single row, if there is exactly one. *)
Definition found (l : list GoogleCalendarToken) : option GoogleCalendarToken :=
  match l with
  | [row] => Some row
  | _ => None
  end.

(** [TokenRepository.get_by_user_id]. *)
Definition get_by_user_id (uid : string) : M (option GoogleCalendarToken) :=
  mtry (execute DbSelect ;;
        table <- rows ;;
        row <- lift (single (active_of_user uid table)) ;;
        mret (Some row))
       (fun _ => mret None).

(** [TokenRepository.get_by_google_account]. *)
Definition get_by_google_account (account_id : string)
  : M (option GoogleCalendarToken) :=
  mtry (execute DbSelect ;;
        table <- rows ;;
        row <- lift (single (active_of_account account_id table)) ;;
        mret (Some row))
       (fun _ => mret None).

(** What [json.dumps] raises on a [datetime]. *)
Definition not_serializable : exc :=
  BuiltinError "TypeError" "Object of type datetime is not JSON serializable".

(** [TokenRepository.create].  [model_dump()] leaves
    [access_token_expires_at] a [datetime] (unlike [update_expiry], the
    method does not call [isoformat] on it), which the client cannot
    serialise as JSON: when the field is set, the insert raises [TypeError]
    before a request is sent. *)
Definition create (data : GoogleCalendarTokenCreate) : M GoogleCalendarToken :=
  t <- now ;;
  match new_access_token_expires_at data with
  | Some _ => mraise not_serializable
  | None =>
      execute DbInsert ;;
      table <- rows ;;
      set_rows (table ++ [inserted_row data t]) ;;
      mret (inserted_row data t)
  end.

(** The world after an update request: the rows are written only if the
    store answers. *)
Definition written (uid : string)
  (payload : GoogleCalendarToken -> GoogleCalendarToken) (w : world) : world :=
  if accepts w
  then with_rows (updated uid payload (tokens w)) (sent (DbUpdate uid) w)
  else sent (DbUpdate uid) w.

(** [.update(payload).eq("user_id", uid)]: every row of the user. *)
Definition update_rows (uid : string)
  (payload : GoogleCalendarToken -> GoogleCalendarToken) : M unit :=
  execute (DbUpdate uid) ;;
  table <- rows ;;
  set_rows (updated uid payload table).

(** [TokenRepository.update_expiry]. *)
Definition update_expiry (uid : string) (expires_at : datetime) : M bool :=
  mtry (t <- now ;; update_rows uid (with_expiry expires_at t) ;; mret true)
       (fun _ => mret false).

(** [TokenRepository.mark_revoked]. *)
Definition mark_revoked (uid : string) : M bool :=
  mtry (t <- now ;; update_rows uid (with_revoked t) ;; mret true)
       (fun _ => mret false).

(** [TokenRepository.delete]. *)
Definition delete (uid : string) : M bool :=
  mtry (execute (DbDelete uid) ;;
        table <- rows ;;
        set_rows (filter (fun t => negb (for_user uid t)) table) ;;
        mret true)
       (fun _ => mret false).

(** [TokenRepository.set_error]. *)
Definition set_error (uid : string) (error : string) : M bool :=
  mtry (t <- now ;; update_rows uid (with_error error t) ;; mret true)
       (fun _ => mret false).

End TokenRepository.

(** ** The provider ([app/core/google_client.py]) *)

Module Provider.
Import World.

Local Open Scope world_scope.

(** The dictionary returned by [GoogleOAuthFlow.exchange_code]. *)
Record OAuthTokens : Type := mkOAuthTokens {
  access_token : string;
  refresh_token : option string;
  expires_at : option Models.datetime;
  scopes : list string
}.

(** The dictionary returned by [get_user_info]. *)
Record UserInfo : Type := mkUserInfo {
  email : string;
  account_id : string   (* key ["id"] *)
}.

(** [google.oauth2.credentials.Credentials] after a refresh. *)
Record Credentials : Type := mkCredentials {
  token : string;
  expiry : option Models.datetime
}.

(** The answers of the provider to the four outbound calls: the code
    exchange, the user-info query, the refresh of an access token (which
    raises on refusal, transport error or timeout) and the HTTP status of
    the revocation request. *)
Record Google : Type := mkGoogle {
  fetch_token : string -> result OAuthTokens;
  userinfo : string -> result UserInfo;
  refresh : string -> result Credentials;
  revoke_post : string -> result Z
}.

Section WithGoogle.
Variable G : Google.

(** [GoogleOAuthFlow.exchange_code]. *)
Definition exchange_code (code : string) : M OAuthTokens :=
  log (ExchangeCode code) ;; lift (fetch_token G code).

(** [get_user_info]. *)
Definition get_user_info (tok : string) : M UserInfo :=
  log (GetUserInfo tok) ;; lift (userinfo G tok).

(** [credentials.refresh(Request())]. *)
Definition credentials_refresh (rt : string) : M Credentials :=
  log (RefreshCall rt) ;; lift (refresh G rt).

(** [revoke_token]: [False] on any exception. *)
Definition revoke_token (rt : string) : M bool :=
  mtry (log (RevokeCall rt) ;;
        status <- lift (revoke_post G rt) ;;
        mret (status =? 200)%Z)
       (fun _ => mret false).

End WithGoogle.
End Provider.

(** ** The services ([app/api/auth/service.py],
       [app/api/calendar/service.py]) *)

Module Services.
Import Models World TokenRepository Provider Security.

Local Open Scope world_scope.

(** [CallbackResponse], [RevokeResponse] ([app/schemas/auth.py]). *)
Record CallbackResponse : Type := mkCallbackResponse {
  callback_success : bool;
  callback_user_id : string;
  callback_google_email : string;
  callback_message : string
}.

Record RevokeResponse : Type := mkRevokeResponse {
  success : bool;
  message : string
}.

(** What [_get_calendar_client] hands to [GoogleCalendarClient]. *)
Record GoogleCalendarClient : Type := mkClient {
  client_access_token : string;
  client_refresh_token : string;
  client_user_id : string
}.

Section WithDependencies.
Context {P : Primitives}.
Variable G : Google.
Variable encryptor : TokenEncryptor.
Variable state_manager : OAuthStateManager.

(** [self.encryptor.encrypt(tokens["refresh_token"])]; the exchange may
    have returned no refresh token, and [None.encode] raises inside the
    [try] of [encrypt], after the nonce has been drawn. *)
Definition encrypt_refresh_token (rt : option string)
  : M (string * string * string) :=
  nonce <- urandom 12 ;;
  match rt with
  | Some plaintext => lift (encrypt_with encryptor nonce plaintext)
  | None =>
      mraise (TokenEncryptionError "encryption"
                "'NoneType' object has no attribute 'encode'")
  end.

(** [AuthService.handle_callback]. *)
Definition handle_callback (code state : string) : M CallbackResponse :=
  t <- now ;;
  validated <- lift (validate_state state_manager t state) ;;
  match validated with
  | None | Some EmptyString =>
      mraise (OAuthStateError "Invalid or expired state parameter")
  | Some uid =>
      tokens <- exchange_code G code ;;
      user_info <- get_user_info G (access_token tokens) ;;
      existing <- get_by_google_account (account_id user_info) ;;
      if match existing with
         | Some e => negb (String.eqb (user_id e) uid)
         | None => false
         end
      then mraise (OAuthStateError
                     "This Google account is already connected to another user")
      else
        enc <- encrypt_refresh_token (refresh_token tokens) ;;
        let '(encrypted_token, nonce, key_id) := enc in
        let token_data :=
          mkTokenCreate uid None (email user_info) (account_id user_info)
            encrypted_token nonce key_id (expires_at tokens) (scopes tokens) in
        existing_user_token <- get_by_user_id uid ;;
        match existing_user_token with
        | Some _ => delete uid ;; mret tt
        | None => mret tt
        end ;;
        create token_data ;;
        mret (mkCallbackResponse true uid (email user_info)
                "Google Calendar connected successfully")
  end.

(** [AuthService.revoke_connection]. *)
Definition revoke_connection (uid : string) : M RevokeResponse :=
  tok <- get_by_user_id uid ;;
  match tok with
  | None => mret (mkRevokeResponse false "No Google Calendar connection found")
  | Some tok =>
      mtry (rt <- lift (decrypt encryptor (encrypted_refresh_token tok)
                          (encryption_nonce tok)) ;;
            revoke_token G rt ;;
            mret tt)
           (fun _ => mret tt) ;;
      mark_revoked uid ;;
      mret (mkRevokeResponse true "Google Calendar disconnected successfully")
  end.

Definition refresh_failed (uid : string) : exc :=
  TokenExpiredError uid "Failed to refresh access token".

(** [CalendarService._get_calendar_client]. *)
Definition _get_calendar_client (uid : string) : M GoogleCalendarClient :=
  tok <- get_by_user_id uid ;;
  match tok with
  | None => mraise (CalendarNotConnectedError uid)
  | Some tok =>
      rt <- lift (decrypt encryptor (encrypted_refresh_token tok)
                    (encryption_nonce tok)) ;;
      credentials <-
        mtry (credentials_refresh G rt)
             (fun e => set_error uid (exc_str e) ;; mraise (refresh_failed uid)) ;;
      match expiry credentials with
      | Some expires => update_expiry uid expires ;; mret tt
      | None => mret tt
      end ;;
      mret (mkClient (token credentials) rt uid)
  end.

(** *** Requests in flight

    [_get_calendar_client] as the steps between its [await]s, so that
    several requests can be interleaved: the read of the record; the
    decryption and the refresh call; the write of the error or of the
    expiry. *)
Inductive phase : Type :=
| Start
| HaveToken (tok : option GoogleCalendarToken)
| RefreshFailed (reason : string)
| RefreshDone (rt : string) (credentials : Credentials) (expires : datetime)
| Finished (r : result GoogleCalendarClient).

Definition client_step (uid : string) (ph : phase) (w : world) : phase * world :=
  match ph with
  | Start =>
      match get_by_user_id uid w with
      | (inr tok, w') => (HaveToken tok, w')
      | (inl e, w') => (Finished (inl e), w')
      end
  | HaveToken None => (Finished (inl (CalendarNotConnectedError uid)), w)
  | HaveToken (Some tok) =>
      match decrypt encryptor (encrypted_refresh_token tok) (encryption_nonce tok) with
      | inl e => (Finished (inl e), w)
      | inr rt =>
          match credentials_refresh G rt w with
          | (inl e, w') => (RefreshFailed (exc_str e), w')
          | (inr credentials, w') =>
              match expiry credentials with
              | Some expires => (RefreshDone rt credentials expires, w')
              | None => (Finished (inr (mkClient (token credentials) rt uid)), w')
              end
          end
      end
  | RefreshFailed reason =>
      (Finished (inl (refresh_failed uid)), snd (set_error uid reason w))
  | RefreshDone rt credentials expires =>
      (Finished (inr (mkClient (token credentials) rt uid)),
       snd (update_expiry uid expires w))
  | Finished r => (Finished r, w)
  end.

Definition is_finished (ph : phase) : bool :=
  match ph with
  | Finished _ => true
  | _ => false
  end.

(** One request of the pool that is not finished takes its next step. *)
Inductive pool_step (uid : string) : list phase * world -> list phase * world -> Prop :=
| pool_step_at before ph after w ph' w' :
    is_finished ph = false ->
    client_step uid ph w = (ph', w') ->
    pool_step uid (before ++ ph :: after, w) (before ++ ph' :: after, w').

(** Any interleaving of the steps of the requests. *)
Inductive pool_run (uid : string) : list phase * world -> list phase * world -> Prop :=
| pool_run_refl s : pool_run uid s s
| pool_run_step s1 s2 s3 :
    pool_step uid s1 s2 -> pool_run uid s2 s3 -> pool_run uid s1 s3.

(** A request run to its end, and [n] requests one after the other. *)
Definition run_request (uid : string) (w : world) : phase * world :=
  let '(p1, w1) := client_step uid Start w in
  let '(p2, w2) := client_step uid p1 w1 in
  client_step uid p2 w2.

Fixpoint run_requests (uid : string) (n : nat) (w : world) : world :=
  match n with
  | O => w
  | S n' => run_requests uid n' (snd (_get_calendar_client uid w))
  end.

End WithDependencies.

(** The requests that have issued their refresh call. *)
Definition has_refreshed (ph : phase) : bool :=
  match ph with
  | Start | HaveToken _ => false
  | _ => true
  end.

(** Two records that hold the same encrypted secret. *)
Definition same_secret (a b : GoogleCalendarToken) : Prop :=
  encrypted_refresh_token a = encrypted_refresh_token b /\
  encryption_nonce a = encryption_nonce b.

(** The store answers and holds one active record of the user, with the
    secret of [tok]. *)
Definition store_ok (uid : string) (tok : GoogleCalendarToken) (w : world) : Prop :=
  faults w = [] /\
  exists t, active_of_user uid (tokens w) = [t] /\ same_secret t tok.

(** A request in flight has read a record with the secret of [tok]. *)
Definition phase_ok (tok : GoogleCalendarToken) (ph : phase) : Prop :=
  match ph with
  | HaveToken (Some t) => same_secret t tok
  | HaveToken None => False
  | _ => True
  end.

(** The outbound refresh calls among the events. *)
Definition is_refresh_call (ev : event) : bool :=
  match ev with
  | RefreshCall _ => true
  | _ => false
  end.

Definition refresh_calls (w : world) : nat :=
  length (filter is_refresh_call (trace w)).

(** The requests of a pool that have issued their refresh call. *)
Definition counted (ph : phase) : nat := if has_refreshed ph then 1 else 0.

Definition pool_counted (pool : list phase) : nat :=
  list_sum (map counted pool).

(** The invariant of a pool of requests of one user: the store is in
    order, so is every request, and the refresh calls issued since the pool
    started are those of the requests that have passed their refresh. *)
Definition pool_invariant (uid : string) (tok : GoogleCalendarToken)
  (calls0 : nat) (s : list phase * world) : Prop :=
  store_ok uid tok (snd s) /\
  Forall (phase_ok tok) (fst s) /\
  refresh_calls (snd s) = calls0 + pool_counted (fst s).

End Services.

(** ** Key generation, status and routes

    The remaining functions of [app/core/security.py] and
    [app/api/auth/service.py], and the routes that call the services
    ([app/api/auth/router.py], [app/api/internal/router.py]). *)

Module Routes.
Import Models World TokenRepository Provider Security Services.

Local Open Scope world_scope.

(** [generate_encryption_key]. *)
Definition generate_encryption_key (r : entropy) : string * entropy :=
  let '(key, r') := os_urandom 32 r in
  (Base64.b64encode key, r').

(** [generate_api_key]: [secrets.token_urlsafe(32)]. *)
Definition generate_api_key (r : entropy) : string * entropy :=
  let '(tok, r') := os_urandom 32 r in
  (token_urlsafe tok, r').

(** [AuthorizationUrlResponse], [ConnectionStatusResponse]
    ([app/schemas/auth.py]). *)
Record AuthorizationUrlResponse : Type := mkAuthorizationUrlResponse {
  authorization_url : string;
  state : string
}.

Record ConnectionStatusResponse : Type := mkConnectionStatusResponse {
  connected : bool;
  status_google_email : option string;
  status_connected_at : option datetime;
  status_scopes : list string;
  status_last_sync : option datetime;
  status_is_active : bool
}.

(** The dictionary that [check_user_connection] answers: without a record
    the keys ["connected"], ["user_id"] and ["message"]; with a record the
    keys ["connected"], ["user_id"], ["google_email"], ["is_active"],
    ["last_sync"] and ["last_error"]. *)
Inductive ConnectionCheck : Type :=
| NotConnected (user_id message : string)
| Connected (user_id google_email : string) (is_active : bool)
    (last_sync : option datetime) (last_error : option string).

(** A [RedirectResponse]: the target and the query parameters handed to
    [urlencode]. *)
Record Redirect : Type := mkRedirect {
  redirect_url : string;
  params : list (string * string)
}.

Section WithDependencies.
Context {P : Primitives}.
Variable G : Google.
Variable encryptor : TokenEncryptor.
Variable state_manager : OAuthStateManager.

(** [GoogleOAuthFlow.get_authorization_url]: the consent URL that the
    OAuth library builds around the state. *)
Variable consent_url : string -> string.

(** [settings.frontend_url]. *)
Variable frontend_url : string.

(** [AuthService.get_authorization_url]. *)
Definition get_authorization_url (uid : string) : M AuthorizationUrlResponse :=
  tok <- urandom 16 ;;
  t <- now ;;
  let state := generate_state state_manager tok t uid in
  mret (mkAuthorizationUrlResponse (consent_url state) state).

(** [AuthService.get_connection_status]. *)
Definition get_connection_status (uid : string) : M ConnectionStatusResponse :=
  tok <- get_by_user_id uid ;;
  match tok with
  | None => mret (mkConnectionStatusResponse false None None [] None false)
  | Some tok =>
      mret (mkConnectionStatusResponse true (Some (google_email tok))
              (connected_at tok) (scopes_granted tok) (last_sync_at tok)
              (is_active tok))
  end.

(** [check_user_connection] ([app/api/internal/router.py]). *)
Definition check_user_connection (uid : string) : M ConnectionCheck :=
  tok <- get_by_user_id uid ;;
  match tok with
  | None => mret (NotConnected uid "User has not connected Google Calendar")
  | Some tok =>
      mret (Connected uid (google_email tok) (is_active tok) (last_sync_at tok)
              (last_error tok))
  end.

Definition integrations_page : string :=
  (frontend_url ++ "/settings/integrations")%string.

(** [oauth_callback] ([app/api/auth/router.py]): every outcome of
    [handle_callback] becomes a redirect to the front end. *)
Definition oauth_callback (code state : string) : M Redirect :=
  mtry (result <- handle_callback G encryptor state_manager code state ;;
        mret (mkRedirect integrations_page
                [("google", "connected");
                 ("email", callback_google_email result)]))
       (fun e =>
          match e with
          | OAuthStateError reason =>
              mret (mkRedirect integrations_page
                      [("google", "error"); ("reason", reason)])
          | _ =>
              mret (mkRedirect integrations_page
                      [("google", "error"); ("reason", "Connection failed")])
          end).

End WithDependencies.
End Routes.

(** ** Invariants of the table of credential records *)

Module Invariants.
Import Models World TokenRepository Provider.

(** All the records of a user, active or not. *)
Definition rows_of (uid : string) (table : list GoogleCalendarToken) :=
  filter (for_user uid) table.

(** At most one active record per user, and per provider account. *)
Definition one_active_per_user (table : list GoogleCalendarToken) : Prop :=
  forall uid, length (active_of_user uid table) <= 1.

Definition one_active_per_account (table : list GoogleCalendarToken) : Prop :=
  forall account, length (active_of_account account table) <= 1.

Definition store_invariant (table : list GoogleCalendarToken) : Prop :=
  one_active_per_user table /\ one_active_per_account table.

(** The table after [.delete().eq("user_id", uid)]. *)
Definition without_user (uid : string) (table : list GoogleCalendarToken) :=
  filter (fun t => negb (for_user uid t)) table.

(** What an update payload keeps of a row: its owner, its provider account
    and its encrypted secret. *)
Definition keeps_identity (payload : GoogleCalendarToken -> GoogleCalendarToken)
  : Prop :=
  forall t,
    user_id (payload t) = user_id t /\
    google_account_id (payload t) = google_account_id t /\
    encrypted_refresh_token (payload t) = encrypted_refresh_token t /\
    encryption_nonce (payload t) = encryption_nonce t /\
    encryption_key_id (payload t) = encryption_key_id t.

(** The record that [handle_callback] inserts for [uid]: the account of
    [info], the encrypted secret [enc] and the expiry and scopes of the
    exchanged tokens. *)
Definition callback_record (uid : string) (info : UserInfo) (oauth : OAuthTokens)
  (enc : string * string * string) (now : datetime) : GoogleCalendarToken :=
  let '(encrypted_token, nonce, key_id) := enc in
  inserted_row
    (mkTokenCreate uid None (email info) (account_id info)
       encrypted_token nonce key_id (expires_at oauth) (scopes oauth))
    now.

(** What an update of the records of [uid] leaves alone, from world [w] to
    the outcome [out]: it does not raise, keeps the number of records, the
    records of every other user, and the owner, the provider account and
    the encrypted secret of every record. *)
Definition framed (uid : string) (w : world) (out : result bool * world) : Prop :=
  (exists ok, fst out = inr ok) /\
  length (tokens (snd out)) = length (tokens w) /\
  (forall uid', uid' <> uid ->
     rows_of uid' (tokens (snd out)) = rows_of uid' (tokens w)) /\
  map user_id (tokens (snd out)) = map user_id (tokens w) /\
  map google_account_id (tokens (snd out)) = map google_account_id (tokens w) /\
  map encrypted_refresh_token (tokens (snd out))
  = map encrypted_refresh_token (tokens w) /\
  map encryption_nonce (tokens (snd out)) = map encryption_nonce (tokens w).

(** The world after a delete request. *)
Definition deleted (uid : string) (w : world) : world :=
  if accepts w
  then with_rows (without_user uid (tokens w)) (sent (DbDelete uid) w)
  else sent (DbDelete uid) w.

End Invariants.

(** *** A reference instance of the primitives

    Small stand-ins with the interface of the primitives, used to evaluate
    the definitions on concrete inputs: the digest is a fixed-width
    hexadecimal rendering of a checksum, and the cipher appends a
    sixteen-byte tag derived from key, nonce and data. *)

Module Reference.

Definition hex_digit (n : N) : ascii :=
  match String.get (N.to_nat (n mod 16)) "0123456789abcdef" with
  | Some c => c
  | None => "0"%char
  end.

Fixpoint hex_of (width : nat) (n : N) : string :=
  match width with
  | O => EmptyString
  | S w => String (hex_digit n) (hex_of w (n / 16 + 7 * (n mod 16) + 1))
  end.

Definition checksum (data : list byte) : N :=
  fold_left (fun acc b => (acc * 31 + Byte.to_N b + 1) mod 4294967291)%N data 17%N.

Definition ref_sha256_hexdigest (data : list byte) : string :=
  hex_of 64 (checksum data).

Definition ref_hmac_sha256_hexdigest (key msg : list byte) : string :=
  hex_of 64 (checksum (key ++ x00 :: msg) + 3 * checksum key)%N.

Definition ref_tag (key nonce data : list byte) : list byte :=
  map (fun i => Base64.byte_of_N (checksum (key ++ nonce ++ data) / N.of_nat (i + 1)))
      (seq 0 16).

Definition bad_nonce : exc :=
  BuiltinError "ValueError" "Nonce must be between 8 and 128 bytes".

Definition nonce_ok (nonce : list byte) : bool :=
  ((8 <=? length nonce) && (length nonce <=? 128))%nat.

Definition ref_aesgcm_encrypt (key nonce data : list byte) : result (list byte) :=
  if nonce_ok nonce then ret (data ++ ref_tag key nonce data)
  else raise bad_nonce.

Definition byte_list_eqb (a b : list byte) : bool :=
  if list_eq_dec Byte.byte_eq_dec a b then true else false.

Definition ref_aesgcm_decrypt (key nonce ct : list byte) : result (list byte) :=
  if nonce_ok nonce then
    let n := (length ct - 16)%nat in
    let data := firstn n ct in
    if (16 <=? length ct)%nat && byte_list_eqb (skipn n ct) (ref_tag key nonce data)
    then ret data
    else raise (BuiltinError "InvalidTag" "")
  else raise bad_nonce.

#[export] Instance reference_primitives : Primitives := {|
  sha256_hexdigest := ref_sha256_hexdigest;
  hmac_sha256_hexdigest := ref_hmac_sha256_hexdigest;
  aesgcm_encrypt := ref_aesgcm_encrypt;
  aesgcm_decrypt := ref_aesgcm_decrypt
|}.

End Reference.

(** ** Availability slots ([app/schemas/calendar.py]) *)

Module Availability.

(** [AvailabilitySlot]: wall-clock times as ["HH:MM"] strings. *)
Record AvailabilitySlot : Type := mkSlot {
  start : string;
  end_ : string
}.

(** [a < b] on [str]. *)
Definition str_lt (a b : string) : bool := String.ltb a b.

(** [max(a, b)]: the first argument unless the second is strictly larger. *)
Definition py_max (a b : string) : string :=
  if str_lt a b then b else a.

(** [sorted(busy_slots, key=lambda x: x.start)].  Python's sort is stable;
    the stable sorted permutation of a list is unique, and it is the one
    computed by inserting each element in front of the first later element
    whose key is not smaller. *)
Fixpoint insert_by_start (x : AvailabilitySlot) (l : list AvailabilitySlot)
  : list AvailabilitySlot :=
  match l with
  | [] => [x]
  | y :: l' =>
      if str_lt (start y) (start x) then y :: insert_by_start x l'
      else x :: y :: l'
  end.

Fixpoint sorted_by_start (l : list AvailabilitySlot) : list AvailabilitySlot :=
  match l with
  | [] => []
  | x :: l' => insert_by_start x (sorted_by_start l')
  end.

(** One iteration of the [for busy in sorted_busy] loop; the loop state is
    [(free_slots, current_start)]. *)
Definition loop_body (st : list AvailabilitySlot * string) (busy : AvailabilitySlot)
  : list AvailabilitySlot * string :=
  let '(free_slots, current_start) := st in
  let free_slots' :=
    if str_lt current_start (start busy)
    then free_slots ++ [mkSlot current_start (start busy)]
    else free_slots in
  (free_slots', py_max current_start (end_ busy)).

(** [CalendarService._calculate_free_slots]. *)
Definition _calculate_free_slots (busy_slots : list AvailabilitySlot)
  (work_start work_end : string) : list AvailabilitySlot :=
  match busy_slots with
  | [] => [mkSlot work_start work_end]
  | _ =>
      let sorted_busy := sorted_by_start busy_slots in
      let '(free_slots, current_start) :=
        fold_left loop_body sorted_busy ([], work_start) in
      if str_lt current_start work_end
      then free_slots ++ [mkSlot current_start work_end]
      else free_slots
  end.

(** The instant [t] lies in the half-open slot [[start, end)]. *)
Definition in_slot (t : string) (s : AvailabilitySlot) : bool :=
  negb (str_lt t (start s)) && str_lt t (end_ s).

Definition covered (t : string) (l : list AvailabilitySlot) : bool :=
  existsb (in_slot t) l.

(** [strftime("%H:%M")] of the wall-clock time [minutes] after midnight. *)
Definition digit_char (d : nat) : ascii := ascii_of_N (48 + N.of_nat d).

Definition two_digits (n : nat) : string :=
  String (digit_char (n / 10)) (String (digit_char (n mod 10)) "").

Definition strftime_HM (minutes : nat) : string :=
  (two_digits (minutes / 60) ++ ":" ++ two_digits (minutes mod 60))%string.

(** [a < b] and [a <= b] on strings, as propositions. *)
Definition slt (a b : string) : Prop := str_lt a b = true.
Definition sle (a b : string) : Prop := str_lt b a = false.

(** The order of the sort key. *)
Definition start_le (x y : AvailabilitySlot) : Prop := sle (start x) (start y).

(** The slots emitted by the loop from cursor [cur], and the final cursor. *)
Definition gaps (cur : string) (bs : list AvailabilitySlot) :=
  fst (fold_left loop_body bs ([], cur)).
Definition cursor_after (cur : string) (bs : list AvailabilitySlot) :=
  snd (fold_left loop_body bs ([], cur)).

(** The free slots are, as a set of instants, the part of the window
    [[ws, we)] that no busy interval covers. *)
Definition complement_in_window (busy free : list AvailabilitySlot)
  (ws we : string) : Prop :=
  forall t, covered t free = true <->
            sle ws t /\ slt t we /\ covered t busy = false.

(** The algorithm in the words of the design document, for comparison with
    the code: walk the sorted intervals left to right with a cursor; emit
    [[cursor, busy.start)] when the interval starts after the cursor;
    advance the cursor to [max(cursor, busy.end)]; after the last interval
    emit [[cursor, work_end)] if the cursor is before [work_end]. *)
Fixpoint spec_cursor_walk (cursor : string) (sorted_busy : list AvailabilitySlot)
  (work_end : string) : list AvailabilitySlot :=
  match sorted_busy with
  | [] => if str_lt cursor work_end then [mkSlot cursor work_end] else []
  | busy :: rest =>
      (if str_lt cursor (start busy) then [mkSlot cursor (start busy)] else [])
      ++ spec_cursor_walk (py_max cursor (end_ busy)) rest work_end
  end.

Definition spec_free_slots (busy_slots : list AvailabilitySlot)
  (work_start work_end : string) : list AvailabilitySlot :=
  match busy_slots with
  | [] => [mkSlot work_start work_end]
  | _ => spec_cursor_walk work_start (sorted_by_start busy_slots) work_end
  end.

End Availability.

(** *** Sample data for the reference instance *)

Module Samples.
Import Security Reference.

Definition state_manager : OAuthStateManager :=
  OAuthStateManager_init "test-secret-key" default_ttl_seconds.

(** Sixteen bytes standing for a draw of [secrets.token_bytes(16)]. *)
Definition token_bytes : list byte :=
  map (fun i => Base64.byte_of_N (N.of_nat (i * 37 + 5))) (seq 0 16).

(** Twelve bytes standing for a draw of [os.urandom(12)]. *)
Definition nonce_bytes : list byte := firstn 12 token_bytes.

Definition issued_at : Z := 1730000000.

Definition master_key : list byte :=
  map (fun i => Base64.byte_of_N (N.of_nat i)) (seq 0 32).

Definition encryptor : TokenEncryptor :=
  mkTokenEncryptor master_key (_generate_key_id master_key).

(** An entropy source whose first draw, [os.urandom(12)], is [nonce_bytes]. *)
Definition sample_entropy : entropy :=
  mkEntropy (fun i => nth i nonce_bytes x00) 0.

(** An encryptor built on another key. *)
Definition other_encryptor : TokenEncryptor :=
  mkTokenEncryptor (rev master_key) (_generate_key_id (rev master_key)).

(** The text [s] with the character at index [i] replaced by [c]. *)
Fixpoint set_char (i : nat) (c : ascii) (s : string) : string :=
  match s, i with
  | EmptyString, _ => EmptyString
  | String _ s', O => String c s'
  | String d s', S j => String d (set_char j c s')
  end.

(** A record of user ["user-123"] for provider account ["g-111"], holding
    the encryption of ["refresh-token-1"]. *)
Definition alice_token : Models.GoogleCalendarToken :=
  Models.mkToken (Some "row-1") "user-123" None "alice@example.com" "g-111"
    "cmVmcmVzaC10b2tlbi0xI5G2yKDb4OSSUI7tPfCKcg==" "BSpPdJm+4wgtUnec" "84e6d8eb"
    None ["calendar"] true None None (Some 1700000000%Z) None None None.

(** A store that answers, holding that record. *)
Definition sample_world : World.world :=
  World.mkWorld [alice_token] [] sample_entropy issued_at [].

Definition timeout : exc := BuiltinError "TimeoutError" "timed out".

(** A provider that exchanges codes and identifies account ["g-111"], but
    whose refresh and revocation endpoints time out. *)
Definition unreachable_google : Provider.Google :=
  Provider.mkGoogle
    (fun _ => inr (Provider.mkOAuthTokens "access-1" (Some "refresh-token-2")
                     None ["calendar"]))
    (fun _ => inr (Provider.mkUserInfo "alice@example.com" "g-111"))
    (fun _ => inl timeout)
    (fun _ => inl timeout).

(** A provider whose refresh endpoint answers. *)
Definition working_google : Provider.Google :=
  Provider.mkGoogle
    (fun _ => inr (Provider.mkOAuthTokens "access-1" (Some "refresh-token-2")
                     None ["calendar"]))
    (fun _ => inr (Provider.mkUserInfo "alice@example.com" "g-111"))
    (fun _ => inr (Provider.mkCredentials "access-2" (Some (issued_at + 3600)%Z)))
    (fun _ => inr 200%Z).

(** The state issued to user ["user-456"]. *)
Definition bob_state : string :=
  generate_state state_manager token_bytes issued_at "user-456".

(** The state issued to user ["user-123"]. *)
Definition alice_state : string :=
  generate_state state_manager token_bytes issued_at "user-123".

(** A store that answers and holds no record. *)
Definition empty_world : World.world :=
  World.mkWorld [] [] sample_entropy issued_at [].

(** The store of [sample_world] when the coming requests fail as listed. *)
Definition faulty_world (faults : list bool) : World.world :=
  World.mkWorld [alice_token] faults sample_entropy issued_at [].

(** A provider whose code exchange returns no refresh token. *)
Definition forgetful_google : Provider.Google :=
  Provider.mkGoogle
    (fun _ => inr (Provider.mkOAuthTokens "access-1" None None ["calendar"]))
    (fun _ => inr (Provider.mkUserInfo "alice@example.com" "g-111"))
    (fun _ => inl timeout)
    (fun _ => inl timeout).

(** What [encrypt] returns for ["refresh-token-2"] under the first nonce of
    [sample_entropy]. *)
Definition reconnect_secret : string * string * string :=
  Eval vm_compute in
    match encrypt_with encryptor (fst (os_urandom 12 sample_entropy))
            "refresh-token-2" with
    | inr enc => enc
    | inl _ => (EmptyString, EmptyString, EmptyString)
    end.

(** The fields of a new record for user ["user-789"]. *)
Definition carol_data : Models.GoogleCalendarTokenCreate :=
  Models.mkTokenCreate "user-789" None "carol@example.com" "g-333"
    "c2VjcmV0" "bm9uY2U=" "84e6d8eb" None ["calendar"].

(** The same fields, with the expiry of an access token. *)
Definition carol_dated_data : Models.GoogleCalendarTokenCreate :=
  Models.mkTokenCreate "user-789" None "carol@example.com" "g-333"
    "c2VjcmV0" "bm9uY2U=" "84e6d8eb" (Some (issued_at + 3599)%Z) ["calendar"].

(** The dictionary of a code exchange whose credentials have an expiry. *)
Definition dated_tokens : Provider.OAuthTokens :=
  Provider.mkOAuthTokens "access-1" (Some "refresh-token-2")
    (Some (issued_at + 3599)%Z) ["calendar"].

(** A provider that answers every call, and whose code exchange returns
    that dictionary. *)
Definition dated_google : Provider.Google :=
  Provider.mkGoogle
    (fun _ => inr dated_tokens)
    (fun _ => inr (Provider.mkUserInfo "alice@example.com" "g-111"))
    (fun _ => inr (Provider.mkCredentials "access-2" (Some (issued_at + 3600)%Z)))
    (fun _ => inr 200%Z).

End Samples.

(* ================================================================== *)
(** * Part II.  Properties *)
(* ================================================================== *)

(** ** Strings *)

Module PyStrFacts.
Import PyStr.

Local Open Scope string_scope.

Lemma no_sep_cons sep c s :
  no_sep sep (String c s) = negb (Ascii.eqb c sep) && no_sep sep s.
Proof. reflexivity. Qed.

Lemma no_sep_app sep a b :
  no_sep sep (a ++ b) = no_sep sep a && no_sep sep b.
Proof.
  induction a as [|c a IH]; simpl; [reflexivity|].
  rewrite !no_sep_cons, IH. now rewrite andb_assoc.
Qed.

Lemma split_not_nil sep s : split sep s <> [].
Proof.
  destruct s as [|c s]; simpl; [discriminate|].
  destruct (Ascii.eqb c sep); [discriminate|].
  destruct (split sep s); discriminate.
Qed.

Lemma split_no_sep sep s : no_sep sep s = true -> split sep s = [s].
Proof.
  induction s as [|c s IH]; simpl; [reflexivity|].
  rewrite no_sep_cons, andb_true_iff, negb_true_iff. intros [Hc Hs].
  now rewrite Hc, (IH Hs).
Qed.

Lemma split_app sep a b :
  split sep (a ++ String sep b) = (split sep a ++ split sep b)%list.
Proof.
  induction a as [|c a IH]; simpl.
  - now rewrite Ascii.eqb_refl.
  - rewrite IH. destruct (Ascii.eqb c sep); [reflexivity|].
    pose proof (split_not_nil sep a) as N.
    destruct (split sep a); [contradiction | reflexivity].
Qed.

Lemma split_parts_no_sep sep s :
  Forall (fun p => no_sep sep p = true) (split sep s).
Proof.
  induction s as [|c s IH]; simpl.
  - repeat constructor.
  - destruct (Ascii.eqb c sep) eqn:E.
    + now constructor.
    + destruct (split sep s) as [|p ps]; [repeat constructor; simpl|].
      * rewrite no_sep_cons, E. reflexivity.
      * inversion IH; subst. constructor; [|assumption].
        rewrite no_sep_cons, E. simpl. assumption.
Qed.

Lemma split_singleton sep s a :
  split sep s = [a] -> s = a /\ no_sep sep s = true.
Proof.
  revert a. induction s as [|c s IH]; simpl; intros a E.
  - split; [congruence | reflexivity].
  - pose proof (split_not_nil sep s) as N.
    destruct (Ascii.eqb c sep) eqn:Ec.
    + destruct (split sep s); [contradiction | discriminate].
    + destruct (split sep s) as [|p [|q ps]]; try contradiction; try discriminate.
      destruct (IH p eq_refl) as [-> Hs]. injection E as <-.
      split; [reflexivity|]. now rewrite no_sep_cons, Ec.
Qed.

Lemma rsplit_last_none sep s :
  no_sep sep s = true -> rsplit_last sep s = None.
Proof.
  induction s as [|c s IH]; simpl; [reflexivity|].
  rewrite no_sep_cons, andb_true_iff, negb_true_iff. intros [Hc Hs].
  now rewrite (IH Hs), Hc.
Qed.

Lemma rsplit_last_app sep p q :
  no_sep sep q = true -> rsplit_last sep (p ++ String sep q) = Some (p, q).
Proof.
  intros Hq. induction p as [|c p IH]; simpl.
  - now rewrite (rsplit_last_none _ _ Hq), Ascii.eqb_refl.
  - now rewrite IH.
Qed.

Lemma rsplit_last_some sep s p q :
  rsplit_last sep s = Some (p, q) ->
  s = p ++ String sep q /\ no_sep sep q = true.
Proof.
  revert p q. induction s as [|c s IH]; intros p q; simpl; [discriminate|].
  destruct (rsplit_last sep s) as [[p' q']|] eqn:E.
  - intros [= <- <-]. destruct (IH _ _ eq_refl) as [-> Hq]. now split.
  - destruct (Ascii.eqb_spec c sep) as [->|]; [|discriminate].
    intros [= <- <-]. split; [reflexivity|].
    clear IH. induction s as [|d s IHs]; [reflexivity|].
    simpl in E. destruct (rsplit_last sep s) as [[? ?]|]; [discriminate|].
    destruct (Ascii.eqb d sep) eqn:Ed; [discriminate|].
    rewrite no_sep_cons, Ed. simpl. now apply IHs.
Qed.

Lemma rsplit_last_none_inv sep s :
  rsplit_last sep s = None -> no_sep sep s = true.
Proof.
  induction s as [|c s IH]; simpl; [reflexivity|].
  destruct (rsplit_last sep s) as [[? ?]|]; [discriminate|].
  destruct (Ascii.eqb c sep) eqn:E; [discriminate|].
  intros _. rewrite no_sep_cons, E. simpl. now apply IH.
Qed.

(** The number of parts of a string split at its last separator. *)
Lemma split_length_rsplit sep s p q :
  rsplit_last sep s = Some (p, q) ->
  length (split sep s) = S (length (split sep p)).
Proof.
  intros H. destruct (rsplit_last_some _ _ _ _ H) as [-> Hq].
  rewrite split_app, (split_no_sep _ _ Hq), length_app. simpl. lia.
Qed.

(** *** Characters of digests and numerals *)

Lemma chars_app a b : chars (a ++ b) = (chars a ++ chars b)%list.
Proof. induction a as [|c a IH]; simpl; [reflexivity | now rewrite <- IH]. Qed.

Lemma forallb_chars_substring f : forall s n m,
  forallb f (chars s) = true -> forallb f (chars (substring n m s)) = true.
Proof.
  induction s as [|c s IH]; intros n m H; destruct n, m; simpl in *;
    try reflexivity; apply andb_true_iff in H; destruct H as [Hc Hs];
    try (now apply IH).
  rewrite Hc. simpl. now apply IH.
Qed.

Lemma forallb_chars_impl (f g : ascii -> bool) s :
  (forall c, f c = true -> g c = true) ->
  forallb f (chars s) = true -> forallb g (chars s) = true.
Proof.
  intros Hfg. rewrite !forallb_forall. intros H c Hc. apply Hfg, H, Hc.
Qed.

Lemma ascii_range_not (lo hi n : N) (c : ascii) :
  N_of_ascii c = n -> (n < lo \/ hi < n)%N ->
  forall d, ((lo <=? N_of_ascii d) && (N_of_ascii d <=? hi))%N = true ->
  Ascii.eqb d c = false.
Proof.
  intros Hn Hout d Hd. apply andb_true_iff in Hd. destruct Hd as [H1 H2].
  apply N.leb_le in H1, H2.
  destruct (Ascii.eqb_spec d c) as [->|]; [lia | reflexivity].
Qed.

Lemma is_digit_not_dot c : is_digit c = true -> Ascii.eqb c dot = false.
Proof.
  intros H. apply (ascii_range_not 48 57 46 dot eq_refl); [lia | exact H].
Qed.

Lemma hex_char_not_dot c : is_hex_char c = true -> Ascii.eqb c dot = false.
Proof.
  unfold is_hex_char. cbv zeta. rewrite orb_true_iff. intros [H|H].
  - apply (ascii_range_not 48 57 46 dot eq_refl); [lia | exact H].
  - apply (ascii_range_not 97 102 46 dot eq_refl); [lia | exact H].
Qed.

Lemma hex_char_ascii c : is_hex_char c = true -> (N_of_ascii c <? 128)%N = true.
Proof.
  unfold is_hex_char. cbv zeta.
  rewrite orb_true_iff, !andb_true_iff, !N.leb_le, N.ltb_lt. lia.
Qed.

(** *** [str] and [int] of an integer *)

Lemma uint_all_digits d : all_digits (NilEmpty.string_of_uint d).
Proof. unfold all_digits. induction d; simpl; auto. Qed.

Lemma uint_string_not_empty d :
  d <> Decimal.Nil -> NilEmpty.string_of_uint d <> "".
Proof. destruct d; simpl; congruence. Qed.

Lemma all_digits_cons c s : all_digits (String c s) <-> is_digit c = true /\ all_digits s.
Proof. unfold all_digits. simpl. now rewrite andb_true_iff. Qed.

Lemma is_digit_not c (x : ascii) :
  (N_of_ascii x < 48 \/ 57 < N_of_ascii x)%N ->
  is_digit c = true -> Ascii.eqb c x = false.
Proof.
  intros Hx H. apply (ascii_range_not 48 57 (N_of_ascii x) x eq_refl Hx). exact H.
Qed.

Lemma is_digit_not_space c : is_digit c = true -> is_space c = false.
Proof.
  unfold is_digit, is_space. cbv zeta.
  rewrite andb_true_iff, !N.leb_le. intros [H1 H2].
  apply orb_false_iff. split.
  - apply andb_false_iff. right. apply N.leb_gt. lia.
  - apply N.eqb_neq. lia.
Qed.

Lemma lstrip_digits s : all_digits s -> lstrip s = s.
Proof.
  destruct s as [|c s]; [reflexivity|]. rewrite all_digits_cons. intros [Hc _].
  simpl. now rewrite (is_digit_not_space _ Hc).
Qed.

Lemma rstrip_digits s : all_digits s -> rstrip s = s.
Proof.
  induction s as [|c s IH]; [reflexivity|]. rewrite all_digits_cons.
  intros [Hc Hs]. simpl. rewrite (IH Hs).
  destruct s; [now rewrite (is_digit_not_space _ Hc) | reflexivity].
Qed.

Lemma digit_groups_digits s : forall b,
  all_digits s -> digit_groups s b = (negb (String.eqb s "") || b)%bool.
Proof.
  induction s as [|c s IH]; intros b; [reflexivity|].
  rewrite all_digits_cons. intros [Hc Hs]. simpl. rewrite Hc, (IH _ Hs).
  now rewrite orb_true_r.
Qed.

Lemma remove_underscores_digits s : all_digits s -> remove_underscores s = s.
Proof.
  induction s as [|c s IH]; [reflexivity|]. rewrite all_digits_cons.
  intros [Hc Hs]. simpl.
  rewrite (is_digit_not c "_"%char) by (simpl; lia || exact Hc); try exact Hc.
  now rewrite (IH Hs).
Qed.

Lemma all_digits_is_ascii s : all_digits s -> is_ascii s = true.
Proof.
  unfold all_digits, is_ascii. apply forallb_chars_impl.
  intros c. unfold is_digit. cbv zeta.
  rewrite andb_true_iff, !N.leb_le, N.ltb_lt. lia.
Qed.

Lemma py_int_digits negative u :
  u <> Decimal.Nil ->
  py_int ((if negative : bool then "-" else "") ++ NilEmpty.string_of_uint u)
  = inr (if negative then (- Z.of_uint u)%Z else Z.of_uint u).
Proof.
  intros Hu.
  pose proof (uint_all_digits u) as D.
  assert (A : is_ascii ((if negative : bool then "-" else "")
                        ++ NilEmpty.string_of_uint u) = true).
  { pose proof (all_digits_is_ascii _ D) as A.
    destruct negative; [|exact A]. unfold is_ascii in *. simpl. exact A. }
  unfold py_int. rewrite A. clear A. unfold long_from_string.
  pose proof (uint_string_not_empty u Hu) as NE.
  set (s := NilEmpty.string_of_uint u) in *.
  assert (Hparse : NilZero.uint_of_string s = Some u)
    by (unfold s; destruct u; try contradiction; apply NilEmpty.usu).
  assert (Hgroups : digit_groups s false = true).
  { rewrite (digit_groups_digits _ _ D).
    destruct s; [contradiction | reflexivity]. }
  unfold strip. destruct negative; simpl append.
  - assert (E : rstrip (lstrip (String "-" s)) = String "-" s).
    { simpl. rewrite (rstrip_digits _ D). destruct s; [contradiction|reflexivity]. }
    rewrite E. simpl split_sign. cbv beta iota.
    now rewrite Hgroups, (remove_underscores_digits _ D), Hparse.
  - rewrite (lstrip_digits _ D), (rstrip_digits _ D).
    destruct s as [|c r] eqn:Es; [contradiction|].
    apply all_digits_cons in D. destruct D as [Hc Hr].
    unfold split_sign.
    rewrite (is_digit_not c "+"%char), (is_digit_not c "-"%char);
      try exact Hc; try (simpl; lia).
    rewrite <- Es in *. cbv beta iota.
    assert (D : all_digits s) by (rewrite Es; now apply all_digits_cons).
    now rewrite Hgroups, (remove_underscores_digits _ D), Hparse.
Qed.

(** [int(str(n)) == n]. *)
Lemma py_int_py_str z : py_int (py_str z) = inr z.
Proof.
  unfold py_str. destruct z as [|p|p]; [reflexivity| |].
  - pose proof (Unsigned.to_uint_nonnil p) as N.
    pose proof (py_int_digits false (Pos.to_uint p) N) as H.
    pose proof (DecimalZ.of_to (Zpos p)) as E. simpl in E, H |- *.
    destruct (Pos.to_uint p); try contradiction; simpl in *; now rewrite H, E.
  - pose proof (Unsigned.to_uint_nonnil p) as N.
    pose proof (py_int_digits true (Pos.to_uint p) N) as H.
    pose proof (DecimalZ.of_to (Zneg p)) as E. simpl in E, H |- *.
    destruct (Pos.to_uint p); try contradiction; simpl in *; now rewrite H, E.
Qed.

Lemma all_digits_no_dot s : all_digits s -> no_sep dot s = true.
Proof.
  unfold all_digits, no_sep. apply forallb_chars_impl.
  intros c Hc. now rewrite (is_digit_not_dot _ Hc).
Qed.

(** A decimal numeral contains no separator. *)
Lemma py_str_no_dot z : no_sep dot (py_str z) = true.
Proof.
  unfold py_str. destruct z as [|p|p]; [reflexivity| |]; simpl.
  - pose proof (all_digits_no_dot _ (uint_all_digits (Pos.to_uint p))) as H.
    destruct (Pos.to_uint p); try reflexivity; exact H.
  - pose proof (all_digits_no_dot _ (uint_all_digits (Pos.to_uint p))) as H.
    rewrite no_sep_cons. simpl.
    destruct (Pos.to_uint p); try reflexivity; exact H.
Qed.

(** *** [int] on some literals *)

(** White space around the literal, a sign and single underscores. *)
Example int_spaces_sign_underscore :
  py_int (of_utf8 [32; 9; 45; 49; 95; 50; 51; 10]%N) = inr (-123)%Z.
Proof. vm_compute. reflexivity. Qed.

(** The separators U+001C to U+001F, which [str.strip] removes, are not
    white space for [int]. *)
Example int_rejects_unit_separator :
  exists e, py_int (of_utf8 [49; 50; 31]%N) = inl e.
Proof. eexists. vm_compute. reflexivity. Qed.

(** Decimal digits of other scripts (Arabic-Indic one and two) and white
    space beyond ASCII (a no-break space) are read. *)
Example int_unicode_digits :
  py_int (of_utf8 [194; 160; 217; 161; 217; 162]%N) = inr 12%Z.
Proof. vm_compute. reflexivity. Qed.

(** A digit that is not decimal (superscript two) is not. *)
Example int_rejects_superscript :
  exists e, py_int (of_utf8 [49; 194; 178]%N) = inl e.
Proof. eexists. vm_compute. reflexivity. Qed.

End PyStrFacts.

(** ** Base64 *)

Module Base64Facts.
Import PyStr PyStrFacts Base64.

Lemma list_ind3 {A} (Q : list A -> Prop) :
  Q [] -> (forall x, Q [x]) -> (forall x y, Q [x; y]) ->
  (forall x y z r, Q r -> Q (x :: y :: z :: r)) ->
  forall l, Q l.
Proof.
  intros H0 H1 H2 H3.
  assert (G : forall l, Q l /\ (forall x, Q (x :: l)) /\ (forall x y, Q (x :: y :: l))).
  { induction l as [|a l (IH0 & IH1 & IH2)]; [now repeat split|].
    split; [apply IH1|]. split; [intros x; apply IH2|]. intros x y. now apply H3. }
  intros l. apply G.
Qed.

Lemma get_in n : forall s c, String.get n s = Some c -> In c (chars s).
Proof.
  induction n as [|n IH]; intros [|d s] c; simpl; try discriminate.
  - intros [= ->]. now left.
  - intros H. right. now apply IH.
Qed.

(** A property of every character of the alphabet and of the pad holds of
    every character of an encoding. *)
Lemma encode_chars (f : ascii -> bool) alphabet :
  forallb f (chars alphabet) = true -> f pad = true ->
  forall data, forallb f (chars (encode alphabet data)) = true.
Proof.
  intros Ha Hp.
  assert (Hb : forall v, f (b2a alphabet v) = true).
  { intros v. unfold b2a. destruct (String.get _ _) eqn:E; [|exact Hp].
    rewrite forallb_forall in Ha. apply Ha. eapply get_in, E. }
  induction data as [|x|x y|x y z r IH] using list_ind3; simpl;
    rewrite ?Hb, ?Hp; try reflexivity. exact IH.
Qed.

Lemma urlsafe_b64encode_no_dot data :
  no_sep dot (urlsafe_b64encode data) = true.
Proof. apply encode_chars; reflexivity. Qed.

Lemma b64encode_is_ascii data : is_ascii (b64encode data) = true.
Proof. apply encode_chars; reflexivity. Qed.

(** *** Decoding an encoding *)

Lemma small_cases (Q : N -> Prop) (n : nat) :
  Forall Q (map N.of_nat (seq 0 n)) -> forall v, (v < N.of_nat n)%N -> Q v.
Proof.
  intros H v Hv. rewrite Forall_forall in H. apply H.
  rewrite <- (N2Nat.id v). apply in_map. apply in_seq. lia.
Qed.

Lemma a2b_b2a v : (v < 64)%N -> a2b (b2a std_alphabet v) = Some v.
Proof.
  apply (small_cases (fun v => a2b (b2a std_alphabet v) = Some v) 64).
  repeat constructor.
Qed.

Lemma b2a_not_pad v : (v < 64)%N -> Ascii.eqb (b2a std_alphabet v) pad = false.
Proof.
  apply (small_cases (fun v => Ascii.eqb (b2a std_alphabet v) pad = false) 64).
  repeat constructor.
Qed.

(** One data character read by the decoder. *)
Lemma a2b_loop_data v s q l p out :
  (v < 64)%N ->
  a2b_loop (String (b2a std_alphabet v) s) q l p out
  = (if q =? 0 then a2b_loop s 1 v 0 out
     else if q =? 1 then
       a2b_loop s 2 (v mod 16) 0 (out ++ [byte_of_N (l * 4 + v / 16)])
     else if q =? 2 then
       a2b_loop s 3 (v mod 4) 0 (out ++ [byte_of_N (l * 16 + v / 4)])
     else a2b_loop s 0 0 0 (out ++ [byte_of_N (l * 64 + v)]))%N.
Proof.
  intros Hv. simpl. now rewrite (b2a_not_pad v Hv), (a2b_b2a v Hv).
Qed.

Lemma to_N_bound x : (Byte.to_N x < 256)%N.
Proof.
  pose proof (Byte.to_of_N_option_map (Byte.to_N x)) as H.
  rewrite Byte.of_to_N in H. simpl in H.
  destruct (N.leb_spec (Byte.to_N x) 255); [lia | discriminate].
Qed.

Lemma byte_of_N_to_N n x : (n mod 256 = Byte.to_N x)%N -> byte_of_N n = x.
Proof. unfold byte_of_N. intros ->. now rewrite Byte.of_to_N. Qed.

Ltac sextets :=
  repeat match goal with
    | x : byte |- _ =>
        let H := fresh "B" in
        pose proof (to_N_bound x) as H;
        generalize dependent (Byte.to_N x); clear x; intros x H
    end;
  zify; Z.to_euclidean_division_equations; lia.

Lemma a2b_loop_encode data : forall out,
  a2b_loop (b64encode data) 0 0 0 out = inr (out ++ data).
Proof.
  unfold b64encode.
  induction data as [|x|x y|x y z r IH] using list_ind3; intros out.
  - simpl. now rewrite app_nil_r.
  - cbn [encode].
    rewrite a2b_loop_data by sextets. cbn [N.eqb].
    rewrite a2b_loop_data by sextets. cbn [N.eqb Pos.eqb].
    simpl. unfold ret. f_equal. f_equal. f_equal.
    apply byte_of_N_to_N. sextets.
  - cbn [encode].
    rewrite a2b_loop_data by sextets. cbn [N.eqb].
    rewrite a2b_loop_data by sextets. cbn [N.eqb Pos.eqb].
    rewrite a2b_loop_data by sextets. cbn [N.eqb Pos.eqb].
    simpl. unfold ret. rewrite <- app_assoc. simpl. f_equal. f_equal.
    f_equal; [|f_equal]; apply byte_of_N_to_N; sextets.
  - cbn [encode].
    rewrite a2b_loop_data by sextets. cbn [N.eqb].
    rewrite a2b_loop_data by sextets. cbn [N.eqb Pos.eqb].
    rewrite a2b_loop_data by sextets. cbn [N.eqb Pos.eqb].
    rewrite a2b_loop_data by sextets. cbn [N.eqb Pos.eqb].
    rewrite IH. rewrite <- !app_assoc. simpl. f_equal. f_equal.
    f_equal; [|f_equal; [|f_equal]]; apply byte_of_N_to_N; sextets.
Qed.

(** [b64decode(b64encode(data)) == data]. *)
Lemma b64decode_b64encode data : b64decode (b64encode data) = inr data.
Proof.
  unfold b64decode, a2b_base64.
  now rewrite b64encode_is_ascii, a2b_loop_encode.
Qed.

(** The last character in front of the padding carries bits that the
    decoder drops: two texts can decode to the same bytes. *)
Lemma b64decode_not_injective :
  b64decode "QQ==" = inr ["A"%byte] /\ b64decode "QR==" = inr ["A"%byte].
Proof. split; reflexivity. Qed.

End Base64Facts.

(** ** The reference primitives satisfy the interface *)

Module ReferenceFacts.
Import PyStr PyStrFacts Reference.

Lemma hex_digit_is_hex n : is_hex_char (hex_digit n) = true.
Proof.
  unfold hex_digit.
  assert (H : (n mod 16 < N.of_nat 16)%N) by (apply N.mod_lt; discriminate).
  revert H. generalize (n mod 16)%N.
  apply (Base64Facts.small_cases
           (fun v => is_hex_char
                       match String.get (N.to_nat v) "0123456789abcdef" with
                       | Some c => c
                       | None => "0"%char
                       end = true) 16).
  repeat constructor.
Qed.

Lemma hex_of_is_hex w : forall n, forallb is_hex_char (chars (hex_of w n)) = true.
Proof.
  induction w as [|w IH]; intros n; simpl; [reflexivity|].
  now rewrite hex_digit_is_hex, IH.
Qed.

Lemma hex_of_length w : forall n, String.length (hex_of w n) = w.
Proof. induction w as [|w IH]; intros n; simpl; [reflexivity | now rewrite IH]. Qed.

Lemma ref_tag_length key nonce data : length (ref_tag key nonce data) = 16.
Proof. unfold ref_tag. now rewrite length_map, length_seq. Qed.

Lemma byte_list_eqb_refl a : byte_list_eqb a a = true.
Proof. unfold byte_list_eqb. destruct (list_eq_dec _ a a); congruence. Qed.

#[export] Instance reference_ok : PrimitivesOk reference_primitives.
Proof.
  constructor.
  - intros key msg. apply hex_of_is_hex.
  - intros key nonce data ct. simpl.
    unfold ref_aesgcm_encrypt, ref_aesgcm_decrypt.
    destruct (nonce_ok nonce); [|discriminate].
    intros [= <-].
    pose proof (ref_tag_length key nonce data) as L.
    rewrite length_app, L.
    replace (length data + 16 - 16) with (length data) by lia.
    rewrite firstn_app, Nat.sub_diag, firstn_all. simpl firstn. rewrite app_nil_r.
    rewrite skipn_app, Nat.sub_diag, skipn_all. cbn [skipn app].
    rewrite byte_list_eqb_refl.
    destruct (Nat.leb_spec 16 (length data + 16)); [reflexivity | lia].
Qed.

Lemma byte_list_eqb_eq a b : byte_list_eqb a b = true -> a = b.
Proof.
  unfold byte_list_eqb. destruct (list_eq_dec _ a b); [auto | discriminate].
Qed.

#[export] Instance reference_authentic : PrimitivesAuthentic reference_primitives.
Proof.
  constructor.
  - intros key nonce ct data. simpl.
    unfold ref_aesgcm_encrypt, ref_aesgcm_decrypt.
    destruct (nonce_ok nonce); [|discriminate].
    destruct ((16 <=? length ct)%nat && _) eqn:E; [|discriminate].
    intros [= <-]. apply andb_true_iff in E. destruct E as [_ E].
    apply byte_list_eqb_eq in E. unfold ret. rewrite <- E.
    now rewrite firstn_skipn.
  - intros key nonce data data' ct ct'. simpl. unfold ref_aesgcm_encrypt.
    destruct (nonce_ok nonce); [|discriminate].
    intros [= <-] [= <-].
    rewrite !length_app, !ref_tag_length.
    replace (length data + 16 - 16) with (length data) by lia.
    replace (length data' + 16 - 16) with (length data') by lia.
    rewrite !firstn_app, !Nat.sub_diag, !firstn_all. simpl firstn.
    now rewrite !app_nil_r.
Qed.

End ReferenceFacts.

(** ** The state token *)

Module StateTokenFacts.
Import PyStr PyStrFacts Security.

Local Open Scope string_scope.

Section WithPrimitives.
Context {P : Primitives} {OK : PrimitivesOk P}.

Lemma sign_is_hex self payload :
  forallb is_hex_char (chars (_sign self payload)) = true.
Proof.
  unfold _sign, prefix. apply forallb_chars_substring, hmac_hexdigest_hex.
Qed.

Lemma sign_no_dot self payload : no_sep dot (_sign self payload) = true.
Proof.
  unfold no_sep. apply (forallb_chars_impl is_hex_char); [|apply sign_is_hex].
  intros c Hc. now rewrite (hex_char_not_dot _ Hc).
Qed.

Lemma sign_is_ascii self payload : is_ascii (_sign self payload) = true.
Proof.
  unfold is_ascii. apply (forallb_chars_impl is_hex_char); [|apply sign_is_hex].
  apply hex_char_ascii.
Qed.

Lemma rstrip_pad_no_sep sep s :
  no_sep sep s = true -> no_sep sep (rstrip_pad s) = true.
Proof.
  induction s as [|c s IH]; [reflexivity|].
  rewrite no_sep_cons, andb_true_iff. intros [Hc Hs]. simpl.
  specialize (IH Hs). destruct (rstrip_pad s) as [|d r].
  - destruct (Ascii.eqb c Base64.pad); [reflexivity|].
    now rewrite no_sep_cons, Hc.
  - now rewrite no_sep_cons, Hc.
Qed.

Lemma token_urlsafe_no_dot tok : no_sep dot (token_urlsafe tok) = true.
Proof. apply rstrip_pad_no_sep, Base64Facts.urlsafe_b64encode_no_dot. Qed.

(** A state that carries the signature of its payload passes the signature
    check; what remains is the shape of the payload and the age of its
    timestamp. *)
Lemma validate_state_signed self now payload :
  validate_state self now (payload ++ "." ++ _sign self payload)
  = match split dot payload with
    | [_; user_id; timestamp_str] =>
        match py_int timestamp_str with
        | inr timestamp =>
            if (now - timestamp >? ttl_seconds self)%Z then inr None
            else inr (Some user_id)
        | inl _ => inr None
        end
    | _ => inr None
    end.
Proof.
  unfold validate_state, validate_state_body, rsplit1.
  change (payload ++ "." ++ _sign self payload)
    with (payload ++ String dot (_sign self payload)).
  rewrite (rsplit_last_app dot payload _ (sign_no_dot self payload)).
  unfold compare_digest. rewrite sign_is_ascii, String.eqb_refl. simpl.
  destruct (split dot payload) as [|a [|b [|c [|d l]]]]; try reflexivity.
  destruct (py_int c) as [e|t]; simpl; [reflexivity|].
  destruct (now - t >? ttl_seconds self)%Z; reflexivity.
Qed.

Lemma generate_state_eq self tok now user_id :
  generate_state self tok now user_id
  = let payload := token_urlsafe tok ++ "." ++ user_id ++ "." ++ py_str now in
    payload ++ "." ++ _sign self payload.
Proof. reflexivity. Qed.

Lemma split_payload tok now user_id :
  split dot (token_urlsafe tok ++ "." ++ user_id ++ "." ++ py_str now)
  = (token_urlsafe tok :: split dot user_id ++ [py_str now])%list.
Proof.
  change (token_urlsafe tok ++ "." ++ user_id ++ "." ++ py_str now)
    with (token_urlsafe tok ++ String dot (user_id ++ String dot (py_str now))).
  rewrite !split_app.
  rewrite (split_no_sep _ _ (token_urlsafe_no_dot tok)).
  now rewrite (split_no_sep _ _ (py_str_no_dot now)).
Qed.

(** A user id that contains the separator yields a state that is rejected
    by the shape check, whatever the clock. *)
Lemma validate_state_dotted_user self tok now now' user_id :
  no_sep dot user_id = false ->
  validate_state self now' (generate_state self tok now user_id) = inr None.
Proof.
  intros Hu. rewrite generate_state_eq. cbv zeta.
  rewrite validate_state_signed, split_payload.
  pose proof (split_not_nil dot user_id) as NN.
  destruct (split dot user_id) as [|a [|b l]] eqn:E; [contradiction| |].
  - destruct (split_singleton _ _ _ E) as [_ Hs]. congruence.
  - simpl. destruct l; reflexivity.
Qed.

(** C3, amended: for every user id that does not contain the separator
    ["."], verifying a freshly issued state token returns that user id,
    provided no more than [ttl_seconds] have elapsed since it was issued. *)
Theorem validate_state_generate_state self tok now now' user_id :
  no_sep dot user_id = true ->
  (now' - now <= ttl_seconds self)%Z ->
  validate_state self now' (generate_state self tok now user_id)
  = inr (Some user_id).
Proof.
  intros Hu Hage. rewrite generate_state_eq. cbv zeta.
  rewrite validate_state_signed, split_payload, (split_no_sep _ _ Hu).
  simpl. rewrite py_int_py_str.
  destruct (Z.gtb_spec (now' - now) (ttl_seconds self)); [lia | reflexivity].
Qed.

(** C6: a state whose signature part differs from the keyed hash of its
    payload is rejected, and an issued state is rejected once more than
    [ttl_seconds] (600 by default) have elapsed since the timestamp it
    carries, although its signature is valid. *)
Theorem validate_state_rejects_tampered_and_expired self tok now user_id :
  let payload := token_urlsafe tok ++ "." ++ user_id ++ "." ++ py_str now in
  generate_state self tok now user_id = payload ++ "." ++ _sign self payload /\
  (forall now' signature',
      no_sep dot signature' = true ->
      signature' <> _sign self payload ->
      validate_state self now' (payload ++ "." ++ signature') = inr None) /\
  (forall now',
      (now' - now > ttl_seconds self)%Z ->
      validate_state self now' (generate_state self tok now user_id) = inr None) /\
  (forall secret,
      ttl_seconds (OAuthStateManager_init secret default_ttl_seconds) = 600%Z).
Proof.
  intros payload. split; [reflexivity|]. split; [|split; [|reflexivity]].
  - intros now' sig' Hdot Hneq.
    unfold validate_state, validate_state_body, rsplit1.
    change (payload ++ "." ++ sig') with (payload ++ String dot sig').
    rewrite (rsplit_last_app dot payload _ Hdot).
    unfold compare_digest.
    destruct (is_ascii sig' && is_ascii (_sign self payload)); [|reflexivity].
    simpl. apply String.eqb_neq in Hneq. now rewrite Hneq.
  - intros now' Hage. rewrite generate_state_eq. cbv zeta.
    rewrite validate_state_signed, split_payload.
    pose proof (split_not_nil dot user_id) as NN.
    destruct (split dot user_id) as [|a [|b l]]; [contradiction| |].
    + simpl. rewrite py_int_py_str.
      destruct (Z.gtb_spec (now' - now) (ttl_seconds self)); [reflexivity | lia].
    + simpl. destruct l; reflexivity.
Qed.

End WithPrimitives.

Section Totality.
Context {P : Primitives}.

(** C9: verification is total: on every string it returns a user id or
    [None] and never raises; a state that does not consist of exactly three
    dot-separated payload parts followed by a signature part is rejected. *)
Theorem validate_state_total self now state :
  (exists r, validate_state self now state = inr r) /\
  (length (split dot state) <> 4 -> validate_state self now state = inr None).
Proof.
  split.
  - unfold validate_state.
    destruct (validate_state_body self now state) as [e|r]; simpl; eauto.
  - intros Hlen. unfold validate_state, validate_state_body, rsplit1.
    destruct (rsplit_last dot state) as [[payload signature]|] eqn:E;
      [|reflexivity].
    rewrite (split_length_rsplit _ _ _ _ E) in Hlen.
    destruct (compare_digest signature (_sign self payload)) as [e|[|]];
      try reflexivity.
    simpl.
    destruct (split dot payload) as [|a [|b [|c [|d l]]]]; try reflexivity.
    simpl in Hlen. congruence.
Qed.

End Totality.
End StateTokenFacts.

Module StateTokenWitnesses.
Import PyStr Security Reference ReferenceFacts Samples StateTokenFacts.

Local Open Scope string_scope.

(** C3, as stated for every user id, fails: a user id with a dot gives the
    payload a fourth part. *)
Lemma dotted_user_id_not_recovered :
  validate_state state_manager issued_at
    (generate_state state_manager token_bytes issued_at "team.alice")
  = inr None
  /\ validate_state state_manager issued_at
       (generate_state state_manager token_bytes issued_at "team.alice")
     <> inr (Some "team.alice").
Proof. split; [vm_compute; reflexivity | vm_compute; discriminate]. Qed.

Lemma validate_state_generate_state_witness :
  no_sep dot "user-123" = true /\
  (issued_at + 30 - issued_at <= ttl_seconds state_manager)%Z /\
  validate_state state_manager (issued_at + 30)
    (generate_state state_manager token_bytes issued_at "user-123")
  = inr (Some "user-123").
Proof.
  split; [vm_compute; reflexivity|]. split; [vm_compute; discriminate|].
  apply (validate_state_generate_state state_manager token_bytes issued_at
           (issued_at + 30) "user-123");
    [vm_compute; reflexivity | vm_compute; discriminate].
Defined.

Lemma validate_state_rejects_tampered_and_expired_witness :
  let payload := token_urlsafe token_bytes ++ ".user-123." ++ py_str issued_at in
  no_sep dot "00000000000000000000000000000000" = true /\
  "00000000000000000000000000000000" <> _sign state_manager payload /\
  validate_state state_manager issued_at
    (payload ++ "." ++ "00000000000000000000000000000000") = inr None /\
  (issued_at + 601 - issued_at > ttl_seconds state_manager)%Z /\
  validate_state state_manager (issued_at + 601)
    (generate_state state_manager token_bytes issued_at "user-123") = inr None.
Proof.
  pose proof (validate_state_rejects_tampered_and_expired
                state_manager token_bytes issued_at "user-123") as H.
  cbv zeta in H. destruct H as (_ & Htamper & Hexpired & _).
  assert (Hd : no_sep dot "00000000000000000000000000000000" = true)
    by (vm_compute; reflexivity).
  assert (Hn : "00000000000000000000000000000000"
               <> _sign state_manager
                    (token_urlsafe token_bytes ++ ".user-123." ++ py_str issued_at))
    by (vm_compute; discriminate).
  assert (Ha : (issued_at + 601 - issued_at > ttl_seconds state_manager)%Z)
    by (vm_compute; reflexivity).
  cbv zeta. split; [exact Hd|]. split; [exact Hn|].
  split; [exact (Htamper issued_at _ Hd Hn)|].
  split; [exact Ha | exact (Hexpired (issued_at + 601)%Z Ha)].
Defined.

(** The age of a state is compared with [>]: a state is still accepted
    exactly [ttl_seconds] after it was issued. *)
Example state_accepted_at_ttl :
  validate_state state_manager (issued_at + 600)
    (generate_state state_manager token_bytes issued_at "user-123")
  = inr (Some "user-123").
Proof. vm_compute. reflexivity. Qed.

Lemma validate_state_total_witness :
  length (split dot "invalid-state") <> 4 /\
  validate_state state_manager issued_at "invalid-state" = inr None.
Proof.
  assert (H : length (split dot "invalid-state") <> 4) by (vm_compute; discriminate).
  split; [exact H|].
  exact (proj2 (validate_state_total state_manager issued_at "invalid-state") H).
Defined.

End StateTokenWitnesses.

(** ** The credential vault *)

Module VaultFacts.
Import Security.

Section WithPrimitives.
Context {P : Primitives}.

(** What a successful [encrypt] returns. *)
Lemma encrypt_with_inr self nonce plaintext c n kid :
  encrypt_with self nonce plaintext = inr (c, n, kid) ->
  exists ct,
    aesgcm_encrypt (aesgcm self) nonce (Utf8.encode plaintext) = inr ct /\
    c = Base64.b64encode ct /\ n = Base64.b64encode nonce /\ kid = key_id self.
Proof.
  unfold encrypt_with, try_except, bind.
  destruct (aesgcm_encrypt _ _ _) as [e|ct]; [discriminate|].
  intros [= <- <- <-]. now exists ct.
Qed.

Lemma encrypt_fst self plaintext r :
  fst (encrypt self plaintext r)
  = encrypt_with self (fst (os_urandom 12 r)) plaintext.
Proof. reflexivity. Qed.

(** Every call draws twelve fresh bytes of entropy. *)
Lemma encrypt_draws_nonce self plaintext r :
  length (fst (os_urandom 12 r)) = 12 /\
  drawn (snd (encrypt self plaintext r)) = drawn r + 12.
Proof.
  split; [|reflexivity]. unfold os_urandom. cbn [fst].
  now rewrite length_map, length_seq.
Qed.

Lemma utf8_decode_encode plaintext :
  Utf8.is_str plaintext = true ->
  Utf8.decode (Utf8.encode plaintext) = inr plaintext.
Proof.
  unfold Utf8.is_str, Utf8.decode. intros ->. unfold Utf8.encode, ret.
  now rewrite string_of_list_byte_of_string.
Qed.

(** [decrypt] is the composition of its four steps; every exception of a
    step becomes a [TokenEncryptionError]. *)
Lemma decrypt_inr self c n plaintext :
  decrypt self c n = inr plaintext <->
  exists cb nb pb,
    Base64.b64decode c = inr cb /\ Base64.b64decode n = inr nb /\
    aesgcm_decrypt (aesgcm self) nb cb = inr pb /\
    Utf8.decode pb = inr plaintext.
Proof.
  unfold decrypt, try_except, bind.
  destruct (Base64.b64decode c) as [e|cb].
  { split; [discriminate | intros (? & ? & ? & [=] & _)]. }
  destruct (Base64.b64decode n) as [e|nb].
  { split; [discriminate | intros (? & ? & ? & _ & [=] & _)]. }
  destruct (aesgcm_decrypt (aesgcm self) nb cb) as [e|pb] eqn:E.
  { split; [discriminate|].
    intros (? & ? & ? & [= <-] & [= <-] & H & _). congruence. }
  destruct (Utf8.decode pb) as [e|s] eqn:D.
  { split; [discriminate|].
    intros (? & ? & ? & [= <-] & [= <-] & H & H'). congruence. }
  split.
  - intros [= <-]. now exists cb, nb, pb.
  - intros (? & ? & ? & [= <-] & [= <-] & H & H'). congruence.
Qed.

Lemma decrypt_inl self c n e :
  decrypt self c n = inl e ->
  exists reason, e = TokenEncryptionError "decryption" reason.
Proof.
  unfold decrypt, try_except.
  destruct (bind _ _) as [e'|s]; [|discriminate].
  intros [= <-]. now eexists.
Qed.

(** Two texts with the same decoding are decrypted alike. *)
Lemma decrypt_same_decoding self c c' n n' :
  Base64.b64decode c' = Base64.b64decode c ->
  Base64.b64decode n' = Base64.b64decode n ->
  decrypt self c' n' = decrypt self c n.
Proof. unfold decrypt. now intros -> ->. Qed.

Lemma utf8_decode_inr pb s : Utf8.decode pb = inr s -> pb = Utf8.encode s.
Proof.
  unfold Utf8.decode, Utf8.encode. destruct (Utf8.valid pb); [|discriminate].
  intros [= <-]. now rewrite list_byte_of_string_of_list_byte.
Qed.

Context {OK : PrimitivesOk P}.

(** Decryption inverts the encryption under any nonce. *)
Lemma decrypt_encrypt_with self nonce plaintext c n kid :
  Utf8.is_str plaintext = true ->
  encrypt_with self nonce plaintext = inr (c, n, kid) ->
  decrypt self c n = inr plaintext.
Proof.
  intros Hstr Henc.
  destruct (encrypt_with_inr _ _ _ _ _ _ Henc) as (ct & Hct & -> & -> & _).
  apply decrypt_inr.
  exists ct, nonce, (Utf8.encode plaintext).
  rewrite !Base64Facts.b64decode_b64encode.
  repeat split; [now apply aesgcm_round_trip | now apply utf8_decode_encode].
Qed.

(** C4: for every key and every plaintext (a [str], represented by
    well-formed UTF-8), decrypting the ciphertext and nonce returned by
    [encrypt] returns the plaintext. *)
Theorem decrypt_encrypt self plaintext r c n kid :
  Utf8.is_str plaintext = true ->
  fst (encrypt self plaintext r) = inr (c, n, kid) ->
  decrypt self c n = inr plaintext.
Proof.
  intros Hstr Henc. rewrite encrypt_fst in Henc.
  revert Henc. generalize (fst (os_urandom 12 r)). intros nonce Henc.
  exact (decrypt_encrypt_with self nonce plaintext c n kid Hstr Henc).
Qed.

Context {AU : PrimitivesAuthentic P}.

(** What [decrypt] accepts under any key: up to the bits that Base64
    decoding drops, a pair that [encrypt] returns for the plaintext under
    that key. *)
Lemma decrypt_accepts_encryptions self c' n' p' :
  decrypt self c' n' = inr p' ->
  Utf8.is_str p' = true /\
  exists nonce c0 n0,
    encrypt_with self nonce p' = inr (c0, n0, key_id self) /\
    Base64.b64decode c' = Base64.b64decode c0 /\
    Base64.b64decode n' = Base64.b64decode n0.
Proof.
  intros D. apply decrypt_inr in D.
  destruct D as (cb & nb & pb & Hc & Hn & Ha & Hd).
  pose proof (utf8_decode_inr _ _ Hd) as ->.
  split.
  - unfold Utf8.decode in Hd. unfold Utf8.is_str.
    destruct (Utf8.valid (Utf8.encode p')); [reflexivity | discriminate].
  - exists nb, (Base64.b64encode cb), (Base64.b64encode nb).
    rewrite !Base64Facts.b64decode_b64encode. repeat split; try assumption.
    unfold encrypt_with, try_except, bind.
    now rewrite (aesgcm_decrypt_sound _ _ _ _ Ha).
Qed.


End WithPrimitives.
End VaultFacts.

Module VaultWitnesses.
Import Security Reference ReferenceFacts Samples VaultFacts.

Local Open Scope string_scope.

Lemma decrypt_encrypt_witness :
  Utf8.is_str "refresh-token-1" = true /\
  fst (encrypt encryptor "refresh-token-1" sample_entropy)
  = inr ("cmVmcmVzaC10b2tlbi0xI5G2yKDb4OSSUI7tPfCKcg==", "BSpPdJm+4wgtUnec",
         "84e6d8eb") /\
  decrypt encryptor "cmVmcmVzaC10b2tlbi0xI5G2yKDb4OSSUI7tPfCKcg=="
    "BSpPdJm+4wgtUnec" = inr "refresh-token-1".
Proof.
  assert (H1 : Utf8.is_str "refresh-token-1" = true) by (vm_compute; reflexivity).
  assert (H2 : fst (encrypt encryptor "refresh-token-1" sample_entropy)
               = inr ("cmVmcmVzaC10b2tlbi0xI5G2yKDb4OSSUI7tPfCKcg==",
                      "BSpPdJm+4wgtUnec", "84e6d8eb"))
    by (vm_compute; reflexivity).
  split; [exact H1|]. split; [exact H2|].
  exact (decrypt_encrypt encryptor "refresh-token-1" sample_entropy _ _ _ H1 H2).
Defined.



End VaultWitnesses.

(** ** The token repository on a store that answers *)

Module RepositoryFacts.
Import Models World TokenRepository.

Lemma accepts_ok w : faults w = [] -> accepts w = true.
Proof. unfold accepts. now intros ->. Qed.

Lemma sent_ok ev w : faults w = [] -> sent ev w = add_event ev w.
Proof. unfold sent, add_event. now intros ->. Qed.

Lemma accepts_add_event ev w : accepts (add_event ev w) = accepts w.
Proof. reflexivity. Qed.

(** What the repository methods do, whether the store answers or not. *)
Lemma get_by_user_id_run uid w :
  get_by_user_id uid w
  = (inr (if accepts w then found (active_of_user uid (tokens w)) else None),
     sent DbSelect w).
Proof.
  unfold get_by_user_id, mtry, mbind, execute.
  destruct (accepts w); [|reflexivity]. simpl.
  destruct (active_of_user uid (tokens w)) as [|r [|r' l]]; reflexivity.
Qed.

Lemma get_by_google_account_run account w :
  get_by_google_account account w
  = (inr (if accepts w then found (active_of_account account (tokens w)) else None),
     sent DbSelect w).
Proof.
  unfold get_by_google_account, mtry, mbind, execute.
  destruct (accepts w); [|reflexivity]. simpl.
  destruct (active_of_account account (tokens w)) as [|r [|r' l]]; reflexivity.
Qed.

Lemma set_error_run uid error w :
  set_error uid error w
  = (inr (accepts w), written uid (with_error error (clock w)) w).
Proof.
  unfold set_error, update_rows, mtry, mbind, now, execute, written.
  now destruct (accepts w).
Qed.

Lemma update_expiry_run uid expires w :
  update_expiry uid expires w
  = (inr (accepts w), written uid (with_expiry expires (clock w)) w).
Proof.
  unfold update_expiry, update_rows, mtry, mbind, now, execute, written.
  now destruct (accepts w).
Qed.

Lemma mark_revoked_run uid w :
  mark_revoked uid w = (inr (accepts w), written uid (with_revoked (clock w)) w).
Proof.
  unfold mark_revoked, update_rows, mtry, mbind, now, execute, written.
  now destruct (accepts w).
Qed.

Lemma written_ok uid payload w :
  faults w = [] ->
  written uid payload w
  = with_rows (updated uid payload (tokens w)) (add_event (DbUpdate uid) w).
Proof.
  intros H. unfold written. now rewrite (accepts_ok _ H), (sent_ok _ _ H).
Qed.

(** On a store that answers. *)
Lemma get_by_user_id_ok uid w :
  faults w = [] ->
  get_by_user_id uid w
  = (inr (found (active_of_user uid (tokens w))), add_event DbSelect w).
Proof.
  intros H. now rewrite get_by_user_id_run, (accepts_ok _ H), (sent_ok _ _ H).
Qed.

Lemma get_by_google_account_ok account w :
  faults w = [] ->
  get_by_google_account account w
  = (inr (found (active_of_account account (tokens w))), add_event DbSelect w).
Proof.
  intros H.
  now rewrite get_by_google_account_run, (accepts_ok _ H), (sent_ok _ _ H).
Qed.

Lemma set_error_ok uid error w :
  faults w = [] ->
  set_error uid error w
  = (inr true,
     with_rows (updated uid (with_error error (clock w)) (tokens w))
       (add_event (DbUpdate uid) w)).
Proof.
  intros H. now rewrite set_error_run, (accepts_ok _ H), (written_ok _ _ _ H).
Qed.

Lemma update_expiry_ok uid expires w :
  faults w = [] ->
  update_expiry uid expires w
  = (inr true,
     with_rows (updated uid (with_expiry expires (clock w)) (tokens w))
       (add_event (DbUpdate uid) w)).
Proof.
  intros H. now rewrite update_expiry_run, (accepts_ok _ H), (written_ok _ _ _ H).
Qed.

Lemma mark_revoked_ok uid w :
  faults w = [] ->
  mark_revoked uid w
  = (inr true,
     with_rows (updated uid (with_revoked (clock w)) (tokens w))
       (add_event (DbUpdate uid) w)).
Proof.
  intros H. now rewrite mark_revoked_run, (accepts_ok _ H), (written_ok _ _ _ H).
Qed.

(** A record that a request for a single row returns is in the table. *)
Lemma found_in l t : found l = Some t -> l = [t].
Proof. destruct l as [|r [|r' l']]; simpl; congruence. Qed.

(** An update that keeps user, activity and secret of a row keeps the
    active records of every user, up to the update. *)
Lemma active_of_user_updated uid uid' payload table :
  (forall t, user_id (payload t) = user_id t) ->
  (forall t, is_active (payload t) = is_active t) ->
  active_of_user uid' (updated uid payload table)
  = updated uid payload (active_of_user uid' table).
Proof.
  intros Hu Ha. unfold active_of_user, updated.
  induction table as [|t l IH]; simpl; [reflexivity|].
  assert (E : for_user uid' (if for_user uid t then payload t else t)
              && is_active (if for_user uid t then payload t else t)
              = for_user uid' t && is_active t).
  { destruct (for_user uid t); [|reflexivity].
    unfold for_user. now rewrite Hu, Ha. }
  rewrite E. destruct (for_user uid' t && is_active t); simpl; now rewrite IH.
Qed.

Lemma in_updated uid payload table t :
  In t table -> for_user uid t = true -> In (payload t) (updated uid payload table).
Proof.
  intros Hin Hu. unfold updated.
  apply in_map_iff. exists t. now rewrite Hu.
Qed.

Lemma active_of_user_in uid table t :
  In t (active_of_user uid table) ->
  In t table /\ for_user uid t = true /\ is_active t = true.
Proof.
  unfold active_of_user. rewrite filter_In, andb_true_iff. tauto.
Qed.

Lemma tokens_written uid payload w :
  tokens (written uid payload w)
  = if accepts w then updated uid payload (tokens w) else tokens w.
Proof. unfold written. now destruct (accepts w). Qed.

(** A row of an updated table is an updated row of the user, or a row of
    someone else. *)
Lemma in_updated_inv uid payload table t :
  In t (updated uid payload table) ->
  (exists t0, In t0 table /\ for_user uid t0 = true /\ t = payload t0) \/
  (In t table /\ for_user uid t = false).
Proof.
  unfold updated. rewrite in_map_iff. intros (t0 & <- & Hin).
  destruct (for_user uid t0) eqn:E; [left; now exists t0 | now right].
Qed.

Lemma updated_singleton uid payload tok :
  for_user uid tok = true -> updated uid payload [tok] = [payload tok].
Proof. intros H. unfold updated. cbn [map]. now rewrite H. Qed.

End RepositoryFacts.

(** ** The credential lifecycle *)

Module LifecycleFacts.
Import Models World TokenRepository Provider Security Services RepositoryFacts.

Local Open Scope string_scope.

Lemma refresh_calls_add_event ev w :
  refresh_calls (add_event ev w)
  = refresh_calls w + (if is_refresh_call ev then 1 else 0).
Proof.
  unfold refresh_calls, add_event. simpl.
  rewrite filter_app, length_app. simpl. now destruct (is_refresh_call ev).
Qed.

Lemma refresh_calls_with_rows l w : refresh_calls (with_rows l w) = refresh_calls w.
Proof. reflexivity. Qed.

Section WithDependencies.
Context {P : Primitives}.
Variable G : Google.
Variable encryptor : TokenEncryptor.
Variable state_manager : OAuthStateManager.

Lemma get_by_user_id_some uid w tok :
  fst (get_by_user_id uid w) = inr (Some tok) ->
  accepts w = true /\ active_of_user uid (tokens w) = [tok].
Proof.
  rewrite get_by_user_id_run. cbn [fst].
  destruct (accepts w); [|discriminate].
  intros [= H]. split; [reflexivity | now apply found_in].
Qed.

Lemma refresh_calls_sent ev w :
  refresh_calls (sent ev w)
  = refresh_calls w + (if is_refresh_call ev then 1 else 0).
Proof.
  unfold refresh_calls, sent. simpl.
  rewrite filter_app, length_app. simpl. now destruct (is_refresh_call ev).
Qed.

Lemma refresh_calls_written uid payload w :
  refresh_calls (written uid payload w) = refresh_calls w.
Proof.
  unfold written. destruct (accepts w);
    rewrite ?refresh_calls_with_rows, refresh_calls_sent; simpl; lia.
Qed.

(** The run of [_get_calendar_client] when the refresh call fails. *)
Lemma get_calendar_client_refresh_failed uid w tok rt e :
  fst (get_by_user_id uid w) = inr (Some tok) ->
  decrypt encryptor (encrypted_refresh_token tok) (encryption_nonce tok) = inr rt ->
  refresh G rt = inl e ->
  _get_calendar_client G encryptor uid w
  = (inl (refresh_failed uid),
     written uid (with_error (exc_str e) (clock w))
       (add_event (RefreshCall rt) (sent DbSelect w))).
Proof.
  intros Hread Hdec Href.
  destruct (get_by_user_id_some _ _ _ Hread) as [Hacc Htok].
  unfold _get_calendar_client, mbind.
  rewrite get_by_user_id_run, Hacc, Htok. cbn [found lift].
  rewrite Hdec. unfold mtry, credentials_refresh, mbind, log, lift.
  rewrite Href. cbn beta iota. rewrite set_error_run. reflexivity.
Qed.

(** C5, amended: for a user whose active credential record has been read
    and whose secret decrypts, when the refresh call fails (for any reason,
    a timeout included) [_get_calendar_client] raises [TokenExpiredError]
    after that one refresh call and does not return a client.  When the
    store answers the update that follows, the reason is written into
    [last_error] of every record of the user, which stays the user's active
    record; when the store fails on that update, [set_error] returns
    [False], the service goes on, and the table is left as it was. *)
Theorem refresh_failure_recorded uid w tok rt e :
  fst (get_by_user_id uid w) = inr (Some tok) ->
  decrypt encryptor (encrypted_refresh_token tok) (encryption_nonce tok) = inr rt ->
  refresh G rt = inl e ->
  let out := _get_calendar_client G encryptor uid w in
  fst out = inl (TokenExpiredError uid "Failed to refresh access token") /\
  refresh_calls (snd out) = S (refresh_calls w) /\
  (accepts (sent DbSelect w) = true ->
   tokens (snd out) = updated uid (with_error (exc_str e) (clock w)) (tokens w) /\
   active_of_user uid (tokens (snd out))
   = [with_error (exc_str e) (clock w) tok] /\
   (forall t, In t (tokens (snd out)) -> user_id t = uid ->
              last_error t = Some (exc_str e))) /\
  (accepts (sent DbSelect w) = false -> tokens (snd out) = tokens w).
Proof.
  intros Hread Hdec Href out. subst out.
  rewrite (get_calendar_client_refresh_failed uid w tok rt e Hread Hdec Href).
  destruct (get_by_user_id_some _ _ _ Hread) as [Hacc Htok].
  cbn [fst snd]. split; [reflexivity|]. split; [|split].
  - rewrite refresh_calls_written, refresh_calls_add_event, refresh_calls_sent.
    simpl. lia.
  - intros Hw. rewrite tokens_written, accepts_add_event, Hw.
    cbn [tokens add_event sent]. split; [reflexivity|]. split.
    + rewrite active_of_user_updated by reflexivity. rewrite Htok.
      apply updated_singleton, (active_of_user_in uid (tokens w)).
      rewrite Htok. now left.
    + intros t Hin Hu. apply in_updated_inv in Hin.
      destruct Hin as [(t0 & _ & _ & ->)|[_ Hother]]; [reflexivity|].
      unfold for_user in Hother. apply String.eqb_neq in Hother. contradiction.
  - intros Hw. rewrite tokens_written, accepts_add_event, Hw. reflexivity.
Qed.

(** The best-effort notification of the provider in [revoke_connection]
    never raises and leaves the store, the clock and the entropy alone. *)
Lemma best_effort_revoke tok w :
  exists w',
    mtry (mbind (lift (decrypt encryptor (encrypted_refresh_token tok)
                         (encryption_nonce tok)))
            (fun rt => mbind (revoke_token G rt) (fun _ => mret tt)))
         (fun _ => mret tt) w = (inr tt, w') /\
    tokens w' = tokens w /\ faults w' = faults w /\
    clock w' = clock w /\ rng w' = rng w.
Proof.
  unfold mtry, mbind, lift.
  destruct (decrypt encryptor _ _) as [e|rt].
  - exists w. now repeat split.
  - unfold revoke_token, mtry, mbind, log, lift.
    destruct (revoke_post G rt) as [e|status];
      exists (add_event (RevokeCall rt) w); now repeat split.
Qed.

Lemma no_active_after_revocation uid now table :
  active_of_user uid (updated uid (with_revoked now) table) = [].
Proof.
  unfold active_of_user, updated.
  induction table as [|t l IH]; simpl; [reflexivity|].
  destruct (for_user uid t) eqn:E.
  - simpl. unfold for_user in *. simpl. now rewrite andb_false_r.
  - now rewrite E.
Qed.

Lemma revoke_connection_run uid w tok :
  fst (get_by_user_id uid w) = inr (Some tok) ->
  exists w',
    revoke_connection G encryptor uid w
    = (inr (mkRevokeResponse true "Google Calendar disconnected successfully"),
       written uid (with_revoked (clock w)) w') /\
    tokens w' = tokens w /\ faults w' = tl (faults w).
Proof.
  intros Hread. destruct (get_by_user_id_some _ _ _ Hread) as [Hacc Htok].
  unfold revoke_connection. unfold mbind at 1.
  rewrite get_by_user_id_run, Hacc, Htok. cbn [found].
  unfold mbind at 1.
  destruct (best_effort_revoke tok (sent DbSelect w))
    as (w' & -> & Ht & Hf & Hc & _).
  unfold mbind. rewrite mark_revoked_run.
  exists w'. rewrite Hc. now repeat split.
Qed.

(** C8, amended: for a user whose active credential record the lookup
    has returned, [revoke_connection] reports success whatever the
    decryption of the secret and the call to the provider do, and never
    removes a record or touches an encrypted secret.  When the store
    answers the update, every record of the user is marked inactive with
    [revoked_at] set, and the user has no active record any more; when the
    store fails on that update, [mark_revoked] returns [False], the
    service goes on, success is reported all the same and the table is
    left as it was. *)
Theorem revoke_recorded_locally uid w tok :
  fst (get_by_user_id uid w) = inr (Some tok) ->
  let out := revoke_connection G encryptor uid w in
  fst out = inr (mkRevokeResponse true "Google Calendar disconnected successfully") /\
  length (tokens (snd out)) = length (tokens w) /\
  map encrypted_refresh_token (tokens (snd out))
  = map encrypted_refresh_token (tokens w) /\
  map encryption_nonce (tokens (snd out)) = map encryption_nonce (tokens w) /\
  map encryption_key_id (tokens (snd out)) = map encryption_key_id (tokens w) /\
  (accepts (sent DbSelect w) = true ->
   tokens (snd out) = updated uid (with_revoked (clock w)) (tokens w) /\
   In (with_revoked (clock w) tok) (tokens (snd out)) /\
   active_of_user uid (tokens (snd out)) = [] /\
   (forall t, In t (tokens (snd out)) -> user_id t = uid ->
              is_active t = false /\ revoked_at t = Some (clock w))) /\
  (accepts (sent DbSelect w) = false -> tokens (snd out) = tokens w).
Proof.
  intros Hread out.
  destruct (revoke_connection_run uid w tok Hread) as (w' & E & Ht & Hf).
  destruct (get_by_user_id_some _ _ _ Hread) as [Hacc Htok].
  fold out in E. rewrite E. cbn [fst snd].
  assert (Ha : accepts w' = accepts (sent DbSelect w)).
  { unfold accepts. now rewrite Hf. }
  rewrite tokens_written, Ha, Ht.
  split; [reflexivity|].
  assert (Hmaps :
    length (updated uid (with_revoked (clock w)) (tokens w)) = length (tokens w) /\
    map encrypted_refresh_token (updated uid (with_revoked (clock w)) (tokens w))
    = map encrypted_refresh_token (tokens w) /\
    map encryption_nonce (updated uid (with_revoked (clock w)) (tokens w))
    = map encryption_nonce (tokens w) /\
    map encryption_key_id (updated uid (with_revoked (clock w)) (tokens w))
    = map encryption_key_id (tokens w)).
  { unfold updated. rewrite length_map, !map_map.
    repeat split; apply map_ext; intros t; now destruct (for_user uid t). }
  destruct Hmaps as (M1 & M2 & M3 & M4).
  destruct (accepts (sent DbSelect w)).
  - split; [exact M1|]. split; [exact M2|]. split; [exact M3|].
    split; [exact M4|]. split; [|discriminate].
    intros _.
    assert (Hin : In tok (tokens w) /\ for_user uid tok = true
                  /\ is_active tok = true)
      by (apply (active_of_user_in uid); rewrite Htok; now left).
    split; [reflexivity|]. split; [apply in_updated; tauto|].
    split; [apply no_active_after_revocation|].
    intros t Hint Hu. apply in_updated_inv in Hint.
    destruct Hint as [(t0 & _ & _ & ->)|[_ Hother]]; [now split|].
    unfold for_user in Hother. apply String.eqb_neq in Hother. contradiction.
  - do 4 (split; [reflexivity|]). split; [discriminate | reflexivity].
Qed.

(** C2, amended: for a callback with a valid state whose code exchange
    and user-info query succeed, when the lookup of the provider account
    returns an active record of another user (the store answers the lookup
    and that record is the account's only active one), [handle_callback]
    raises [OAuthStateError] with the message "This Google account is
    already connected to another user"; the table is unchanged, no entropy
    is drawn (nothing is encrypted), and the only effects are the code
    exchange, the user-info query and the lookup of the account. *)
Theorem callback_conflict_rejected code state w uid oauth info existing :
  validate_state state_manager (clock w) state = inr (Some uid) ->
  uid <> "" ->
  fetch_token G code = inr oauth ->
  userinfo G (access_token oauth) = inr info ->
  fst (get_by_google_account (account_id info) w) = inr (Some existing) ->
  user_id existing <> uid ->
  let out := handle_callback G encryptor state_manager code state w in
  fst out = inl (OAuthStateError
                   "This Google account is already connected to another user") /\
  tokens (snd out) = tokens w /\
  rng (snd out) = rng w /\
  trace (snd out)
  = (trace w ++ [ExchangeCode code; GetUserInfo (access_token oauth); DbSelect])%list.
Proof.
  intros Hval Hne Hfetch Hinfo Hacc Hother out. subst out.
  rewrite get_by_google_account_run in Hacc. cbn [fst] in Hacc.
  unfold handle_callback, mbind, now, lift. rewrite Hval.
  destruct uid as [|c u]; [contradiction|].
  unfold exchange_code, get_user_info, mbind, log, lift.
  rewrite Hfetch, Hinfo, get_by_google_account_run.
  rewrite !accepts_add_event. cbn [tokens add_event].
  injection Hacc as ->.
  apply String.eqb_neq in Hother. rewrite Hother. cbn [negb].
  cbn [fst snd mraise tokens rng trace add_event sent].
  repeat split. now rewrite <- !app_assoc.
Qed.

(** *** Requests in flight *)

Lemma set_error_inr uid reason w :
  exists b w', set_error uid reason w = (inr b, w').
Proof.
  unfold set_error, mtry, mret.
  destruct (mbind _ _ w) as [[e|b] w']; do 2 eexists; reflexivity.
Qed.

Lemma update_expiry_inr uid expires w :
  exists b w', update_expiry uid expires w = (inr b, w').
Proof.
  unfold update_expiry, mtry, mret.
  destruct (mbind _ _ w) as [[e|b] w']; do 2 eexists; reflexivity.
Qed.

(** The three steps of a request compose to [_get_calendar_client]. *)
Lemma run_request_is_get_calendar_client uid w :
  run_request G encryptor uid w
  = (Finished (fst (_get_calendar_client G encryptor uid w)),
     snd (_get_calendar_client G encryptor uid w)).
Proof.
  unfold run_request, _get_calendar_client, mbind, mtry, lift.
  cbn [client_step].
  destruct (get_by_user_id uid w) as [[e|[tok|]] w1]; cbn [client_step];
    try reflexivity.
  destruct (decrypt encryptor _ _) as [e|rt]; cbn [client_step]; try reflexivity.
  destruct (credentials_refresh G rt w1) as [[e|cred] w2]; cbn [client_step].
  - destruct (set_error_inr uid (exc_str e) w2) as (b & w3 & ->). reflexivity.
  - destruct (expiry cred) as [expires|]; cbn [client_step]; [|reflexivity].
    destruct (update_expiry_inr uid expires w2) as (b & w3 & ->). reflexivity.
Qed.

Lemma same_secret_payload payload t tok :
  encrypted_refresh_token (payload t) = encrypted_refresh_token t ->
  encryption_nonce (payload t) = encryption_nonce t ->
  same_secret t tok -> same_secret (payload t) tok.
Proof. unfold same_secret. intros -> ->. tauto. Qed.

Lemma store_ok_updated uid tok payload w :
  (forall t, user_id (payload t) = user_id t) ->
  (forall t, is_active (payload t) = is_active t) ->
  (forall t, encrypted_refresh_token (payload t) = encrypted_refresh_token t) ->
  (forall t, encryption_nonce (payload t) = encryption_nonce t) ->
  store_ok uid tok w ->
  store_ok uid tok
    (with_rows (updated uid payload (tokens w)) (add_event (DbUpdate uid) w)).
Proof.
  intros Hu Ha Hs Hn [Hf (t & Ht & Hsec)]. split; [exact Hf|].
  cbn [tokens with_rows].
  rewrite (active_of_user_updated uid uid payload _ Hu Ha), Ht.
  assert (for_user uid t = true) as Hfor.
  { apply (active_of_user_in uid (tokens w)). rewrite Ht. now left. }
  unfold updated. simpl. rewrite Hfor.
  exists (payload t). split; [reflexivity|].
  now apply same_secret_payload.
Qed.

(** One step of a request that is not finished: the store stays in order,
    the request stays in order, and the refresh calls grow by one exactly
    when the request passes its refresh. *)
Lemma client_step_invariant uid tok rt ph w ph' w' :
  decrypt encryptor (encrypted_refresh_token tok) (encryption_nonce tok) = inr rt ->
  store_ok uid tok w ->
  phase_ok tok ph ->
  is_finished ph = false ->
  client_step G encryptor uid ph w = (ph', w') ->
  store_ok uid tok w' /\ phase_ok tok ph' /\
  refresh_calls w' + counted ph = refresh_calls w + counted ph'.
Proof.
  intros Hdec Hstore Hph Hnf Hstep.
  pose proof Hstore as [Hf (t & Ht & Hsec)].
  destruct ph as [|[t0|]|reason|rt0 cred expires|r]; cbn [client_step] in Hstep.
  - rewrite (get_by_user_id_ok _ _ Hf), Ht in Hstep. cbn [found] in Hstep.
    injection Hstep as <- <-.
    split; [|split; [exact Hsec|]].
    + split; [exact Hf | now exists t].
    + now rewrite refresh_calls_add_event.
  - destruct Hph as [E1 E2]. rewrite E1, E2, Hdec in Hstep.
    unfold credentials_refresh, mbind, log, lift in Hstep.
    assert (Hstore' : store_ok uid tok (add_event (RefreshCall rt) w))
      by (split; [exact Hf | now exists t]).
    assert (Hcalls : refresh_calls (add_event (RefreshCall rt) w) + 0
                     = refresh_calls w + 1)
      by (rewrite refresh_calls_add_event; simpl; lia).
    destruct (refresh G rt) as [e|cred].
    + injection Hstep as <- <-.
      split; [exact Hstore' | split; [exact I | exact Hcalls]].
    + destruct (expiry cred); injection Hstep as <- <-;
        (split; [exact Hstore' | split; [exact I | exact Hcalls]]).
  - destruct Hph.
  - rewrite (set_error_ok _ _ _ Hf) in Hstep. injection Hstep as <- <-.
    split; [|split; [exact I|]].
    + now apply store_ok_updated.
    + rewrite refresh_calls_with_rows, refresh_calls_add_event.
      unfold counted. simpl. lia.
  - rewrite (update_expiry_ok _ _ _ Hf) in Hstep. injection Hstep as <- <-.
    split; [|split; [exact I|]].
    + now apply store_ok_updated.
    + rewrite refresh_calls_with_rows, refresh_calls_add_event.
      unfold counted. simpl. lia.
  - discriminate.
Qed.

Lemma pool_counted_app a b : pool_counted (a ++ b) = pool_counted a + pool_counted b.
Proof. unfold pool_counted. now rewrite map_app, list_sum_app. Qed.

Lemma pool_counted_finished pool :
  forallb is_finished pool = true -> pool_counted pool = length pool.
Proof.
  unfold pool_counted. induction pool as [|ph l IH]; simpl; [reflexivity|].
  rewrite andb_true_iff. intros [Hph Hl]. rewrite (IH Hl).
  destruct ph; try discriminate. reflexivity.
Qed.

Lemma pool_counted_start n : pool_counted (repeat Start n) = 0.
Proof. unfold pool_counted. induction n; simpl; auto. Qed.

Lemma pool_step_invariant uid tok rt calls0 s s' :
  decrypt encryptor (encrypted_refresh_token tok) (encryption_nonce tok) = inr rt ->
  pool_step G encryptor uid s s' ->
  pool_invariant uid tok calls0 s ->
  pool_invariant uid tok calls0 s' /\ length (fst s') = length (fst s).
Proof.
  intros Hdec Hstep (Hstore & Hall & Hcalls).
  destruct Hstep as [before ph after w ph' w' Hnf Hstep].
  cbn [fst snd] in *.
  apply Forall_app in Hall. destruct Hall as [Hb Ha].
  inversion Ha as [|? ? Hph Ha']; subst.
  destruct (client_step_invariant uid tok rt ph w ph' w' Hdec Hstore Hph Hnf Hstep)
    as (Hstore' & Hph' & Hc).
  split; [split; [exact Hstore' | split]|].
  - apply Forall_app. split; [exact Hb | now constructor].
  - cbn [fst snd]. rewrite !pool_counted_app in *.
    change (pool_counted (ph :: after)) with (counted ph + pool_counted after) in Hcalls.
    change (pool_counted (ph' :: after)) with (counted ph' + pool_counted after).
    lia.
  - rewrite !length_app. reflexivity.
Qed.

Lemma pool_run_invariant uid tok rt calls0 s s' :
  decrypt encryptor (encrypted_refresh_token tok) (encryption_nonce tok) = inr rt ->
  pool_run G encryptor uid s s' ->
  pool_invariant uid tok calls0 s ->
  pool_invariant uid tok calls0 s' /\ length (fst s') = length (fst s).
Proof.
  intros Hdec Hrun. induction Hrun as [s|s1 s2 s3 Hstep Hrun IH]; intros Hinv.
  - now split.
  - destruct (pool_step_invariant uid tok rt calls0 s1 s2 Hdec Hstep Hinv) as [H2 L2].
    destruct (IH H2) as [H3 L3]. split; [exact H3 | congruence].
Qed.

Lemma get_calendar_client_invariant uid tok rt w :
  decrypt encryptor (encrypted_refresh_token tok) (encryption_nonce tok) = inr rt ->
  store_ok uid tok w ->
  store_ok uid tok (snd (_get_calendar_client G encryptor uid w)) /\
  refresh_calls (snd (_get_calendar_client G encryptor uid w)) = S (refresh_calls w).
Proof.
  intros Hdec Hstore.
  pose proof (run_request_is_get_calendar_client uid w) as Hrun.
  set (out := _get_calendar_client G encryptor uid w) in *.
  unfold run_request in Hrun.
  destruct (client_step G encryptor uid Start w) as [p1 w1] eqn:E1.
  destruct (client_step_invariant uid tok rt Start w p1 w1 Hdec Hstore I eq_refl E1)
    as (S1 & P1 & C1).
  pose proof Hstore as [Hf (t & Ht & Hsec)].
  cbn [client_step] in E1. rewrite (get_by_user_id_ok _ _ Hf), Ht in E1.
  cbn [found] in E1. injection E1 as <- <-.
  destruct (client_step G encryptor uid (HaveToken (Some t)) (add_event DbSelect w))
    as [p2 w2] eqn:E2.
  destruct (client_step_invariant uid tok rt (HaveToken (Some t)) _ p2 w2
              Hdec S1 P1 eq_refl E2)
    as (S2 & P2 & C2).
  assert (Hp2 : has_refreshed p2 = true).
  { cbn [client_step] in E2. destruct Hsec as [X1 X2]. rewrite X1, X2, Hdec in E2.
    destruct (credentials_refresh G rt (add_event DbSelect w)) as [[e|cred] w3].
    - now injection E2 as <- <-.
    - destruct (expiry cred); now injection E2 as <- <-. }
  destruct (is_finished p2) eqn:F2.
  - destruct p2; try discriminate. cbn [client_step] in Hrun.
    injection Hrun as _ <-. split; [exact S2|].
    unfold counted in *. simpl in *. lia.
  - destruct (client_step_invariant uid tok rt _ _ _ _ Hdec S2 P2 F2 Hrun)
      as (S3 & P3 & C3).
    split; [exact S3|].
    unfold counted in *. rewrite Hp2 in *. simpl in *. lia.
Qed.

(** C10, amended: there is no exclusive section and no expiry check.  On
    a store that answers every request, for a user with exactly one active
    record, whose secret decrypts, every request for a calendar client
    issues its own outbound refresh call: [n] requests issue [n] refresh
    calls, one after the other and in every interleaving of their steps. *)
Theorem every_request_refreshes uid w tok rt n :
  faults w = [] ->
  active_of_user uid (tokens w) = [tok] ->
  decrypt encryptor (encrypted_refresh_token tok) (encryption_nonce tok) = inr rt ->
  refresh_calls (run_requests G encryptor uid n w) = refresh_calls w + n /\
  (forall pool w',
      pool_run G encryptor uid (repeat Start n, w) (pool, w') ->
      forallb is_finished pool = true ->
      refresh_calls w' = refresh_calls w + n).
Proof.
  intros Hf Htok Hdec.
  assert (Hstore : store_ok uid tok w).
  { split; [exact Hf|]. exists tok. split; [exact Htok | now split]. }
  split.
  - clear Hf Htok. revert w Hstore. induction n as [|n IH]; intros w Hstore; simpl.
    + lia.
    + destruct (get_calendar_client_invariant uid tok rt w Hdec Hstore) as [S1 C1].
      rewrite (IH _ S1), C1. lia.
  - intros pool w' Hrun Hfin.
    assert (Hinv : pool_invariant uid tok (refresh_calls w) (repeat Start n, w)).
    { split; [exact Hstore|]. split.
      - cbn [fst]. apply Forall_forall. intros ph Hph.
        apply repeat_spec in Hph. now subst.
      - cbn [fst snd]. rewrite pool_counted_start. lia. }
    destruct (pool_run_invariant uid tok rt _ _ _ Hdec Hrun Hinv)
      as [(_ & _ & Hc) Hlen].
    cbn [fst snd] in *. rewrite Hc, (pool_counted_finished _ Hfin), Hlen.
    now rewrite repeat_length.
Qed.

End WithDependencies.
End LifecycleFacts.

Module LifecycleWitnesses.
Import Models World TokenRepository Provider Security Services.
Import Reference ReferenceFacts Samples LifecycleFacts.

Local Open Scope string_scope.

(** C2, as stated, fails, in two ways.  The conflict is reported with
    [OAuthStateError]; the service has no [AccountConflictError].  And when
    the store fails on the lookup of the account, [get_by_google_account]
    answers [None] and the callback of user ["user-456"] goes on past the
    check although ["user-123"] owns the account: for a token without an
    expiry it goes through and the account gets a second active owner; for
    a token with an expiry the refresh token is encrypted (entropy is
    drawn) and the callback ends in the [TypeError] of [create], not in a
    conflict. *)
Lemma conflict_raises_oauth_state_error :
  (fst (handle_callback unreachable_google encryptor state_manager
          "code" bob_state sample_world)
   = inl (OAuthStateError "This Google account is already connected to another user")
   /\ exc_class (OAuthStateError
                   "This Google account is already connected to another user")
      <> "AccountConflictError") /\
  (let out := handle_callback unreachable_google encryptor state_manager
                "code" bob_state (faulty_world [true]) in
   active_of_account "g-111" (tokens (faulty_world [true])) = [alice_token] /\
   user_id alice_token = "user-123" /\
   fst out = inr (mkCallbackResponse true "user-456" "alice@example.com"
                    "Google Calendar connected successfully") /\
   map user_id (active_of_account "g-111" (tokens (snd out)))
   = ["user-123"; "user-456"]) /\
  (let out := handle_callback dated_google encryptor state_manager
                "code" bob_state (faulty_world [true]) in
   fst out = inl not_serializable /\
   trace (snd out)
   = [ExchangeCode "code"; GetUserInfo "access-1"; DbSelect; Urandom 12;
      DbSelect]).
Proof.
  split; [split; [vm_compute; reflexivity | vm_compute; discriminate]|].
  cbv zeta. repeat split; vm_compute; reflexivity.
Qed.

Lemma callback_conflict_rejected_witness :
  validate_state state_manager (clock sample_world) bob_state = inr (Some "user-456")
  /\ fst (get_by_google_account "g-111" sample_world) = inr (Some alice_token)
  /\ user_id alice_token <> "user-456"
  /\ tokens (snd (handle_callback unreachable_google encryptor state_manager
                    "code" bob_state sample_world))
     = tokens sample_world.
Proof.
  assert (H1 : validate_state state_manager (clock sample_world) bob_state
               = inr (Some "user-456")) by (vm_compute; reflexivity).
  assert (H2 : "user-456" <> "") by discriminate.
  assert (H3 : fetch_token unreachable_google "code"
               = inr (mkOAuthTokens "access-1" (Some "refresh-token-2") None
                        ["calendar"])) by reflexivity.
  assert (H4 : userinfo unreachable_google "access-1"
               = inr (mkUserInfo "alice@example.com" "g-111")) by reflexivity.
  assert (H6 : fst (get_by_google_account "g-111" sample_world)
               = inr (Some alice_token)) by (vm_compute; reflexivity).
  assert (H7 : user_id alice_token <> "user-456") by (vm_compute; discriminate).
  split; [exact H1|]. split; [exact H6|]. split; [exact H7|].
  exact (proj1 (proj2 (callback_conflict_rejected unreachable_google encryptor
                         state_manager "code" bob_state sample_world "user-456"
                         _ _ alice_token H1 H2 H3 H4 H6 H7))).
Defined.

(** C5, as stated, fails: when the store answers the lookup and fails on
    the update that follows the failed refresh, [TokenExpiredError] is
    raised but [last_error] of the record is left empty. *)
Lemma failed_update_loses_refresh_error :
  let out := _get_calendar_client unreachable_google encryptor "user-123"
               (faulty_world [false; true]) in
  fst (get_by_user_id "user-123" (faulty_world [false; true]))
  = inr (Some alice_token) /\
  refresh unreachable_google "refresh-token-1" = inl timeout /\
  fst out = inl (TokenExpiredError "user-123" "Failed to refresh access token") /\
  tokens (snd out) = [alice_token] /\
  last_error alice_token = None.
Proof. cbv zeta. repeat split; vm_compute; reflexivity. Qed.

Lemma refresh_failure_recorded_witness :
  fst (get_by_user_id "user-123" sample_world) = inr (Some alice_token) /\
  decrypt encryptor (encrypted_refresh_token alice_token)
    (encryption_nonce alice_token) = inr "refresh-token-1" /\
  refresh unreachable_google "refresh-token-1" = inl timeout /\
  accepts (sent DbSelect sample_world) = true /\
  active_of_user "user-123"
    (tokens (snd (_get_calendar_client unreachable_google encryptor "user-123"
                    sample_world)))
  = [with_error (exc_str timeout) (clock sample_world) alice_token].
Proof.
  assert (H2 : fst (get_by_user_id "user-123" sample_world) = inr (Some alice_token))
    by (vm_compute; reflexivity).
  assert (H3 : decrypt encryptor (encrypted_refresh_token alice_token)
                 (encryption_nonce alice_token) = inr "refresh-token-1")
    by (vm_compute; reflexivity).
  assert (H4 : refresh unreachable_google "refresh-token-1" = inl timeout)
    by reflexivity.
  assert (H5 : accepts (sent DbSelect sample_world) = true) by reflexivity.
  split; [exact H2|]. split; [exact H3|]. split; [exact H4|]. split; [exact H5|].
  pose proof (refresh_failure_recorded unreachable_google encryptor "user-123"
                sample_world alice_token "refresh-token-1" timeout H2 H3 H4) as H.
  cbv zeta in H. destruct H as (_ & _ & H & _).
  exact (proj1 (proj2 (H H5))).
Defined.

(** C8, as stated, fails, in two ways.  When the store fails on the
    lookup, the user's active record is not found: [revoke_connection]
    answers [success=False] and the record stays active.  When the store
    answers the lookup and fails on the update, success is reported and the
    record stays active, without [revoked_at]. *)
Lemma revocation_not_recorded :
  active_of_user "user-123" (tokens (faulty_world [true])) = [alice_token] /\
  (let out := revoke_connection unreachable_google encryptor "user-123"
                (faulty_world [true]) in
   fst out = inr (mkRevokeResponse false "No Google Calendar connection found") /\
   tokens (snd out) = [alice_token]) /\
  (let out := revoke_connection unreachable_google encryptor "user-123"
                (faulty_world [false; true]) in
   fst out = inr (mkRevokeResponse true
                    "Google Calendar disconnected successfully") /\
   tokens (snd out) = [alice_token]) /\
  is_active alice_token = true /\
  revoked_at alice_token = None.
Proof. cbv zeta. repeat split; vm_compute; reflexivity. Qed.

Lemma revoke_recorded_locally_witness :
  fst (get_by_user_id "user-123" sample_world) = inr (Some alice_token) /\
  revoke_post unreachable_google "refresh-token-1" = inl timeout /\
  accepts (sent DbSelect sample_world) = true /\
  tokens (snd (revoke_connection unreachable_google encryptor "user-123" sample_world))
  = updated "user-123" (with_revoked (clock sample_world)) (tokens sample_world).
Proof.
  assert (H1 : accepts (sent DbSelect sample_world) = true) by reflexivity.
  assert (H2 : fst (get_by_user_id "user-123" sample_world) = inr (Some alice_token))
    by (vm_compute; reflexivity).
  split; [exact H2|]. split; [reflexivity|]. split; [exact H1|].
  pose proof (revoke_recorded_locally unreachable_google encryptor
                "user-123" sample_world alice_token H2) as H.
  cbv zeta in H. destruct H as (_ & _ & _ & _ & _ & H & _).
  exact (proj1 (H H1)).
Defined.

(** C10, as stated, fails: two requests for the same user, one after the
    other, issue two refresh calls.  The count is that of the requests
    only where every request reads the record: when the store fails on the
    lookup of the first of two requests, that request stops before its
    refresh and one refresh call is issued for two requests; for a user
    without an active record none is issued. *)
Lemma two_requests_two_refresh_calls :
  (refresh_calls
     (run_requests working_google encryptor "user-123" 2 sample_world) = 2
   /\ refresh_calls
        (run_requests working_google encryptor "user-123" 2 sample_world) <> 1) /\
  (active_of_user "user-123" (tokens (faulty_world [true])) = [alice_token] /\
   refresh_calls
     (run_requests working_google encryptor "user-123" 2 (faulty_world [true]))
   = 1) /\
  refresh_calls
    (run_requests working_google encryptor "user-123" 2 empty_world) = 0.
Proof.
  split; [split; [vm_compute; reflexivity | vm_compute; discriminate]|].
  split; [split|]; vm_compute; reflexivity.
Qed.

Lemma every_request_refreshes_witness :
  active_of_user "user-123" (tokens sample_world) = [alice_token] /\
  decrypt encryptor (encrypted_refresh_token alice_token)
    (encryption_nonce alice_token) = inr "refresh-token-1" /\
  refresh_calls (run_requests working_google encryptor "user-123" 3 sample_world)
  = refresh_calls sample_world + 3.
Proof.
  assert (H1 : faults sample_world = []) by reflexivity.
  assert (H2 : active_of_user "user-123" (tokens sample_world) = [alice_token])
    by (vm_compute; reflexivity).
  assert (H3 : decrypt encryptor (encrypted_refresh_token alice_token)
                 (encryption_nonce alice_token) = inr "refresh-token-1")
    by (vm_compute; reflexivity).
  split; [exact H2|]. split; [exact H3|].
  exact (proj1 (every_request_refreshes working_google encryptor "user-123"
                  sample_world alice_token "refresh-token-1" 3 H1 H2 H3)).
Defined.

End LifecycleWitnesses.

(** ** The free-slot calculation *)

Module StringOrder := OrderedTypeFacts String_as_OT.

Module AvailabilityFacts.
Import Availability.

Lemma str_lt_true a b : str_lt a b = true <-> String_as_OT.lt a b.
Proof.
  unfold str_lt, String.ltb.
  rewrite <- String_as_OT.cmp_lt. unfold String_as_OT.cmp.
  destruct (String.compare a b); split; congruence.
Qed.

Lemma str_lt_false a b : str_lt a b = false <-> ~ String_as_OT.lt a b.
Proof.
  rewrite <- str_lt_true. destruct (str_lt a b); split; congruence.
Qed.

(** Decide a goal in the theory of the lexicographic order from the
    comparisons among the hypotheses. *)
Ltac sorder :=
  unfold slt, sle in *;
  repeat match goal with
    | H : str_lt _ _ = true |- _ => apply str_lt_true in H
    | H : str_lt _ _ = false |- _ => apply str_lt_false in H
    end;
  try match goal with
    | |- str_lt _ _ = true => apply str_lt_true
    | |- str_lt _ _ = false => apply str_lt_false
    end;
  StringOrder.order.

(** *** Wall-clock times as ["HH:MM"] strings *)

Lemma two_digits_compare a b :
  a < 100 -> b < 100 ->
  String.compare (two_digits a) (two_digits b) = Nat.compare a b.
Proof.
  intros Ha Hb.
  assert (H : forallb (fun x =>
                forallb (fun y =>
                  match String.compare (two_digits x) (two_digits y),
                        Nat.compare x y with
                  | Eq, Eq | Lt, Lt | Gt, Gt => true
                  | _, _ => false
                  end) (seq 0 100)) (seq 0 100) = true)
    by (vm_compute; reflexivity).
  rewrite forallb_forall in H.
  specialize (H a (proj2 (in_seq 100 0 a) (conj (Nat.le_0_l a) Ha))).
  rewrite forallb_forall in H.
  specialize (H b (proj2 (in_seq 100 0 b) (conj (Nat.le_0_l b) Hb))).
  destruct (String.compare _ _), (Nat.compare a b); congruence.
Qed.

Lemma compare_two_chars_app c1 c2 d1 d2 r1 r2 :
  String.compare (String c1 (String c2 r1)) (String d1 (String d2 r2))
  = match String.compare (String c1 (String c2 "")) (String d1 (String d2 "")) with
    | Eq => String.compare r1 r2
    | c => c
    end.
Proof.
  cbn [String.compare].
  destruct (Ascii.compare c1 d1); try reflexivity.
  destruct (Ascii.compare c2 d2); reflexivity.
Qed.

Lemma compare_colon x y :
  String.compare (String ":" x) (String ":" y) = String.compare x y.
Proof. reflexivity. Qed.

(** On the times of one day the order of the ["HH:MM"] strings is the
    order of the times. *)
Lemma strftime_HM_lt a b :
  a < 1440 -> b < 1440 ->
  str_lt (strftime_HM a) (strftime_HM b) = (a <? b)%nat.
Proof.
  intros Ha Hb. unfold str_lt, String.ltb, strftime_HM.
  assert (Qa : a / 60 < 100) by (apply Nat.Div0.div_lt_upper_bound; lia).
  assert (Qb : b / 60 < 100) by (apply Nat.Div0.div_lt_upper_bound; lia).
  assert (Ra : a mod 60 < 100) by (pose proof (Nat.mod_upper_bound a 60); lia).
  assert (Rb : b mod 60 < 100) by (pose proof (Nat.mod_upper_bound b 60); lia).
  pose proof (two_digits_compare _ _ Qa Qb) as Hq.
  pose proof (two_digits_compare _ _ Ra Rb) as Hr.
  pose proof (Nat.div_mod_eq a 60) as Ea. pose proof (Nat.div_mod_eq b 60) as Eb.
  pose proof (Nat.mod_upper_bound a 60) as Ma.
  pose proof (Nat.mod_upper_bound b 60) as Mb.
  revert Hq Hr. generalize (a / 60) (b / 60) (a mod 60) (b mod 60) Ea Eb Ma Mb.
  clear. intros qa qb ra rb Ea Eb Ma Mb Hq Hr.
  unfold two_digits in *.
  change ((String ?c1 (String ?c2 "")) ++ ":" ++ ?r)%string
    with (String c1 (String c2 (String ":" r))).
  rewrite compare_two_chars_app, Hq, compare_colon, Hr.
  destruct (Nat.compare_spec qa qb);
    destruct (Nat.compare_spec ra rb);
    destruct (Nat.ltb_spec a b); try reflexivity; lia.
Qed.

Lemma py_max_cases a b :
  (sle b a /\ py_max a b = a) \/ (slt a b /\ py_max a b = b).
Proof.
  unfold py_max, slt, sle. destruct (str_lt a b) eqn:E; [right | left]; auto.
Qed.

Lemma in_slot_iff t s :
  in_slot t s = true <-> sle (start s) t /\ slt t (end_ s).
Proof.
  unfold in_slot, sle, slt. rewrite andb_true_iff, negb_true_iff. tauto.
Qed.

Lemma covered_iff t l :
  covered t l = true <-> exists s, In s l /\ sle (start s) t /\ slt t (end_ s).
Proof.
  unfold covered. rewrite existsb_exists.
  split; intros (s & Hs & H); exists s; split; auto; now apply in_slot_iff.
Qed.

Lemma covered_false_iff t l :
  covered t l = false <-> forall s, In s l -> ~ (sle (start s) t /\ slt t (end_ s)).
Proof.
  rewrite <- not_true_iff_false, covered_iff. split.
  - intros H s Hs Hin. apply H. now exists s.
  - intros H (s & Hs & Hin). now apply (H s).
Qed.

(** *** Sorting *)

Lemma insert_by_start_perm x l : Permutation (x :: l) (insert_by_start x l).
Proof.
  induction l as [|y l IH]; simpl; [reflexivity|].
  destruct (str_lt (start y) (start x)); [|reflexivity].
  rewrite perm_swap. now constructor.
Qed.

Lemma sorted_by_start_perm l : Permutation l (sorted_by_start l).
Proof.
  induction l as [|x l IH]; simpl; [constructor|].
  rewrite <- insert_by_start_perm. now constructor.
Qed.

Lemma insert_by_start_sorted x l :
  StronglySorted start_le l -> StronglySorted start_le (insert_by_start x l).
Proof.
  induction 1 as [|y l Hs IH Hall]; simpl.
  - repeat constructor.
  - destruct (str_lt (start y) (start x)) eqn:E.
    + constructor; [exact IH|].
      apply (Permutation_Forall (insert_by_start_perm x l)).
      constructor; [unfold start_le; sorder | exact Hall].
    + constructor; [now constructor|].
      constructor; [unfold start_le; sorder|].
      revert Hall. apply Forall_impl. intros z Hz.
      unfold start_le in *. sorder.
Qed.

Lemma sorted_by_start_sorted l : StronglySorted start_le (sorted_by_start l).
Proof.
  induction l as [|x l IH]; simpl; [constructor|].
  now apply insert_by_start_sorted.
Qed.

(** Stability: slots with equal start keep their relative order, because an
    inserted slot stops in front of the first slot that is not smaller. *)
Lemma insert_by_start_stable x l :
  filter (fun y => String.eqb (start y) (start x)) (insert_by_start x l)
  = x :: filter (fun y => String.eqb (start y) (start x)) l.
Proof.
  induction l as [|y l IH]; simpl.
  - now rewrite String.eqb_refl.
  - destruct (str_lt (start y) (start x)) eqn:E; simpl.
    + destruct (String.eqb_spec (start y) (start x)) as [e|ne].
      * rewrite e in E. exfalso. sorder.
      * exact IH.
    + now rewrite String.eqb_refl.
Qed.

(** *** The cursor walk *)

Lemma fold_loop_acc bs : forall acc cur,
  fold_left loop_body bs (acc, cur)
  = (acc ++ gaps cur bs, cursor_after cur bs).
Proof.
  unfold gaps, cursor_after.
  induction bs as [|b bs IH]; intros acc cur; simpl.
  - now rewrite app_nil_r.
  - destruct (str_lt cur (start b)).
    + rewrite IH. rewrite (IH [_]). simpl. now rewrite <- app_assoc.
    + rewrite IH. now rewrite (IH []).
Qed.

Lemma gaps_cons cur b bs :
  gaps cur (b :: bs)
  = (if str_lt cur (start b) then [mkSlot cur (start b)] else [])
    ++ gaps (py_max cur (end_ b)) bs.
Proof.
  unfold gaps at 1. simpl.
  destruct (str_lt cur (start b)); rewrite fold_loop_acc; reflexivity.
Qed.

Lemma cursor_after_cons cur b bs :
  cursor_after cur (b :: bs) = cursor_after (py_max cur (end_ b)) bs.
Proof.
  unfold cursor_after at 1. simpl.
  destruct (str_lt cur (start b)); rewrite fold_loop_acc; reflexivity.
Qed.

Lemma calculate_free_slots_eq b bs ws we :
  _calculate_free_slots (b :: bs) ws we
  = let s := sorted_by_start (b :: bs) in
    gaps ws s ++
    (if str_lt (cursor_after ws s) we then [mkSlot (cursor_after ws s) we] else []).
Proof.
  unfold _calculate_free_slots. cbv zeta.
  rewrite fold_loop_acc. simpl app.
  destruct (str_lt _ we); [reflexivity | now rewrite app_nil_r].
Qed.

Lemma spec_cursor_walk_eq bs : forall cur we,
  spec_cursor_walk cur bs we
  = gaps cur bs ++
    (if str_lt (cursor_after cur bs) we
     then [mkSlot (cursor_after cur bs) we] else []).
Proof.
  induction bs as [|b bs IH]; intros cur we; simpl.
  - reflexivity.
  - now rewrite IH, gaps_cons, cursor_after_cons, app_assoc.
Qed.

Lemma cursor_after_ge bs : forall cur, sle cur (cursor_after cur bs).
Proof.
  induction bs as [|b bs IH]; intros cur.
  - unfold cursor_after; simpl. sorder.
  - rewrite cursor_after_cons. specialize (IH (py_max cur (end_ b))).
    destruct (py_max_cases cur (end_ b)) as [[H E]|[H E]]; rewrite E in *; sorder.
Qed.

Lemma cursor_after_ends bs : forall cur b,
  In b bs -> sle (end_ b) (cursor_after cur bs).
Proof.
  induction bs as [|b0 bs IH]; intros cur b Hin; [destruct Hin|].
  rewrite cursor_after_cons. destruct Hin as [->|Hin].
  - pose proof (cursor_after_ge bs (py_max cur (end_ b))) as G.
    destruct (py_max_cases cur (end_ b)) as [[H E]|[H E]]; rewrite E in *; sorder.
  - now apply IH.
Qed.

(** Every emitted slot is non-empty, starts at or after the cursor and ends
    where a busy interval starts. *)
Lemma gaps_shape bs : forall cur f,
  In f (gaps cur bs) ->
  sle cur (start f) /\ slt (start f) (end_ f) /\
  exists b, In b bs /\ end_ f = start b.
Proof.
  induction bs as [|b bs IH]; intros cur f Hin.
  - destruct Hin.
  - rewrite gaps_cons in Hin. apply in_app_or in Hin. destruct Hin as [Hin|Hin].
    + destruct (str_lt cur (start b)) eqn:E; [|destruct Hin].
      destruct Hin as [<-|[]]; simpl.
      repeat split; [sorder | exact E | exists b; split; [now left | reflexivity]].
    + destruct (IH _ _ Hin) as (H1 & H2 & b' & Hb' & He).
      repeat split; [| exact H2 | exists b'; split; [now right | exact He]].
      destruct (py_max_cases cur (end_ b)) as [[H E]|[H E]]; rewrite E in *; sorder.
Qed.

(** Consecutive emitted slots are separated by a busy interval. *)
Lemma gaps_sorted bs : forall cur,
  Forall (fun b => slt (start b) (end_ b)) bs ->
  StronglySorted (fun f g => slt (end_ f) (start g)) (gaps cur bs).
Proof.
  induction bs as [|b bs IH]; intros cur Hwf.
  - constructor.
  - inversion Hwf as [|? ? Hb Hbs]; subst.
    rewrite gaps_cons.
    destruct (str_lt cur (start b)) eqn:E; simpl; [|now apply IH].
    constructor; [now apply IH|].
    apply Forall_forall. intros g Hg. simpl.
    destruct (gaps_shape _ _ _ Hg) as (H1 & _).
    destruct (py_max_cases cur (end_ b)) as [[H E']|[H E']]; rewrite E' in *; sorder.
Qed.

Lemma covered_app t l1 l2 :
  covered t (l1 ++ l2) = true <-> covered t l1 = true \/ covered t l2 = true.
Proof. unfold covered. now rewrite existsb_app, orb_true_iff. Qed.

Lemma covered_cons_false t b bs :
  covered t (b :: bs) = false <-> in_slot t b = false /\ covered t bs = false.
Proof. unfold covered. simpl. now rewrite orb_false_iff. Qed.

Lemma covered_emit t (c : bool) a b :
  covered t (if c then [mkSlot a b] else []) = true <->
  c = true /\ sle a t /\ slt t b.
Proof.
  destruct c; simpl.
  - rewrite orb_false_r, in_slot_iff. simpl. tauto.
  - split; [discriminate | now intros [? _]].
Qed.

Lemma in_slot_false t s :
  in_slot t s = false <-> slt t (start s) \/ sle (end_ s) t.
Proof.
  unfold in_slot, slt, sle.
  destruct (str_lt t (start s)), (str_lt t (end_ s)); simpl; intuition congruence.
Qed.

(** The emitted slots cover exactly the instants between the cursor and the
    final cursor that no busy interval covers. *)
Lemma gaps_covered bs : forall cur t,
  StronglySorted start_le bs ->
  Forall (fun b => slt (start b) (end_ b)) bs ->
  covered t (gaps cur bs) = true <->
  sle cur t /\ slt t (cursor_after cur bs) /\ covered t bs = false.
Proof.
  induction bs as [|b bs IH]; intros cur t Hs Hwf.
  - unfold gaps, cursor_after; simpl. split; [discriminate|].
    intros (H1 & H2 & _). exfalso. sorder.
  - inversion Hs as [|? ? Hs' Hall]; subst.
    inversion Hwf as [|? ? Hb Hbs]; subst.
    rewrite gaps_cons, cursor_after_cons, covered_app, covered_emit.
    rewrite (IH (py_max cur (end_ b)) t Hs' Hbs).
    rewrite covered_cons_false, in_slot_false.
    pose proof (cursor_after_ge bs (py_max cur (end_ b))) as G.
    assert (Hlater : slt t (start b) -> covered t bs = false).
    { intros Ht. apply covered_false_iff. intros s Hin [Hc _].
      rewrite Forall_forall in Hall. specialize (Hall s Hin).
      unfold start_le in Hall. sorder. }
    destruct (py_max_cases cur (end_ b)) as [[H E]|[H E]]; rewrite E in *.
    + split.
      * intros [(Ec & Ha & Hb')|(H1 & H2 & H3)].
        -- repeat split; [exact Ha | sorder | now left | now apply Hlater].
        -- repeat split; [exact H1 | exact H2 | right; sorder | exact H3].
      * intros (H1 & H2 & [H3|H3] & H4).
        -- left. repeat split; [sorder | exact H1 | exact H3].
        -- right. repeat split; assumption.
    + split.
      * intros [(Ec & Ha & Hb')|(H1 & H2 & H3)].
        -- repeat split; [exact Ha | sorder | now left | now apply Hlater].
        -- repeat split; [sorder | exact H2 | now right | exact H3].
      * intros (H1 & H2 & [H3|H3] & H4).
        -- left. repeat split; [sorder | exact H1 | exact H3].
        -- right. repeat split; assumption.
Qed.

Lemma covered_perm t l l' :
  Permutation l l' -> covered t l = covered t l'.
Proof.
  unfold covered. induction 1; simpl; try congruence.
  now rewrite !orb_assoc, (orb_comm (in_slot t y)).
Qed.

(** The code is the cursor walk of the design document. *)
Lemma calculate_free_slots_is_cursor_walk busy ws we :
  _calculate_free_slots busy ws we = spec_free_slots busy ws we.
Proof.
  destruct busy as [|b bs]; [reflexivity|].
  rewrite calculate_free_slots_eq. unfold spec_free_slots.
  now rewrite spec_cursor_walk_eq.
Qed.

(** C1, as stated, fails: a busy interval that starts after [work_end]
    makes the slot in front of it run past the end of the window. *)
Lemma free_slots_not_complement_in_general :
  ~ (forall busy ws we,
        Forall (fun b => slt (start b) (end_ b)) busy ->
        complement_in_window busy (_calculate_free_slots busy ws we) ws we).
Proof.
  intros H.
  specialize (H [mkSlot "19:00" "20:00"] "09:00" "18:00").
  assert (W : Forall (fun b => slt (start b) (end_ b)) [mkSlot "19:00" "20:00"])
    by (repeat constructor).
  destruct (proj1 (H W "18:30") eq_refl) as (_ & L & _).
  discriminate L.
Qed.

(** C1, amended: when every busy interval has [start < end] and starts no
    later than [work_end], [_calculate_free_slots] is the cursor walk of the
    design document, and its result is exactly the set of instants of
    [[work_start, work_end)] that no busy interval covers, as slots listed
    in increasing order with a busy interval between any two of them; every
    slot is non-empty unless the busy list is empty, and an empty busy list
    yields the single slot [[work_start, work_end]]. *)
Theorem calculate_free_slots_complement busy ws we :
  Forall (fun b => slt (start b) (end_ b)) busy ->
  Forall (fun b => sle (start b) we) busy ->
  let free := _calculate_free_slots busy ws we in
  free = spec_free_slots busy ws we /\
  complement_in_window busy free ws we /\
  StronglySorted (fun f g => slt (end_ f) (start g)) free /\
  (busy <> [] -> Forall (fun f => slt (start f) (end_ f)) free) /\
  (busy = [] -> free = [mkSlot ws we]).
Proof.
  intros Hwf Hin free. subst free.
  split; [apply calculate_free_slots_is_cursor_walk|].
  destruct busy as [|b0 bs0].
  { simpl. split; [|split; [|split; [congruence | reflexivity]]].
    - intros t. unfold covered. simpl. rewrite orb_false_r, in_slot_iff.
      simpl. tauto.
    - repeat constructor. }
  rewrite calculate_free_slots_eq. cbv zeta.
  set (busy := b0 :: bs0) in *.
  set (bs := sorted_by_start busy).
  assert (P : Permutation busy bs) by apply sorted_by_start_perm.
  assert (Hs : StronglySorted start_le bs) by apply sorted_by_start_sorted.
  assert (Hwf' : Forall (fun b => slt (start b) (end_ b)) bs)
    by (now apply (Permutation_Forall P)).
  assert (Hin' : Forall (fun b => sle (start b) we) bs)
    by (now apply (Permutation_Forall P)).
  pose proof (cursor_after_ge bs ws) as G.
  set (c := cursor_after ws bs) in *.
  assert (Hends : forall b, In b bs -> sle (end_ b) c)
    by (intros b Hb; now apply cursor_after_ends).
  assert (Hgap_end : forall f, In f (gaps ws bs) -> slt (end_ f) c /\ sle (end_ f) we).
  { intros f Hf. destruct (gaps_shape _ _ _ Hf) as (_ & _ & b & Hb & E).
    rewrite Forall_forall in Hwf', Hin'.
    specialize (Hwf' b Hb). specialize (Hin' b Hb). specialize (Hends b Hb).
    rewrite E. split; sorder. }
  split; [|split; [|split; [|discriminate]]].
  - (* the set of instants *)
    intros t. rewrite covered_app, covered_emit.
    rewrite (covered_perm t busy bs P). split.
    + intros [H|(H1 & H2 & H3)].
      * pose proof (proj1 (gaps_covered bs ws t Hs Hwf') H) as (K1 & K2 & K3).
        apply covered_iff in H. destruct H as (f & Hf & Hf1 & Hf2).
        destruct (Hgap_end f Hf) as [_ Hwe].
        repeat split; [exact K1 | sorder | exact K3].
      * repeat split; [sorder | exact H3 |].
        apply covered_false_iff. intros s Hsin [_ Hx].
        specialize (Hends s Hsin). sorder.
    + intros (H1 & H2 & H3).
      destruct (str_lt t c) eqn:Etc.
      * left. apply (gaps_covered bs ws t Hs Hwf'). repeat split; assumption.
      * right. repeat split; [sorder | exact Etc | exact H2].
  - (* order *)
    assert (Sg := gaps_sorted bs ws Hwf').
    destruct (str_lt c we) eqn:Ecw; [|now rewrite app_nil_r].
    clear - Sg Hgap_end. induction Sg as [|f l Sl IH Hall]; simpl.
    + repeat constructor.
    + constructor.
      * apply IH. intros g Hg. apply Hgap_end. now right.
      * apply Forall_app. split; [exact Hall|].
        constructor; [|constructor]. simpl. apply Hgap_end. now left.
  - (* non-empty slots *)
    intros _. apply Forall_app. split.
    + apply Forall_forall. intros f Hf. now apply (gaps_shape _ _ _ Hf).
    + destruct (str_lt c we) eqn:Ecw; repeat constructor. exact Ecw.
Qed.

Lemma calculate_free_slots_complement_witness :
  let busy := [mkSlot "11:00" "12:00"; mkSlot "10:00" "11:30"] in
  Forall (fun b => slt (start b) (end_ b)) busy /\
  Forall (fun b => sle (start b) "18:00") busy /\
  complement_in_window busy (_calculate_free_slots busy "09:00" "18:00")
    "09:00" "18:00".
Proof.
  assert (W1 : Forall (fun b => slt (start b) (end_ b))
                 [mkSlot "11:00" "12:00"; mkSlot "10:00" "11:30"])
    by (repeat constructor).
  assert (W2 : Forall (fun b => sle (start b) "18:00")
                 [mkSlot "11:00" "12:00"; mkSlot "10:00" "11:30"])
    by (repeat constructor).
  split; [exact W1 | split; [exact W2|]].
  exact (proj1 (proj2 (calculate_free_slots_complement _ "09:00" "18:00" W1 W2))).
Defined.

End AvailabilityFacts.

Module AvailabilityExamples.
Import Availability.

Example no_busy_full_window :
  _calculate_free_slots [] "09:00" "18:00" = [mkSlot "09:00" "18:00"].
Proof. reflexivity. Qed.

Example one_busy_mid_window :
  _calculate_free_slots [mkSlot "10:00" "11:00"] "09:00" "18:00"
  = [mkSlot "09:00" "10:00"; mkSlot "11:00" "18:00"].
Proof. reflexivity. Qed.

Example overlapping_busy_merge :
  _calculate_free_slots [mkSlot "11:00" "12:00"; mkSlot "10:00" "11:30"]
    "09:00" "18:00"
  = [mkSlot "09:00" "10:00"; mkSlot "12:00" "18:00"].
Proof. reflexivity. Qed.

Example busy_covers_window :
  _calculate_free_slots [mkSlot "09:00" "18:00"] "09:00" "18:00" = [].
Proof. reflexivity. Qed.

Example nine_o_clock : strftime_HM 540 = "09:00".
Proof. reflexivity. Qed.

Example busy_after_window :
  _calculate_free_slots [mkSlot "19:00" "20:00"] "09:00" "18:00"
  = [mkSlot "09:00" "19:00"].
Proof. reflexivity. Qed.

End AvailabilityExamples.


(* ------------------------------------------------------------------ *)
(** ** The token repository: lookups, writes and store failures *)

Module RepositoryProperties.
Import Models World TokenRepository Invariants RepositoryFacts.

Local Open Scope string_scope.

Lemma delete_run uid w : delete uid w = (inr (accepts w), deleted uid w).
Proof.
  unfold delete, mtry, mbind, execute, deleted, without_user.
  now destruct (accepts w).
Qed.

Lemma create_run data w :
  create data w
  = match new_access_token_expires_at data with
    | Some _ => (inl not_serializable, w)
    | None =>
        (if accepts w then inr (inserted_row data (clock w))
         else inl store_unavailable,
         if accepts w
         then with_rows (tokens w ++ [inserted_row data (clock w)])
                (sent DbInsert w)
         else sent DbInsert w)
    end.
Proof.
  unfold create, mbind, now, execute.
  destruct (new_access_token_expires_at data); [reflexivity|].
  now destruct (accepts w).
Qed.

Lemma tokens_deleted uid w :
  tokens (deleted uid w)
  = if accepts w then without_user uid (tokens w) else tokens w.
Proof. unfold deleted. now destruct (accepts w). Qed.

Lemma for_user_iff uid t : for_user uid t = true <-> user_id t = uid.
Proof. unfold for_user. apply String.eqb_eq. Qed.

(** X1: a lookup by user never raises and never writes; the record it
    returns is in the table, belongs to the user, is active and is the
    user's only active record. *)
Theorem get_by_user_id_sound uid w :
  (exists r, fst (get_by_user_id uid w) = inr r) /\
  tokens (snd (get_by_user_id uid w)) = tokens w /\
  (forall t, fst (get_by_user_id uid w) = inr (Some t) ->
     In t (tokens w) /\ user_id t = uid /\ is_active t = true /\
     forall t', In t' (tokens w) -> user_id t' = uid -> is_active t' = true ->
                t' = t).
Proof.
  rewrite get_by_user_id_run. cbn [fst snd]. split; [eauto|].
  split; [reflexivity|].
  intros t H. destruct (accepts w); [|discriminate].
  injection H as H. apply found_in in H.
  assert (Hin : In t (active_of_user uid (tokens w))) by (rewrite H; now left).
  destruct (active_of_user_in _ _ _ Hin) as (H1 & H2 & H3).
  repeat split; try assumption; [now apply for_user_iff|].
  intros t' Hin' Hu Ha.
  assert (Hin2 : In t' (active_of_user uid (tokens w))).
  { unfold active_of_user. apply filter_In. split; [exact Hin'|].
    apply andb_true_iff. split; [now apply for_user_iff | exact Ha]. }
  rewrite H in Hin2. destruct Hin2 as [<-|[]]. reflexivity.
Qed.

(** A user with several active records, or with none, is reported as
    having no record. *)
Lemma get_by_user_id_ambiguous uid w :
  length (active_of_user uid (tokens w)) <> 1 ->
  fst (get_by_user_id uid w) = inr None.
Proof.
  intros H. rewrite get_by_user_id_run. cbn [fst].
  destruct (accepts w); [|reflexivity].
  destruct (active_of_user uid (tokens w)) as [|a [|b l]]; try reflexivity.
  now contradiction H.
Qed.

(** X3: [create] stores only a record without an access-token expiry.
    For data with an expiry it raises [TypeError] before any request is
    sent, whatever the store does, and the world is as it was.  For data
    without one, on a store that answers, the record is appended to the
    table, and when the user and the provider account had no active record
    it is the one that the lookups by user and by account return
    afterwards. *)
Theorem create_then_lookup data w :
  (new_access_token_expires_at data <> None ->
   create data w = (inl not_serializable, w)) /\
  (new_access_token_expires_at data = None ->
   faults w = [] ->
   active_of_user (new_user_id data) (tokens w) = [] ->
   active_of_account (new_google_account_id data) (tokens w) = [] ->
   let row := inserted_row data (clock w) in
   let w1 := snd (create data w) in
   fst (create data w) = inr row /\
   tokens w1 = (tokens w ++ [row])%list /\
   fst (get_by_user_id (new_user_id data) w1) = inr (Some row) /\
   fst (get_by_google_account (new_google_account_id data) w1) = inr (Some row)).
Proof.
  split.
  { intros H. rewrite create_run.
    destruct (new_access_token_expires_at data); [reflexivity | contradiction]. }
  intros Hexp Hw Hu Ha row w1. subst row w1.
  rewrite create_run, Hexp, (accepts_ok _ Hw). cbn [fst snd].
  split; [reflexivity|]. split; [reflexivity|].
  rewrite get_by_user_id_run, get_by_google_account_run.
  assert (Hacc : accepts (with_rows (tokens w ++ [inserted_row data (clock w)])
                            (sent DbInsert w)) = true).
  { apply accepts_ok. cbn [faults with_rows sent]. now rewrite Hw. }
  rewrite Hacc. cbn [fst tokens with_rows].
  unfold active_of_user, active_of_account in *.
  rewrite !filter_app, Hu, Ha. cbn [app filter inserted_row].
  cbn [user_id google_account_id is_active for_user].
  unfold for_user. cbn [user_id]. rewrite !String.eqb_refl. split; reflexivity.
Qed.

Lemma without_user_rows uid table : rows_of uid (without_user uid table) = [].
Proof.
  unfold rows_of, without_user. induction table as [|t l IH]; [reflexivity|].
  simpl. destruct (for_user uid t) eqn:E; simpl; [exact IH|].
  now rewrite E.
Qed.

Lemma without_user_other uid uid' table :
  uid' <> uid -> rows_of uid' (without_user uid table) = rows_of uid' table.
Proof.
  intros Hne. unfold rows_of, without_user.
  induction table as [|t l IH]; [reflexivity|]. simpl.
  destruct (for_user uid t) eqn:E; simpl.
  - apply for_user_iff in E.
    destruct (for_user uid' t) eqn:E'; [|exact IH].
    apply for_user_iff in E'. congruence.
  - now rewrite IH.
Qed.

(** X4: on a store that answers, [delete] removes every record of the
    user, active or revoked, and no record of anyone else; the user is
    then not found. *)
Theorem delete_removes_user uid w :
  faults w = [] ->
  let w1 := snd (delete uid w) in
  fst (delete uid w) = inr true /\
  rows_of uid (tokens w1) = [] /\
  (forall uid', uid' <> uid -> rows_of uid' (tokens w1) = rows_of uid' (tokens w)) /\
  fst (get_by_user_id uid w1) = inr None.
Proof.
  intros Hw w1. subst w1. rewrite delete_run. cbn [fst snd].
  rewrite (accepts_ok _ Hw), tokens_deleted, (accepts_ok _ Hw).
  split; [reflexivity|]. split; [apply without_user_rows|].
  split; [intros uid' Hne; now apply without_user_other|].
  apply get_by_user_id_ambiguous.
  assert (E : active_of_user uid (tokens (deleted uid w)) = []).
  { rewrite tokens_deleted, (accepts_ok _ Hw).
    pose proof (without_user_rows uid (tokens w)) as R.
    unfold rows_of, active_of_user in *.
    induction (without_user uid (tokens w)) as [|t l IH]; [reflexivity|].
    simpl in *. destruct (for_user uid t); [discriminate|]. simpl. now apply IH. }
  rewrite E. discriminate.
Qed.

Lemma updated_other uid uid' payload table :
  (forall t, user_id (payload t) = user_id t) ->
  uid' <> uid ->
  rows_of uid' (updated uid payload table) = rows_of uid' table.
Proof.
  intros Hu Hne. unfold rows_of, updated.
  induction table as [|t l IH]; [reflexivity|]. simpl.
  destruct (for_user uid t) eqn:E.
  - apply for_user_iff in E.
    assert (E1 : for_user uid' (payload t) = false).
    { apply not_true_iff_false. rewrite for_user_iff, Hu. congruence. }
    assert (E2 : for_user uid' t = false).
    { apply not_true_iff_false. rewrite for_user_iff. congruence. }
    now rewrite E1, E2.
  - destruct (for_user uid' t); now rewrite IH.
Qed.

Lemma payloads_keep_identity expires error now :
  keeps_identity (with_expiry expires now) /\
  keeps_identity (with_revoked now) /\
  keeps_identity (with_error error now).
Proof. repeat split. Qed.

Lemma updated_length uid payload table :
  length (updated uid payload table) = length table.
Proof. unfold updated. apply length_map. Qed.

Lemma written_framed uid payload w :
  keeps_identity payload ->
  framed uid w (inr (accepts w), written uid payload w).
Proof.
  intros K. unfold framed. cbn [fst snd]. rewrite tokens_written.
  split; [eauto|].
  destruct (accepts w); [|repeat split; reflexivity].
  split; [apply updated_length|].
  split; [intros uid' Hne; apply updated_other; [apply K | exact Hne]|].
  unfold updated. rewrite !map_map.
  repeat split; apply map_ext; intros t;
    destruct (for_user uid t); try reflexivity; apply K.
Qed.

(** X5: [update_expiry], [mark_revoked] and [set_error] never raise,
    whatever the store does; they keep the number of records, leave the
    records of every other user as they are, and change neither the owner,
    the provider account nor the encrypted secret of any record. *)
Theorem updates_are_framed uid w expires error :
  framed uid w (update_expiry uid expires w) /\
  framed uid w (mark_revoked uid w) /\
  framed uid w (set_error uid error w).
Proof.
  destruct (payloads_keep_identity expires error (clock w)) as (K1 & K2 & K3).
  rewrite update_expiry_run, mark_revoked_run, set_error_run.
  repeat split; now apply written_framed.
Qed.

(** X6: when the store fails, the lookups answer [None], the updates and
    [delete] answer [False], [create] (for data without an expiry, which
    reach the store) raises the store's error, and the table is left as it
    was. *)
Theorem store_failure_is_absorbed uid account data expires error w :
  accepts w = false ->
  get_by_user_id uid w = (inr None, sent DbSelect w) /\
  get_by_google_account account w = (inr None, sent DbSelect w) /\
  update_expiry uid expires w = (inr false, sent (DbUpdate uid) w) /\
  mark_revoked uid w = (inr false, sent (DbUpdate uid) w) /\
  set_error uid error w = (inr false, sent (DbUpdate uid) w) /\
  delete uid w = (inr false, sent (DbDelete uid) w) /\
  (new_access_token_expires_at data = None ->
   create data w = (inl store_unavailable, sent DbInsert w)) /\
  forall ev, tokens (sent ev w) = tokens w.
Proof.
  intros H.
  rewrite get_by_user_id_run, get_by_google_account_run, update_expiry_run,
    mark_revoked_run, set_error_run, delete_run, create_run.
  unfold written, deleted. rewrite H. repeat split. now intros ->.
Qed.

End RepositoryProperties.

(* ------------------------------------------------------------------ *)
(** ** The state token: what is accepted *)

Module StateTokenProperties.
Import PyStr PyStrFacts Security StateTokenFacts.

Local Open Scope string_scope.

(** A split with at least two parts cuts the string at its first
    separator. *)
Lemma split_cons_inv sep s : forall a b l,
  split sep s = a :: b :: l ->
  exists s', s = a ++ String sep s' /\ split sep s' = b :: l /\
             no_sep sep a = true.
Proof.
  induction s as [|c s IH]; intros a b l; simpl; [discriminate|].
  destruct (Ascii.eqb_spec c sep) as [->|Hc].
  - intros [= <- E]. exists s. now repeat split.
  - destruct (split sep s) as [|p ps] eqn:E; [discriminate|].
    intros [= <- ->]. destruct (IH p b l eq_refl) as (s' & -> & E' & Hp).
    exists s'. repeat split; [exact E'|].
    rewrite no_sep_cons, Hp. apply Ascii.eqb_neq in Hc. now rewrite Hc.
Qed.

Lemma split_three sep s a b c :
  split sep s = [a; b; c] ->
  s = a ++ String sep (b ++ String sep c) /\
  no_sep sep a = true /\ no_sep sep b = true /\ no_sep sep c = true.
Proof.
  intros E. destruct (split_cons_inv _ _ _ _ _ E) as (s1 & -> & E1 & Ha).
  destruct (split_cons_inv _ _ _ _ _ E1) as (s2 & -> & E2 & Hb).
  destruct (split_singleton _ _ _ E2) as [-> Hc]. now repeat split.
Qed.

Section WithPrimitives.
Context {P : Primitives}.

(** What an accepted state looks like; no assumption on the primitives. *)
Lemma validate_state_some_inv self now state uid :
  validate_state self now state = inr (Some uid) ->
  exists r ts t,
    state = (let payload := r ++ "." ++ uid ++ "." ++ ts in
             payload ++ "." ++ _sign self payload) /\
    no_sep dot r = true /\ no_sep dot uid = true /\ no_sep dot ts = true /\
    py_int ts = inr t /\ (now - t <= ttl_seconds self)%Z.
Proof.
  unfold validate_state, validate_state_body, rsplit1.
  destruct (rsplit_last dot state) as [[payload signature]|] eqn:E;
    [|discriminate].
  destruct (rsplit_last_some _ _ _ _ E) as [-> Hsig].
  unfold compare_digest.
  destruct (is_ascii signature && is_ascii (_sign self payload));
    [|discriminate].
  simpl. destruct (String.eqb_spec signature (_sign self payload)) as [->|];
    [|discriminate].
  simpl.
  destruct (split dot payload) as [|r [|u [|ts [|x l]]]] eqn:Es;
    try discriminate.
  destruct (py_int ts) as [e|t] eqn:Et; [discriminate|]. simpl.
  destruct (Z.gtb_spec (now - t) (ttl_seconds self)); [discriminate|].
  intros [= <-]. destruct (split_three _ _ _ _ _ Es) as (-> & Hr & Hu & Hts).
  exists r, ts, t. cbv zeta. repeat split; try assumption; lia.
Qed.

(** X7: a state accepted at some time is accepted at every earlier time:
    the age check has no lower bound, so a state whose timestamp lies in
    the future is accepted as well. *)
Theorem validate_state_earlier_clock self now now' state uid :
  validate_state self now state = inr (Some uid) ->
  (now' <= now)%Z ->
  validate_state self now' state = inr (Some uid).
Proof.
  unfold validate_state, validate_state_body, rsplit1.
  destruct (rsplit_last dot state) as [[payload signature]|];
    [|discriminate].
  destruct (compare_digest signature (_sign self payload)) as [e|[|]];
    try discriminate.
  simpl.
  destruct (split dot payload) as [|r [|u [|ts [|x l]]]]; try discriminate.
  destruct (py_int ts) as [e|t]; [discriminate|]. simpl.
  destruct (Z.gtb_spec (now - t) (ttl_seconds self)); [discriminate|].
  intros [= <-] Hle.
  destruct (Z.gtb_spec (now' - t) (ttl_seconds self)); [lia | reflexivity].
Qed.

Context {OK : PrimitivesOk P}.


End WithPrimitives.
End StateTokenProperties.

(* ------------------------------------------------------------------ *)
(** ** The encryptor: keys *)

Module KeyProperties.
Import Security Routes.

Local Open Scope string_scope.

Section WithPrimitives.
Context {P : Primitives}.

Lemma os_urandom_length n r : length (fst (os_urandom n r)) = n.
Proof. unfold os_urandom. cbn [fst]. now rewrite length_map, length_seq. Qed.

(** X9: [TokenEncryptor] accepts the Base64 text of a key exactly when the
    key has 32 bytes, and then holds that key; on any text, it either
    holds the 32 bytes that the text decodes to, or raises a
    [TokenEncryptionError] of operation "initialization". *)
Theorem TokenEncryptor_init_key_length :
  (forall key,
     length key = 32 ->
     TokenEncryptor_init (Base64.b64encode key)
     = inr (mkTokenEncryptor key (_generate_key_id key))) /\
  (forall key,
     length key <> 32 ->
     exists reason,
       TokenEncryptor_init (Base64.b64encode key)
       = inl (TokenEncryptionError "initialization" reason)) /\
  (forall text,
     match TokenEncryptor_init text with
     | inr enc =>
         Base64.b64decode text = inr (aesgcm enc) /\ length (aesgcm enc) = 32
     | inl e => exists reason, e = TokenEncryptionError "initialization" reason
     end).
Proof.
  unfold TokenEncryptor_init, try_except, bind. repeat split.
  - intros key H. rewrite Base64Facts.b64decode_b64encode, H. reflexivity.
  - intros key H. rewrite Base64Facts.b64decode_b64encode.
    apply Nat.eqb_neq in H. rewrite H. simpl. eauto.
  - intros text. destruct (Base64.b64decode text) as [e|key]; [simpl; eauto|].
    destruct (Nat.eqb_spec (length key) 32) as [E|E]; simpl; eauto.
Qed.

(** X10: a key made by [generate_encryption_key] is accepted by
    [TokenEncryptor], which then holds the 32 bytes that were drawn. *)
Theorem generated_key_is_accepted r :
  TokenEncryptor_init (fst (generate_encryption_key r))
  = inr (mkTokenEncryptor (fst (os_urandom 32 r))
           (_generate_key_id (fst (os_urandom 32 r)))).
Proof.
  unfold generate_encryption_key.
  change (fst (let '(key, r') := os_urandom 32 r in (Base64.b64encode key, r')))
    with (Base64.b64encode (fst (os_urandom 32 r))).
  unfold TokenEncryptor_init, try_except, bind.
  rewrite Base64Facts.b64decode_b64encode, os_urandom_length. reflexivity.
Qed.

End WithPrimitives.
End KeyProperties.

(* ------------------------------------------------------------------ *)
(** ** The services: connecting, status and revocation *)

Module ServiceProperties.
Import Models World TokenRepository Provider Security Services Routes Invariants.
Import RepositoryFacts RepositoryProperties LifecycleFacts.

Local Open Scope string_scope.

Section WithDependencies.
Context {P : Primitives}.
Variable G : Google.
Variable encryptor : TokenEncryptor.
Variable state_manager : OAuthStateManager.

Lemma validate_state_inr self now state :
  exists r, validate_state self now state = inr r.
Proof.
  unfold validate_state, try_except.
  destruct (validate_state_body self now state); eauto.
Qed.

(** X11: unless the state validates to a non-empty user id,
    [handle_callback] raises [OAuthStateError] before anything else
    happens: no call to the provider, no request to the store, no draw of
    entropy. *)
Theorem callback_rejects_invalid_state code state w :
  (forall uid,
     validate_state state_manager (clock w) state = inr (Some uid) -> uid = "") ->
  handle_callback G encryptor state_manager code state w
  = (inl (OAuthStateError "Invalid or expired state parameter"), w).
Proof.
  intros H. unfold handle_callback, mbind, now, lift.
  destruct (validate_state_inr state_manager (clock w) state) as [r E].
  rewrite E in *. destruct r as [uid|]; [|reflexivity].
  now rewrite (H uid eq_refl).
Qed.

(** The run of [handle_callback] on a store that answers, once the state
    is valid, the provider has answered, the account is not owned by
    someone else and the encryption has succeeded: the user's previous
    records are deleted if the lookup has found one, then [create] inserts
    the new record, or raises when the exchanged token has an expiry. *)
Lemma handle_callback_stores code state w uid oauth info rt enc :
  validate_state state_manager (clock w) state = inr (Some uid) ->
  uid <> "" ->
  fetch_token G code = inr oauth ->
  userinfo G (access_token oauth) = inr info ->
  refresh_token oauth = Some rt ->
  faults w = [] ->
  (forall t, found (active_of_account (account_id info) (tokens w)) = Some t ->
             user_id t = uid) ->
  encrypt_with encryptor (fst (os_urandom 12 (rng w))) rt = inr enc ->
  let out := handle_callback G encryptor state_manager code state w in
  let base := match found (active_of_user uid (tokens w)) with
              | Some _ => without_user uid (tokens w)
              | None => tokens w
              end in
  faults (snd out) = [] /\
  match expires_at oauth with
  | None =>
      fst out = inr (mkCallbackResponse true uid (email info)
                       "Google Calendar connected successfully") /\
      tokens (snd out)
      = (base ++ [callback_record uid info oauth enc (clock w)])%list
  | Some _ =>
      fst out = inl not_serializable /\ tokens (snd out) = base
  end.
Proof.
  intros Hval Hne Hfetch Hinfo Hrt Hw Hown Henc out base. subst out base.
  unfold handle_callback, mbind, now, lift. rewrite Hval.
  destruct uid as [|ch u]; [contradiction|].
  unfold exchange_code, get_user_info, mbind, log, lift.
  rewrite Hfetch, Hinfo, get_by_google_account_ok by exact Hw.
  cbn [tokens add_event].
  assert (Hno : match found (active_of_account (account_id info) (tokens w)) with
                | Some e => negb (String.eqb (user_id e) (String ch u))
                | None => false
                end = false).
  { destruct (found _) as [e|]; [|reflexivity].
    now rewrite (Hown e eq_refl), String.eqb_refl. }
  rewrite Hno. unfold encrypt_refresh_token, mbind, urandom. cbn [rng add_event].
  destruct (os_urandom 12 (rng w)) as [nonce r'] eqn:Er. cbn [fst] in Henc.
  rewrite Hrt. unfold lift. rewrite Henc.
  destruct enc as [[c n] k]. cbn [callback_record].
  rewrite get_by_user_id_ok by exact Hw. cbn [tokens add_event].
  destruct (found (active_of_user (String ch u) (tokens w))) as [old|].
  - rewrite delete_run. unfold deleted.
    rewrite accepts_ok, sent_ok by exact Hw. unfold mret.
    rewrite create_run. cbn [new_access_token_expires_at].
    destruct (expires_at oauth) as [expires|].
    + cbn [fst snd tokens faults with_rows add_event]. now repeat split.
    + rewrite accepts_ok, sent_ok by exact Hw.
      cbn [fst snd tokens faults with_rows add_event clock]. now repeat split.
  - unfold mret. rewrite create_run. cbn [new_access_token_expires_at].
    destruct (expires_at oauth) as [expires|].
    + cbn [fst snd tokens faults with_rows add_event]. now repeat split.
    + rewrite accepts_ok, sent_ok by exact Hw.
      cbn [fst snd tokens faults with_rows add_event clock]. now repeat split.
Qed.

(** On a store that answers, [handle_callback] either raises and leaves
    the table as it was, or runs to the insertion of the record. *)
Lemma handle_callback_cases code state w :
  faults w = [] ->
  let out := handle_callback G encryptor state_manager code state w in
  ((exists e, fst out = inl e) /\ tokens (snd out) = tokens w) \/
  (exists uid oauth info rt enc,
     validate_state state_manager (clock w) state = inr (Some uid) /\
     uid <> "" /\
     fetch_token G code = inr oauth /\
     userinfo G (access_token oauth) = inr info /\
     refresh_token oauth = Some rt /\
     (forall t, found (active_of_account (account_id info) (tokens w)) = Some t ->
                user_id t = uid) /\
     encrypt_with encryptor (fst (os_urandom 12 (rng w))) rt = inr enc).
Proof.
  intros Hw out. subst out.
  destruct (validate_state_inr state_manager (clock w) state) as [r Hval].
  destruct r as [[|ch u]|];
    try (left; unfold handle_callback, mbind, now, lift; rewrite Hval;
         cbn [fst snd mraise]; split; [eauto | reflexivity]).
  destruct (fetch_token G code) as [e|oauth] eqn:Hfetch.
  { left. unfold handle_callback, mbind, now, lift. rewrite Hval.
    unfold exchange_code, mbind, log, lift. rewrite Hfetch.
    cbn [fst snd]. split; [eauto | reflexivity]. }
  destruct (userinfo G (access_token oauth)) as [e|info] eqn:Hinfo.
  { left. unfold handle_callback, mbind, now, lift. rewrite Hval.
    unfold exchange_code, get_user_info, mbind, log, lift.
    rewrite Hfetch, Hinfo. cbn [fst snd]. split; [eauto | reflexivity]. }
  destruct (match found (active_of_account (account_id info) (tokens w)) with
            | Some e => negb (String.eqb (user_id e) (String ch u))
            | None => false
            end) eqn:Hconflict.
  { left. unfold handle_callback, mbind, now, lift. rewrite Hval.
    unfold exchange_code, get_user_info, mbind, log, lift.
    rewrite Hfetch, Hinfo, get_by_google_account_ok by exact Hw.
    cbn [tokens add_event]. rewrite Hconflict.
    cbn [fst snd mraise]. split; [eauto | reflexivity]. }
  destruct (refresh_token oauth) as [rt|] eqn:Hrt.
  2:{ left. unfold handle_callback, mbind, now, lift. rewrite Hval.
      unfold exchange_code, get_user_info, mbind, log, lift.
      rewrite Hfetch, Hinfo, get_by_google_account_ok by exact Hw.
      cbn [tokens add_event]. rewrite Hconflict.
      unfold encrypt_refresh_token, mbind, urandom. cbn [rng add_event].
      destruct (os_urandom 12 (rng w)) as [nonce r']. rewrite Hrt.
      cbn [fst snd mraise]. split; [eauto | reflexivity]. }
  destruct (encrypt_with encryptor (fst (os_urandom 12 (rng w))) rt)
    as [e|enc] eqn:Henc.
  { left. unfold handle_callback, mbind, now, lift. rewrite Hval.
    unfold exchange_code, get_user_info, mbind, log, lift.
    rewrite Hfetch, Hinfo, get_by_google_account_ok by exact Hw.
    cbn [tokens add_event]. rewrite Hconflict.
    unfold encrypt_refresh_token, mbind, urandom. cbn [rng add_event].
    destruct (os_urandom 12 (rng w)) as [nonce r']. cbn [fst] in Henc.
    rewrite Hrt. unfold lift. rewrite Henc.
    cbn [fst snd]. split; [eauto | reflexivity]. }
  right. exists (String ch u), oauth, info, rt, enc.
  repeat split; try assumption; try discriminate.
  intros t Ht. rewrite Ht in Hconflict.
  apply negb_false_iff, String.eqb_eq in Hconflict. exact Hconflict.
Qed.

Lemma callback_record_fields uid info oauth enc now :
  let row := callback_record uid info oauth enc now in
  user_id row = uid /\ google_email row = email info /\
  google_account_id row = account_id info /\ is_active row = true /\
  last_error row = None /\ revoked_at row = None /\
  connected_at row = Some now /\
  encrypted_refresh_token row = fst (fst enc) /\
  encryption_nonce row = snd (fst enc).
Proof. destruct enc as [[c n] k]. now repeat split. Qed.

(** X12: the outcomes of [handle_callback] on a store that answers.  It
    reports success only for a token without an expiry, and then for the
    user of the state, with a new active record of that user at the end of
    the table, after the old table or after the old table without the
    user's previous records.  When it raises, the table is as it was,
    except for the [TypeError] of [create] on a token with an expiry, which
    comes after the deletion: then the table is the old one without the
    records of the user of the state. *)
Theorem callback_outcomes code state w :
  faults w = [] ->
  let out := handle_callback G encryptor state_manager code state w in
  match fst out with
  | inl e =>
      tokens (snd out) = tokens w \/
      (e = not_serializable /\
       exists uid oauth expires,
         validate_state state_manager (clock w) state = inr (Some uid) /\
         fetch_token G code = inr oauth /\
         expires_at oauth = Some expires /\
         tokens (snd out) = without_user uid (tokens w))
  | inr response =>
      callback_success response = true /\
      validate_state state_manager (clock w) state
      = inr (Some (callback_user_id response)) /\
      (forall oauth, fetch_token G code = inr oauth -> expires_at oauth = None) /\
      exists base row,
        tokens (snd out) = (base ++ [row])%list /\
        (base = tokens w \/
         base = without_user (callback_user_id response) (tokens w)) /\
        user_id row = callback_user_id response /\
        google_email row = callback_google_email response /\
        is_active row = true
  end.
Proof.
  intros Hw out.
  destruct (handle_callback_cases code state w Hw) as [[[e He] Ht]|H].
  - fold out in He, Ht. rewrite He. now left.
  - destruct H as (uid & oauth & info & rt & enc & Hval & Hne & Hfetch & Hinfo
                   & Hrt & Hown & Henc).
    destruct (handle_callback_stores code state w uid oauth info rt enc
                Hval Hne Hfetch Hinfo Hrt Hw Hown Henc) as (_ & Hrun).
    fold out in Hrun.
    destruct (expires_at oauth) as [expires|] eqn:Hexp.
    + destruct Hrun as [Hout Htok]. rewrite Hout.
      destruct (found (active_of_user uid (tokens w))); [|now left].
      right. split; [reflexivity|]. exists uid, oauth, expires. now repeat split.
    + destruct Hrun as [Hout Htok]. rewrite Hout.
      cbn [callback_success callback_user_id callback_google_email].
      split; [reflexivity|]. split; [exact Hval|]. split.
      { intros oauth' H'. rewrite Hfetch in H'. now injection H' as <-. }
      destruct (callback_record_fields uid info oauth enc (clock w))
        as (F1 & F2 & _ & F4 & _).
      exists (match found (active_of_user uid (tokens w)) with
              | Some _ => without_user uid (tokens w)
              | None => tokens w
              end), (callback_record uid info oauth enc (clock w)).
      split; [exact Htok|].
      split; [destruct (found (active_of_user uid (tokens w)));
              [now right | now left]|].
      now repeat split.
Qed.

Lemma active_of_user_app uid a b :
  active_of_user uid (a ++ b) = (active_of_user uid a ++ active_of_user uid b)%list.
Proof. apply filter_app. Qed.

Lemma active_of_account_app acc a b :
  active_of_account acc (a ++ b)
  = (active_of_account acc a ++ active_of_account acc b)%list.
Proof. apply filter_app. Qed.

Lemma none_in_nil {A} (l : list A) : (forall x, ~ In x l) -> l = [].
Proof. destruct l as [|a l]; [reflexivity|]. intros H. now destruct (H a); left. Qed.

Lemma active_without_user uid table :
  active_of_user uid (without_user uid table) = [].
Proof.
  apply none_in_nil. intros x Hx.
  apply active_of_user_in in Hx. destruct Hx as (Hin & Hu & _).
  unfold without_user in Hin. apply filter_In in Hin. rewrite Hu in Hin.
  now destruct Hin.
Qed.

Lemma active_without_other uid uid' table :
  uid' <> uid ->
  active_of_user uid' (without_user uid table) = active_of_user uid' table.
Proof.
  intros Hne. unfold active_of_user, without_user.
  induction table as [|t l IH]; [reflexivity|]. simpl.
  destruct (for_user uid t) eqn:E; simpl.
  - apply for_user_iff in E.
    assert (E' : for_user uid' t = false).
    { apply not_true_iff_false. rewrite for_user_iff. congruence. }
    now rewrite E'.
  - now rewrite IH.
Qed.

(** The base under the new record holds no active record of the user. *)
Lemma callback_base_no_active uid table :
  length (active_of_user uid table) <= 1 ->
  active_of_user uid
    (match found (active_of_user uid table) with
     | Some _ => without_user uid table
     | None => table
     end) = [].
Proof.
  intros Hlen. destruct (found (active_of_user uid table)) eqn:E.
  - apply active_without_user.
  - destruct (active_of_user uid table) as [|a [|b l]];
      [reflexivity | discriminate | simpl in Hlen; lia].
Qed.

(** Reconnecting, with a token that has no expiry, while the store fails
    on the lookup of the user's record: the failure is taken for "no
    record", nothing is deleted and a second active record is inserted;
    [handle_callback] reports success, but with two active records the user
    is from then on reported as not connected. *)
Lemma reconnect_with_failed_lookup code state w uid oauth info rt enc old :
  validate_state state_manager (clock w) state = inr (Some uid) ->
  uid <> "" ->
  fetch_token G code = inr oauth ->
  userinfo G (access_token oauth) = inr info ->
  refresh_token oauth = Some rt ->
  expires_at oauth = None ->
  encrypt_with encryptor (fst (os_urandom 12 (rng w))) rt = inr enc ->
  (forall t, found (active_of_account (account_id info) (tokens w)) = Some t ->
             user_id t = uid) ->
  active_of_user uid (tokens w) = [old] ->
  faults w = [false; true] ->
  let out := handle_callback G encryptor state_manager code state w in
  let row := callback_record uid info oauth enc (clock w) in
  fst out = inr (mkCallbackResponse true uid (email info)
                   "Google Calendar connected successfully") /\
  tokens (snd out) = (tokens w ++ [row])%list /\
  active_of_user uid (tokens (snd out)) = [old; row] /\
  faults (snd out) = [] /\
  fst (get_by_user_id uid (snd out)) = inr None.
Proof.
  intros Hval Hne Hfetch Hinfo Hrt Hexp Henc Hown Hold Hw out row.
  assert (E : out = (inr (mkCallbackResponse true uid (email info)
                            "Google Calendar connected successfully"),
                     mkWorld (tokens w ++ [row]) []
                       (snd (os_urandom 12 (rng w))) (clock w)
                       (trace w ++ [ExchangeCode code]
                          ++ [GetUserInfo (access_token oauth)] ++ [DbSelect]
                          ++ [Urandom 12] ++ [DbSelect] ++ [DbInsert])%list)).
  { subst out row. destruct w as [table fs r now tr].
    cbn [faults tokens rng clock trace] in *. subst fs.
    unfold handle_callback, mbind, World.now, lift. cbn [clock]. rewrite Hval.
    destruct uid as [|ch u]; [contradiction|].
    unfold exchange_code, get_user_info, mbind, log, lift.
    rewrite Hfetch, Hinfo, get_by_google_account_run.
    cbv [accepts sent add_event with_rows faults tokens rng clock trace tl].
    assert (Hno : match found (active_of_account (account_id info) table) with
                  | Some e => negb (String.eqb (user_id e) (String ch u))
                  | None => false
                  end = false).
    { destruct (found _) as [e|]; [|reflexivity].
      now rewrite (Hown e eq_refl), String.eqb_refl. }
    rewrite Hno. unfold encrypt_refresh_token, mbind, urandom.
    cbv [rng tokens faults clock trace].
    destruct (os_urandom 12 r) as [nonce r'] eqn:Er. cbn [fst snd] in *.
    rewrite Hrt. unfold lift. rewrite Henc. destruct enc as [[c n] k].
    rewrite get_by_user_id_run.
    cbv [accepts sent add_event with_rows faults tokens rng clock trace tl].
    unfold mret. rewrite create_run.
    cbn [callback_record new_access_token_expires_at]. rewrite Hexp.
    cbv [accepts sent add_event with_rows faults tokens rng clock trace tl].
    rewrite <- !app_assoc. reflexivity. }
  rewrite E. cbn [fst snd tokens faults].
  destruct (callback_record_fields uid info oauth enc (clock w))
    as (F1 & _ & _ & F4 & _). fold row in F1, F4.
  assert (Ha : active_of_user uid (tokens w ++ [row]) = [old; row]).
  { rewrite active_of_user_app, Hold. unfold active_of_user. cbn [filter app].
    unfold for_user. now rewrite F1, F4, String.eqb_refl. }
  split; [reflexivity|]. split; [reflexivity|]. split; [exact Ha|].
  split; [reflexivity|].
  rewrite get_by_user_id_run. cbv [accepts faults]. cbn [fst tokens].
  now rewrite Ha.
Qed.

Lemma active_of_account_in account table t :
  In t (active_of_account account table) <->
  In t table /\ google_account_id t = account /\ is_active t = true.
Proof.
  unfold active_of_account. rewrite filter_In, andb_true_iff, String.eqb_eq.
  tauto.
Qed.

Lemma active_of_user_in_iff uid table t :
  In t (active_of_user uid table) <->
  In t table /\ user_id t = uid /\ is_active t = true.
Proof.
  unfold active_of_user. rewrite filter_In, andb_true_iff, for_user_iff. tauto.
Qed.

Lemma without_user_in uid table t :
  In t (without_user uid table) <-> In t table /\ user_id t <> uid.
Proof.
  unfold without_user. rewrite filter_In, negb_true_iff.
  rewrite <- not_true_iff_false, for_user_iff. tauto.
Qed.

Lemma active_of_account_without_user account uid table :
  length (active_of_account account (without_user uid table))
  <= length (active_of_account account table).
Proof.
  unfold active_of_account, without_user.
  induction table as [|t l IH]; [reflexivity|]. simpl.
  destruct (for_user uid t); simpl;
    destruct (String.eqb (google_account_id t) account && is_active t);
    simpl; lia.
Qed.

(** Connecting a user keeps the table in order: the base under the new
    record is the table, or the table without the user's records. *)
Lemma invariant_after_connect uid table row :
  store_invariant table ->
  user_id row = uid -> is_active row = true ->
  (forall t, found (active_of_account (google_account_id row) table) = Some t ->
             user_id t = uid) ->
  store_invariant
    ((match found (active_of_user uid table) with
      | Some _ => without_user uid table
      | None => table
      end) ++ [row]).
Proof.
  intros [Hu Ha] Hrow Hact Hown.
  pose proof (callback_base_no_active uid table (Hu uid)) as Hbase.
  set (base := match found (active_of_user uid table) with
               | Some _ => without_user uid table
               | None => table
               end) in *.
  assert (Hsub : forall x, In x base -> In x table).
  { intros x. subst base. destruct (found (active_of_user uid table)); [|tauto].
    rewrite without_user_in. tauto. }
  split.
  - intros uid'. rewrite active_of_user_app.
    destruct (String.eqb_spec uid' uid) as [->|Hne].
    + rewrite Hbase. unfold active_of_user. cbn [filter app].
      destruct (for_user uid row && is_active row); simpl; lia.
    + assert (E : active_of_user uid' [row] = []).
      { apply none_in_nil. intros x Hx. apply active_of_user_in_iff in Hx.
        destruct Hx as ([<-|[]] & Hx & _). congruence. }
      rewrite E, app_nil_r. subst base.
      destruct (found (active_of_user uid table));
        [rewrite active_without_other by exact Hne|]; apply Hu.
  - intros account. rewrite active_of_account_app.
    destruct (String.eqb_spec (google_account_id row) account) as [<-|Hne].
    + assert (E : active_of_account (google_account_id row) base = []).
      { apply none_in_nil. intros x Hx. apply active_of_account_in in Hx.
        destruct Hx as (Hin & Hacc & Hx).
        assert (Hx' : In x (active_of_account (google_account_id row) table)).
        { apply active_of_account_in. auto. }
        specialize (Ha (google_account_id row)).
        destruct (active_of_account (google_account_id row) table)
          as [|y [|z l]]; [destruct Hx' | | simpl in Ha; lia].
        destruct Hx' as [<-|[]]. specialize (Hown y eq_refl).
        assert (Hin' : In y (active_of_user uid base)).
        { apply active_of_user_in_iff. auto. }
        rewrite Hbase in Hin'. destruct Hin'. }
      rewrite E. unfold active_of_account. cbn [filter app].
      destruct (_ && _); simpl; lia.
    + assert (E : active_of_account account [row] = []).
      { apply none_in_nil. intros x Hx. apply active_of_account_in in Hx.
        destruct Hx as ([<-|[]] & Hx & _). congruence. }
      rewrite E, app_nil_r. subst base.
      destruct (found (active_of_user uid table)); [|apply Ha].
      etransitivity; [apply active_of_account_without_user | apply Ha].
Qed.

(** Deleting a user's records keeps the table in order. *)
Lemma invariant_without_user uid table :
  store_invariant table -> store_invariant (without_user uid table).
Proof.
  intros [Hu Ha]. split.
  - intros uid'. destruct (String.eqb_spec uid' uid) as [->|Hne].
    + rewrite active_without_user. simpl. lia.
    + rewrite active_without_other by exact Hne. apply Hu.
  - intros account.
    etransitivity; [apply active_of_account_without_user | apply Ha].
Qed.

(** X14: on a store that answers, [handle_callback] keeps the table in
    order, whatever it is given and whatever the provider answers: if every
    user and every provider account had at most one active record before,
    so they have afterwards. *)
Theorem callback_preserves_invariant code state w :
  faults w = [] ->
  store_invariant (tokens w) ->
  store_invariant
    (tokens (snd (handle_callback G encryptor state_manager code state w))).
Proof.
  intros Hw Hinv.
  destruct (handle_callback_cases code state w Hw) as [[_ Ht]|H].
  - now rewrite Ht.
  - destruct H as (uid & oauth & info & rt & enc & Hval & Hne & Hfetch & Hinfo
                   & Hrt & Hown & Henc).
    destruct (handle_callback_stores code state w uid oauth info rt enc
                Hval Hne Hfetch Hinfo Hrt Hw Hown Henc) as (_ & Hrun).
    destruct (expires_at oauth) as [expires|]; destruct Hrun as [_ Htok];
      rewrite Htok.
    + destruct (found (active_of_user uid (tokens w)));
        [now apply invariant_without_user | exact Hinv].
    + destruct (callback_record_fields uid info oauth enc (clock w))
        as (F1 & _ & F3 & F4 & _).
      apply invariant_after_connect; try assumption.
      now rewrite F3.
Qed.

(** X15: when the code exchange returns no refresh token, a callback with
    a valid state raises (the account conflict, or a [TokenEncryptionError]
    of operation "encryption") and stores nothing, whatever the store
    does. *)
Theorem callback_without_refresh_token code state w uid oauth info :
  validate_state state_manager (clock w) state = inr (Some uid) ->
  uid <> "" ->
  fetch_token G code = inr oauth ->
  userinfo G (access_token oauth) = inr info ->
  refresh_token oauth = None ->
  let out := handle_callback G encryptor state_manager code state w in
  (fst out = inl (OAuthStateError
                    "This Google account is already connected to another user")
   \/ fst out = inl (TokenEncryptionError "encryption"
                       "'NoneType' object has no attribute 'encode'")) /\
  tokens (snd out) = tokens w.
Proof.
  intros Hval Hne Hfetch Hinfo Hrt out. subst out.
  unfold handle_callback, mbind, now, lift. rewrite Hval.
  destruct uid as [|ch u]; [contradiction|].
  unfold exchange_code, get_user_info, mbind, log, lift.
  rewrite Hfetch, Hinfo, get_by_google_account_run.
  destruct (match (if accepts _ then _ else None) with
            | Some e => negb (String.eqb (user_id e) (String ch u))
            | None => false
            end).
  - cbn [fst snd mraise]. split; [now left | reflexivity].
  - unfold encrypt_refresh_token, mbind, urandom.
    destruct (os_urandom 12 _) as [nonce r']. rewrite Hrt.
    cbn [fst snd mraise]. split; [now right | reflexivity].
Qed.

(** X16: reconnecting is not atomic: the user's previous records are
    deleted before the new one is inserted, and the insertion can fail.
    With a token that has an expiry, on a store that answers every request,
    [create] raises its [TypeError] after the deletion; with a token
    without an expiry, the same happens with the store's error when the
    store answers the lookups and the deletion but fails on the insertion.
    In both cases [handle_callback] raises and the user is left without any
    record. *)
Theorem reconnect_not_atomic code state w uid oauth info rt enc old :
  validate_state state_manager (clock w) state = inr (Some uid) ->
  uid <> "" ->
  fetch_token G code = inr oauth ->
  userinfo G (access_token oauth) = inr info ->
  refresh_token oauth = Some rt ->
  encrypt_with encryptor (fst (os_urandom 12 (rng w))) rt = inr enc ->
  (forall t, found (active_of_account (account_id info) (tokens w)) = Some t ->
             user_id t = uid) ->
  active_of_user uid (tokens w) = [old] ->
  let out := handle_callback G encryptor state_manager code state w in
  (forall expires,
     expires_at oauth = Some expires -> faults w = [] ->
     fst out = inl not_serializable /\
     tokens (snd out) = without_user uid (tokens w) /\
     rows_of uid (tokens (snd out)) = []) /\
  (forall rest,
     expires_at oauth = None ->
     faults w = false :: false :: false :: true :: rest ->
     fst out = inl store_unavailable /\
     tokens (snd out) = without_user uid (tokens w) /\
     rows_of uid (tokens (snd out)) = []).
Proof.
  intros Hval Hne Hfetch Hinfo Hrt Henc Hown Hold out. split.
  - intros expires Hexp Hw.
    destruct (handle_callback_stores code state w uid oauth info rt enc
                Hval Hne Hfetch Hinfo Hrt Hw Hown Henc) as (_ & Hrun).
    fold out in Hrun. rewrite Hexp, Hold in Hrun. cbn [found] in Hrun.
    destruct Hrun as [Hout Htok]. rewrite Hout, Htok.
    repeat split. apply without_user_rows.
  - intros rest Hexp Hw.
    assert (E : out = (inl store_unavailable,
                       mkWorld (without_user uid (tokens w)) rest
                         (snd (os_urandom 12 (rng w))) (clock w)
                         (trace w ++ [ExchangeCode code]
                            ++ [GetUserInfo (access_token oauth)] ++ [DbSelect]
                            ++ [Urandom 12] ++ [DbSelect] ++ [DbDelete uid]
                            ++ [DbInsert])%list)).
    { subst out. destruct w as [table fs r now tr].
      cbn [faults tokens rng clock trace] in *. subst fs.
      unfold handle_callback, mbind, World.now, lift. cbn [clock]. rewrite Hval.
      destruct uid as [|ch u]; [contradiction|].
      unfold exchange_code, get_user_info, mbind, log, lift.
      rewrite Hfetch, Hinfo, get_by_google_account_run.
      cbv [accepts sent add_event with_rows faults tokens rng clock trace tl].
      assert (Hno : match found (active_of_account (account_id info) table) with
                    | Some e => negb (String.eqb (user_id e) (String ch u))
                    | None => false
                    end = false).
      { destruct (found _) as [e|]; [|reflexivity].
        now rewrite (Hown e eq_refl), String.eqb_refl. }
      rewrite Hno. unfold encrypt_refresh_token, mbind, urandom.
      cbv [rng tokens faults clock trace].
      destruct (os_urandom 12 r) as [nonce r'] eqn:Er. cbn [fst snd] in *.
      rewrite Hrt. unfold lift. rewrite Henc. destruct enc as [[c n] k].
      rewrite get_by_user_id_run.
      cbv [accepts sent add_event with_rows faults tokens rng clock trace tl].
      rewrite Hold. cbn [found]. rewrite delete_run.
      cbv [deleted accepts sent add_event with_rows faults tokens rng clock trace tl].
      unfold mret. rewrite create_run.
      cbn [new_access_token_expires_at]. rewrite Hexp.
      cbv [accepts sent add_event with_rows faults tokens rng clock trace tl].
      rewrite <- !app_assoc. reflexivity. }
    rewrite E. cbn [fst snd tokens]. repeat split. apply without_user_rows.
Qed.

Lemma lookup_none uid w :
  accepts w = false \/ length (active_of_user uid (tokens w)) <> 1 ->
  get_by_user_id uid w = (inr None, sent DbSelect w).
Proof.
  intros H. rewrite get_by_user_id_run. destruct H as [->|H]; [reflexivity|].
  destruct (accepts w); [|reflexivity].
  destruct (active_of_user uid (tokens w)) as [|a [|b l]];
    try reflexivity. now contradiction H.
Qed.

(** X17: when the store fails, or the user has no active record or more
    than one, the user counts as not connected everywhere:
    [revoke_connection] answers [success=False], [_get_calendar_client]
    raises [CalendarNotConnectedError], and the two status endpoints answer
    "not connected"; the only effect is the lookup, so the provider is not
    called and nothing is written. *)
Theorem not_connected_without_single_record uid w :
  accepts w = false \/ length (active_of_user uid (tokens w)) <> 1 ->
  revoke_connection G encryptor uid w
  = (inr (mkRevokeResponse false "No Google Calendar connection found"),
     sent DbSelect w) /\
  _get_calendar_client G encryptor uid w
  = (inl (CalendarNotConnectedError uid), sent DbSelect w) /\
  get_connection_status uid w
  = (inr (mkConnectionStatusResponse false None None [] None false),
     sent DbSelect w) /\
  check_user_connection uid w
  = (inr (NotConnected uid "User has not connected Google Calendar"),
     sent DbSelect w).
Proof.
  intros H.
  unfold revoke_connection, _get_calendar_client, get_connection_status,
    check_user_connection, mbind.
  rewrite (lookup_none uid w H). now repeat split.
Qed.

(** X18: once a user has revoked on a store that answers, the user is not
    connected any more: the next [_get_calendar_client] raises
    [CalendarNotConnectedError] without a refresh call, the status is "not
    connected", and a second [revoke_connection] answers [success=False]. *)
Theorem revoked_user_is_disconnected uid w tok :
  fst (get_by_user_id uid w) = inr (Some tok) ->
  faults w = [] ->
  let w1 := snd (revoke_connection G encryptor uid w) in
  fst (_get_calendar_client G encryptor uid w1)
  = inl (CalendarNotConnectedError uid) /\
  refresh_calls (snd (_get_calendar_client G encryptor uid w1))
  = refresh_calls w1 /\
  fst (get_connection_status uid w1)
  = inr (mkConnectionStatusResponse false None None [] None false) /\
  fst (revoke_connection G encryptor uid w1)
  = inr (mkRevokeResponse false "No Google Calendar connection found") /\
  tokens (snd (revoke_connection G encryptor uid w1)) = tokens w1.
Proof.
  intros Hread Hw w1.
  destruct (revoke_connection_run G encryptor uid w tok Hread)
    as (w' & E & Ht & Hf).
  assert (Hw' : faults w' = []) by now rewrite Hf, Hw.
  assert (E1 : w1 = written uid (with_revoked (clock w)) w')
    by (subst w1; now rewrite E).
  assert (Hnone : length (active_of_user uid (tokens w1)) <> 1).
  { rewrite E1, (written_ok _ _ _ Hw'). cbn [tokens with_rows].
    now rewrite no_active_after_revocation. }
  pose proof (lookup_none uid w1 (or_intror Hnone)) as R.
  unfold revoke_connection, _get_calendar_client, get_connection_status, mbind.
  rewrite R. cbn [fst snd mret mraise]. repeat split.
  rewrite refresh_calls_sent. simpl. lia.
Qed.

(** X19: [revoke_connection] reports success although nothing was
    revoked: when the store answers the lookup and fails on the update, the
    answer is [success=True], the table is as it was and the user's record
    is still the active one. *)
Theorem revoke_reports_success_when_write_fails uid w tok rest :
  fst (get_by_user_id uid w) = inr (Some tok) ->
  faults w = false :: true :: rest ->
  let out := revoke_connection G encryptor uid w in
  fst out = inr (mkRevokeResponse true "Google Calendar disconnected successfully") /\
  tokens (snd out) = tokens w /\
  active_of_user uid (tokens (snd out)) = [tok] /\
  is_active tok = true.
Proof.
  intros Hread Hw out.
  destruct (revoke_connection_run G encryptor uid w tok Hread)
    as (w' & E & Ht & Hf).
  destruct (get_by_user_id_some _ _ _ Hread) as [_ Htok].
  fold out in E. rewrite E. cbn [fst snd]. rewrite tokens_written.
  assert (Hacc : accepts w' = false).
  { unfold accepts. rewrite Hf, Hw. reflexivity. }
  rewrite Hacc, Ht. repeat split; [exact Htok|].
  apply (active_of_user_in uid (tokens w)). rewrite Htok. now left.
Qed.

(** The run of [_get_calendar_client] when the refresh call succeeds. *)
Lemma get_calendar_client_refreshed uid w tok rt credentials :
  fst (get_by_user_id uid w) = inr (Some tok) ->
  decrypt encryptor (encrypted_refresh_token tok) (encryption_nonce tok) = inr rt ->
  refresh G rt = inr credentials ->
  _get_calendar_client G encryptor uid w
  = (inr (mkClient (token credentials) rt uid),
     match expiry credentials with
     | Some expires =>
         written uid (with_expiry expires (clock w))
           (add_event (RefreshCall rt) (sent DbSelect w))
     | None => add_event (RefreshCall rt) (sent DbSelect w)
     end).
Proof.
  intros Hread Hdec Href.
  destruct (get_by_user_id_some _ _ _ Hread) as [Hacc Htok].
  unfold _get_calendar_client, mbind.
  rewrite get_by_user_id_run, Hacc, Htok. cbn [found lift].
  rewrite Hdec. unfold mtry, credentials_refresh, mbind, log, lift.
  rewrite Href. cbn beta iota.
  destruct (expiry credentials) as [expires|]; [|reflexivity].
  rewrite update_expiry_run. reflexivity.
Qed.

(** X20: for a user whose active record has been read and whose secret
    decrypts, a refresh call that succeeds gives a client with the new
    access token and the decrypted refresh token, after exactly one refresh
    call; on a store that answers, the user's record stays the single
    active one, with the new expiry if the provider gave one, and its
    [last_error] is left as it was: a success does not clear an error
    recorded earlier. *)
Theorem refresh_success_keeps_last_error uid w tok rt credentials :
  fst (get_by_user_id uid w) = inr (Some tok) ->
  decrypt encryptor (encrypted_refresh_token tok) (encryption_nonce tok) = inr rt ->
  refresh G rt = inr credentials ->
  let out := _get_calendar_client G encryptor uid w in
  fst out = inr (mkClient (token credentials) rt uid) /\
  refresh_calls (snd out) = S (refresh_calls w) /\
  (faults w = [] ->
   exists tok',
     active_of_user uid (tokens (snd out)) = [tok'] /\
     last_error tok' = last_error tok /\
     access_token_expires_at tok'
     = match expiry credentials with
       | Some expires => Some expires
       | None => access_token_expires_at tok
       end).
Proof.
  intros Hread Hdec Href out. subst out.
  rewrite (get_calendar_client_refreshed uid w tok rt credentials Hread Hdec Href).
  destruct (get_by_user_id_some _ _ _ Hread) as [Hacc Htok].
  assert (Hu : user_id tok = uid).
  { apply for_user_iff, (active_of_user_in uid (tokens w)).
    rewrite Htok. now left. }
  cbn [fst snd]. split; [reflexivity|]. split.
  - destruct (expiry credentials);
      rewrite ?refresh_calls_written, refresh_calls_add_event, refresh_calls_sent;
      simpl; lia.
  - intros Hw. destruct (expiry credentials) as [expires|].
    + exists (with_expiry expires (clock w) tok).
      rewrite written_ok by (cbn [faults add_event sent]; now rewrite Hw).
      cbn [tokens with_rows add_event sent].
      rewrite active_of_user_updated by reflexivity.
      rewrite Htok, (updated_singleton _ _ _ (proj2 (for_user_iff _ _) Hu)).
      now repeat split.
    + exists tok. cbn [tokens add_event sent]. now repeat split.
Qed.

(** X22: when the secret of the user's record cannot be decrypted,
    [_get_calendar_client] raises a [TokenEncryptionError] of operation
    "decryption" right after the lookup: the provider is not called and the
    failure is not written to the record. *)
Theorem undecryptable_secret_stops_request uid w tok e :
  fst (get_by_user_id uid w) = inr (Some tok) ->
  decrypt encryptor (encrypted_refresh_token tok) (encryption_nonce tok) = inl e ->
  _get_calendar_client G encryptor uid w = (inl e, sent DbSelect w) /\
  (exists reason, e = TokenEncryptionError "decryption" reason) /\
  tokens (sent DbSelect w) = tokens w /\
  refresh_calls (sent DbSelect w) = refresh_calls w.
Proof.
  intros Hread Hdec.
  destruct (get_by_user_id_some _ _ _ Hread) as [Hacc Htok].
  split; [|split; [now apply (VaultFacts.decrypt_inl _ _ _ _ Hdec)|split]].
  - unfold _get_calendar_client, mbind.
    rewrite get_by_user_id_run, Hacc, Htok. cbn [found lift]. now rewrite Hdec.
  - reflexivity.
  - rewrite refresh_calls_sent. simpl. lia.
Qed.

(** X23: the two status endpoints never raise and only read; they answer
    "connected" exactly when the store answers and the user has a single
    active record, so a revoked record is never shown, and what they show
    are the fields of that record. *)
Theorem status_shows_the_active_record uid w :
  exists status,
    get_connection_status uid w = (inr status, sent DbSelect w) /\
    tokens (sent DbSelect w) = tokens w /\
    status_is_active status = connected status /\
    (connected status = true <->
     accepts w = true /\ exists tok, active_of_user uid (tokens w) = [tok]) /\
    (forall tok,
       accepts w = true -> active_of_user uid (tokens w) = [tok] ->
       status = mkConnectionStatusResponse true (Some (google_email tok))
                  (connected_at tok) (scopes_granted tok) (last_sync_at tok) true /\
       check_user_connection uid w
       = (inr (Connected uid (google_email tok) true (last_sync_at tok)
                 (last_error tok)),
          sent DbSelect w)).
Proof.
  unfold get_connection_status, check_user_connection, mbind.
  rewrite get_by_user_id_run.
  destruct (accepts w).
  2:{ eexists. split; [reflexivity|]. split; [reflexivity|].
      split; [reflexivity|]. split; [|discriminate].
      cbn [connected]. split; [discriminate | now intros [? _]]. }
  destruct (active_of_user uid (tokens w)) as [|a [|b l]] eqn:E; cbn [found].
  - eexists. split; [reflexivity|]. split; [reflexivity|].
    split; [reflexivity|]. split; [|discriminate].
    cbn [connected]. split; [discriminate | now intros (_ & ? & ?)].
  - assert (Ha : is_active a = true).
    { apply (active_of_user_in uid [a]). unfold active_of_user. cbn [filter].
      assert (Hin : In a (active_of_user uid (tokens w))) by (rewrite E; now left).
      apply active_of_user_in in Hin. destruct Hin as (_ & -> & ->).
      now left. }
    eexists. split; [reflexivity|]. split; [reflexivity|].
    cbn [status_is_active connected]. split; [exact Ha|]. split.
    + split; [eauto | reflexivity].
    + intros tok _ [= <-]. rewrite Ha. split; reflexivity.
  - eexists. split; [reflexivity|]. split; [reflexivity|].
    split; [reflexivity|]. split; [|discriminate].
    cbn [connected]. split; [discriminate | now intros (_ & ? & ?)].
Qed.

Context {OK : PrimitivesOk P}.

(** X13: on a store that answers and holds at most one active record of
    the user, a callback with a valid state and a token without an expiry,
    for a provider account that no other user owns, leaves the user with
    exactly one active record: the new one, for the account and e-mail of
    the provider's answer, whose secret decrypts to the refresh token that
    was exchanged; the records of every other user are left as they were. *)
Theorem callback_stores_credential code state w uid oauth info rt enc :
  validate_state state_manager (clock w) state = inr (Some uid) ->
  uid <> "" ->
  fetch_token G code = inr oauth ->
  userinfo G (access_token oauth) = inr info ->
  refresh_token oauth = Some rt ->
  expires_at oauth = None ->
  Utf8.is_str rt = true ->
  faults w = [] ->
  (forall t, found (active_of_account (account_id info) (tokens w)) = Some t ->
             user_id t = uid) ->
  length (active_of_user uid (tokens w)) <= 1 ->
  encrypt_with encryptor (fst (os_urandom 12 (rng w))) rt = inr enc ->
  let out := handle_callback G encryptor state_manager code state w in
  let row := callback_record uid info oauth enc (clock w) in
  fst out = inr (mkCallbackResponse true uid (email info)
                   "Google Calendar connected successfully") /\
  fst (get_by_user_id uid (snd out)) = inr (Some row) /\
  google_account_id row = account_id info /\
  google_email row = email info /\
  decrypt encryptor (encrypted_refresh_token row) (encryption_nonce row) = inr rt /\
  (forall uid', uid' <> uid ->
     rows_of uid' (tokens (snd out)) = rows_of uid' (tokens w)).
Proof.
  intros Hval Hne Hfetch Hinfo Hrt Hexp Hstr Hw Hown Hlen Henc out row.
  destruct (handle_callback_stores code state w uid oauth info rt enc
              Hval Hne Hfetch Hinfo Hrt Hw Hown Henc) as (Hf & Hrun).
  rewrite Hexp in Hrun. destruct Hrun as [Hout Htok].
  fold out in Hout, Htok, Hf.
  destruct (callback_record_fields uid info oauth enc (clock w))
    as (F1 & F2 & F3 & F4 & _ & _ & _ & F8 & F9).
  fold row in F1, F2, F3, F4, F8, F9, Htok. clearbody row.
  split; [exact Hout|]. split; [|split; [exact F3|split; [exact F2|split]]].
  - rewrite get_by_user_id_ok by exact Hf. cbn [fst]. rewrite Htok.
    rewrite active_of_user_app, (callback_base_no_active _ _ Hlen).
    unfold active_of_user. cbn [filter app]. unfold for_user.
    now rewrite F1, F4, String.eqb_refl.
  - rewrite F8, F9. destruct enc as [[c n] k]. cbn [fst snd].
    now apply (VaultFacts.decrypt_encrypt_with _ _ _ _ _ _ Hstr Henc).
  - intros uid' Hne'. rewrite Htok. unfold rows_of. rewrite filter_app.
    cbn [filter]. assert (E : for_user uid' row = false).
    { apply not_true_iff_false. rewrite for_user_iff. congruence. }
    rewrite E, app_nil_r.
    destruct (found (active_of_user uid (tokens w)));
      [now apply without_user_other | reflexivity].
Qed.

End WithDependencies.

Section Recovery.
Context {P : Primitives}.
Variable encryptor : TokenEncryptor.

(** X21: a refresh that fails and a later one that succeeds: the second
    request gets its client, and the record still carries the error of the
    first, which [check_user_connection] goes on reporting for the
    connected and active user. *)
Theorem stale_error_after_recovery G1 G2 uid w tok rt e credentials :
  faults w = [] ->
  active_of_user uid (tokens w) = [tok] ->
  decrypt encryptor (encrypted_refresh_token tok) (encryption_nonce tok) = inr rt ->
  refresh G1 rt = inl e ->
  refresh G2 rt = inr credentials ->
  let w1 := snd (_get_calendar_client G1 encryptor uid w) in
  let out := _get_calendar_client G2 encryptor uid w1 in
  fst (_get_calendar_client G1 encryptor uid w)
  = inl (TokenExpiredError uid "Failed to refresh access token") /\
  fst out = inr (mkClient (token credentials) rt uid) /\
  fst (check_user_connection uid (snd out))
  = inr (Connected uid (google_email tok) true (last_sync_at tok)
           (Some (exc_str e))).
Proof.
  intros Hw Htok Hdec Hfail Hgood w1 out.
  assert (Hread : fst (get_by_user_id uid w) = inr (Some tok)).
  { rewrite get_by_user_id_ok by exact Hw. cbn [fst]. now rewrite Htok. }
  assert (Hin : In tok (tokens w) /\ for_user uid tok = true /\ is_active tok = true)
    by (apply (active_of_user_in uid); rewrite Htok; now left).
  destruct Hin as (_ & Hfor & Hact).
  assert (Hu : user_id tok = uid) by now apply for_user_iff.
  pose proof (get_calendar_client_refresh_failed G1 encryptor uid w tok rt e
                Hread Hdec Hfail) as E1.
  assert (Hw1 : faults w1 = [] /\
                active_of_user uid (tokens w1)
                = [with_error (exc_str e) (clock w) tok]).
  { subst w1. rewrite E1. cbn [snd].
    rewrite written_ok by (cbn [faults add_event sent]; now rewrite Hw).
    cbn [faults tokens with_rows add_event sent]. split; [now rewrite Hw|].
    rewrite active_of_user_updated by reflexivity.
    now rewrite Htok, (updated_singleton _ _ _ (proj2 (for_user_iff _ _) Hu)). }
  destruct Hw1 as [Hf1 Ha1].
  set (tok1 := with_error (exc_str e) (clock w) tok) in *.
  assert (Hread1 : fst (get_by_user_id uid w1) = inr (Some tok1)).
  { rewrite get_by_user_id_ok by exact Hf1. cbn [fst]. now rewrite Ha1. }
  assert (Hdec1 : decrypt encryptor (encrypted_refresh_token tok1)
                    (encryption_nonce tok1) = inr rt) by exact Hdec.
  split; [now rewrite E1|].
  pose proof (get_calendar_client_refreshed G2 encryptor uid w1 tok1 rt
                credentials Hread1 Hdec1 Hgood) as E2'.
  subst out. rewrite E2'. cbn [fst snd]. split; [reflexivity|].
  unfold check_user_connection, mbind.
  destruct (expiry credentials) as [expires|].
  - assert (Hf2 : faults (add_event (RefreshCall rt) (sent DbSelect w1)) = [])
      by (cbn [faults add_event sent]; now rewrite Hf1).
    rewrite written_ok by exact Hf2.
    rewrite get_by_user_id_ok by exact Hf2.
    cbn [tokens with_rows add_event sent].
    rewrite active_of_user_updated by reflexivity.
    rewrite Ha1, updated_singleton by now apply for_user_iff.
    cbn [found mret fst].
    subst tok1. cbn. now rewrite Hact.
  - rewrite get_by_user_id_ok by (cbn [faults add_event sent]; now rewrite Hf1).
    cbn [tokens add_event sent]. rewrite Ha1. cbn [found mret fst].
    subst tok1. cbn. now rewrite Hact.
Qed.

End Recovery.

Section Flow.
Context {P : Primitives}.
Variable G : Google.
Variable encryptor : TokenEncryptor.
Variable state_manager : OAuthStateManager.
Variable frontend_url : string.

Lemma encrypt_with_inl self nonce plaintext e :
  encrypt_with self nonce plaintext = inl e ->
  exists reason, e = TokenEncryptionError "encryption" reason.
Proof.
  unfold encrypt_with, try_except.
  destruct (bind _ _) as [e'|r]; [|discriminate].
  intros [= <-]. now eexists.
Qed.

(** X2: a callback whose code exchange returns a token with an expiry
    (the [expiry] of the flow's credentials, which [exchange_code] passes
    on) never reports success and never stores a record, whatever the
    state, the provider's user info and the store: [handle_callback]
    raises, every record of the table afterwards was there before, and the
    table is the old one or, when the user's previous record was found and
    deleted before [create] raised, the old one without the records of the
    user of the state. *)
Theorem callback_with_expiry_raises code state w oauth expires :
  fetch_token G code = inr oauth ->
  expires_at oauth = Some expires ->
  let out := handle_callback G encryptor state_manager code state w in
  (exists e, fst out = inl e) /\
  (tokens (snd out) = tokens w \/
   exists uid old,
     validate_state state_manager (clock w) state = inr (Some uid) /\
     active_of_user uid (tokens w) = [old] /\
     fst out = inl not_serializable /\
     tokens (snd out) = without_user uid (tokens w)) /\
  (forall row, In row (tokens (snd out)) -> In row (tokens w)).
Proof.
  intros Hfetch Hexp out.
  assert (H : (exists e, fst out = inl e) /\
              (tokens (snd out) = tokens w \/
               exists uid old,
                 validate_state state_manager (clock w) state = inr (Some uid) /\
                 active_of_user uid (tokens w) = [old] /\
                 fst out = inl not_serializable /\
                 tokens (snd out) = without_user uid (tokens w))).
  { subst out. unfold handle_callback, mbind, now, lift.
    destruct (validate_state_inr state_manager (clock w) state) as [r Hr].
    rewrite Hr.
    destruct r as [[|ch u]|];
      try (cbn [fst snd mraise]; split; [eauto | now left]).
    unfold exchange_code, get_user_info, mbind, log, lift. rewrite Hfetch.
    destruct (userinfo G (access_token oauth)) as [e0|info];
      [cbn [fst snd tokens add_event]; split; [eauto | now left]|].
    rewrite get_by_google_account_run.
    destruct (match (if accepts _ then _ else None) with
              | Some existing => negb (String.eqb (user_id existing) (String ch u))
              | None => false
              end);
      [cbn [fst snd mraise tokens add_event sent]; split; [eauto | now left]|].
    unfold encrypt_refresh_token, mbind, urandom.
    destruct (os_urandom 12 _) as [nonce r'].
    destruct (refresh_token oauth) as [rt|];
      [|cbn [fst snd mraise tokens add_event sent]; split; [eauto | now left]].
    unfold lift.
    destruct (encrypt_with encryptor nonce rt) as [e0|[[c n] k]];
      [cbn [fst snd tokens add_event sent]; split; [eauto | now left]|].
    rewrite get_by_user_id_run.
    cbn [tokens add_event sent].
    destruct (accepts _) eqn:Hacc.
    - destruct (active_of_user (String ch u) (tokens w)) as [|old [|b l]] eqn:Ha;
        cbn [found]; unfold mret; rewrite ?delete_run, create_run;
        cbn [new_access_token_expires_at]; rewrite Hexp; cbn [fst snd];
        (split; [eauto|]); try (now left).
      rewrite tokens_deleted. cbn [tokens sent].
      destruct (accepts (sent DbSelect _)); [|now left].
      right. exists (String ch u), old. now repeat split.
    - unfold mret. rewrite create_run.
      cbn [new_access_token_expires_at]. rewrite Hexp. cbn [fst snd].
      split; [eauto | now left]. }
  destruct H as [H1 H2]. split; [exact H1|]. split; [exact H2|].
  intros row Hin. destruct H2 as [E|(uid & old & _ & _ & _ & E)];
    rewrite E in Hin; [exact Hin|].
  now apply without_user_in in Hin.
Qed.

(** X24: whatever the store does, an exception of [handle_callback] is one
    of: the two [OAuthStateError]s of the function itself, the exception of
    the code exchange or of the user-info query, a [TokenEncryptionError]
    of operation "encryption", the [TypeError] of [create] for an exchanged
    token that has an expiry, or the error of the store's insertion for one
    that has none. *)
Theorem callback_errors code state w e :
  fst (handle_callback G encryptor state_manager code state w) = inl e ->
  e = OAuthStateError "Invalid or expired state parameter" \/
  e = OAuthStateError "This Google account is already connected to another user" \/
  fetch_token G code = inl e \/
  (exists access, userinfo G access = inl e) \/
  (exists reason, e = TokenEncryptionError "encryption" reason) \/
  (e = not_serializable /\
   exists oauth expires,
     fetch_token G code = inr oauth /\ expires_at oauth = Some expires) \/
  (e = store_unavailable /\
   exists oauth, fetch_token G code = inr oauth /\ expires_at oauth = None).
Proof.
  unfold handle_callback, mbind, now, lift.
  destruct (validate_state_inr state_manager (clock w) state) as [r ->].
  destruct r as [[|ch u]|]; try (cbn [fst mraise]; intros [= <-]; now left).
  unfold exchange_code, get_user_info, mbind, log, lift.
  destruct (fetch_token G code) as [e0|oauth];
    [cbn [fst]; intros [= <-]; tauto|].
  destruct (userinfo G (access_token oauth)) as [e0|info] eqn:Hinfo;
    [cbn [fst]; intros [= <-]; eauto 6|].
  rewrite get_by_google_account_run.
  destruct (match (if accepts _ then _ else None) with
            | Some existing => negb (String.eqb (user_id existing) (String ch u))
            | None => false
            end);
    [cbn [fst mraise]; intros [= <-]; tauto|].
  unfold encrypt_refresh_token, mbind, urandom.
  destruct (os_urandom 12 _) as [nonce r'].
  destruct (refresh_token oauth) as [rt|];
    [|cbn [fst mraise]; intros [= <-]; eauto 8].
  unfold lift.
  destruct (encrypt_with encryptor nonce rt) as [e0|[[c n] k]] eqn:Henc.
  { cbn [fst]. intros [= <-]. destruct (encrypt_with_inl _ _ _ _ Henc) as [? ->].
    eauto 8. }
  rewrite get_by_user_id_run.
  destruct (if accepts _ then _ else None) as [old|].
  - rewrite delete_run. unfold mret. rewrite create_run.
    cbn [new_access_token_expires_at].
    destruct (expires_at oauth) as [expires|] eqn:Hexp.
    + cbn [fst]. intros [= <-]. do 5 right. left. eauto.
    + destruct (accepts _); cbn [fst]; [discriminate|]. intros [= <-].
      do 6 right. eauto.
  - unfold mret. rewrite create_run.
    cbn [new_access_token_expires_at].
    destruct (expires_at oauth) as [expires|] eqn:Hexp.
    + cbn [fst]. intros [= <-]. do 5 right. left. eauto.
    + destruct (accepts _); cbn [fst]; [discriminate|]. intros [= <-].
      do 6 right. eauto.
Qed.

(** The same, as a helper for the route. *)
Lemma callback_state_errors code state w reason :
  (forall c r, fetch_token G c <> inl (OAuthStateError r)) ->
  (forall a r, userinfo G a <> inl (OAuthStateError r)) ->
  fst (handle_callback G encryptor state_manager code state w)
  = inl (OAuthStateError reason) ->
  reason = "Invalid or expired state parameter" \/
  reason = "This Google account is already connected to another user".
Proof.
  intros Hf Hu.
  unfold handle_callback, mbind, now, lift.
  destruct (validate_state_inr state_manager (clock w) state) as [r ->].
  destruct r as [[|ch u]|]; try (cbn [fst mraise]; intros [= <-]; now left).
  unfold exchange_code, get_user_info, mbind, log, lift.
  destruct (fetch_token G code) as [e0|oauth] eqn:Hfetch;
    [cbn [fst]; intros [= ->]; now destruct (Hf _ _ Hfetch)|].
  destruct (userinfo G (access_token oauth)) as [e0|info] eqn:Hinfo;
    [cbn [fst]; intros [= ->]; now destruct (Hu _ _ Hinfo)|].
  rewrite get_by_google_account_run.
  destruct (match (if accepts _ then _ else None) with
            | Some existing => negb (String.eqb (user_id existing) (String ch u))
            | None => false
            end);
    [cbn [fst mraise]; intros [= <-]; tauto|].
  unfold encrypt_refresh_token, mbind, urandom.
  destruct (os_urandom 12 _) as [nonce r'].
  destruct (refresh_token oauth) as [rt|];
    [|cbn [fst mraise]; discriminate].
  unfold lift.
  destruct (encrypt_with encryptor nonce rt) as [e0|[[c n] k]] eqn:Henc.
  { cbn [fst]. intros [= ->]. destruct (encrypt_with_inl _ _ _ _ Henc) as [? [=]]. }
  rewrite get_by_user_id_run.
  destruct (if accepts _ then _ else None) as [old|].
  - rewrite delete_run. unfold mret. rewrite create_run.
    cbn [new_access_token_expires_at].
    destruct (expires_at oauth); [cbn [fst]; discriminate|].
    destruct (accepts _); cbn [fst]; discriminate.
  - unfold mret. rewrite create_run.
    cbn [new_access_token_expires_at].
    destruct (expires_at oauth); [cbn [fst]; discriminate|].
    destruct (accepts _); cbn [fst]; discriminate.
Qed.

(** X25: the route [oauth_callback] never raises: every outcome of
    [handle_callback] becomes a redirect to the integrations page.  When
    the provider's calls do not themselves raise [OAuthStateError], the
    reason shown on failure is one of three fixed texts, so no text of an
    internal error (of the store, the encryptor or the provider) reaches
    the redirect. *)
Theorem oauth_callback_hides_errors code state w :
  (forall c r, fetch_token G c <> inl (OAuthStateError r)) ->
  (forall a r, userinfo G a <> inl (OAuthStateError r)) ->
  let inner := handle_callback G encryptor state_manager code state w in
  exists redirect,
    oauth_callback G encryptor state_manager frontend_url code state w
    = (inr redirect, snd inner) /\
    redirect_url redirect = integrations_page frontend_url /\
    match fst inner with
    | inr response =>
        params redirect
        = [("google", "connected"); ("email", callback_google_email response)]
    | inl _ =>
        exists reason,
          params redirect = [("google", "error"); ("reason", reason)] /\
          In reason ["Invalid or expired state parameter";
                     "This Google account is already connected to another user";
                     "Connection failed"]
    end.
Proof.
  intros Hf Hu inner.
  pose proof (callback_state_errors code state w) as Hs.
  fold inner in Hs. unfold oauth_callback, mtry, mbind. fold inner.
  destruct inner as [[e|response] w']; cbn [fst snd] in *.
  - destruct e; try (eexists; split; [reflexivity|]; split; [reflexivity|];
                     exists "Connection failed"; split; [reflexivity|];
                     simpl; tauto).
    eexists. split; [reflexivity|]. split; [reflexivity|].
    exists reason. split; [reflexivity|].
    destruct (Hs reason Hf Hu eq_refl) as [->| ->]; simpl; tauto.
  - eexists. split; [reflexivity|]. split; reflexivity.
Qed.

End Flow.

Section Authorization.
Context {P : Primitives} {OK : PrimitivesOk P}.
Variable state_manager : OAuthStateManager.
Variable consent_url : string -> string.

(** X26: [get_authorization_url] draws sixteen bytes of entropy, touches
    nothing else, and for a user id without the separator ["."] returns a
    state that [validate_state] maps back to that user as long as no more
    than [ttl_seconds] have elapsed; the URL is the consent URL of that
    state. *)
Theorem authorization_state_validates uid w :
  PyStr.no_sep PyStr.dot uid = true ->
  exists response w',
    get_authorization_url state_manager consent_url uid w = (inr response, w') /\
    authorization_url response = consent_url (state response) /\
    tokens w' = tokens w /\
    trace w' = (trace w ++ [Urandom 16])%list /\
    forall now',
      (now' - clock w <= ttl_seconds state_manager)%Z ->
      validate_state state_manager now' (state response) = inr (Some uid).
Proof.
  intros Hu. unfold get_authorization_url, mbind, urandom, now, mret.
  destruct (os_urandom 16 (rng w)) as [tok r'].
  eexists _, _. split; [reflexivity|]. cbn [authorization_url state tokens trace clock].
  repeat split. intros now' Hage.
  rewrite StateTokenFacts.generate_state_eq. cbv zeta.
  rewrite StateTokenFacts.validate_state_signed, StateTokenFacts.split_payload,
    (PyStrFacts.split_no_sep _ _ Hu).
  simpl. rewrite PyStrFacts.py_int_py_str.
  destruct (Z.gtb_spec (now' - clock w) (ttl_seconds state_manager));
    [lia | reflexivity].
Qed.

End Authorization.
End ServiceProperties.

(* ------------------------------------------------------------------ *)
(** ** The free-slot calculation: beyond the window, and order *)

Module AvailabilityProperties.
Import Availability AvailabilityFacts.

Local Open Scope string_scope.

(** The final cursor is the latest of the start cursor and the ends. *)
Lemma cursor_after_lt bs : forall cur t,
  slt t (cursor_after cur bs) <->
  slt t cur \/ exists b, In b bs /\ slt t (end_ b).
Proof.
  induction bs as [|b bs IH]; intros cur t.
  - unfold cursor_after. simpl. split; [now left | intros [H|(b & [] & _)]; exact H].
  - rewrite cursor_after_cons, IH. split.
    + intros [H|(b' & Hb' & H)].
      * destruct (py_max_cases cur (end_ b)) as [[K E]|[K E]]; rewrite E in H.
        -- now left.
        -- right. exists b. split; [now left | exact H].
      * right. exists b'. split; [now right | exact H].
    + intros [H|(b' & [<-|Hb'] & H)].
      * left. destruct (py_max_cases cur (end_ b)) as [[K E]|[K E]]; rewrite E; sorder.
      * left. destruct (py_max_cases cur (end_ b)) as [[K E]|[K E]]; rewrite E; sorder.
      * right. exists b'. split; assumption.
Qed.

(** The instants of the free slots, for busy intervals with [start < end],
    wherever they lie. *)
Lemma free_slots_cover busy ws we t :
  Forall (fun b => slt (start b) (end_ b)) busy ->
  covered t (_calculate_free_slots busy ws we) = true <->
  sle ws t /\ covered t busy = false /\
  (slt t we \/ exists b, In b busy /\ slt t (end_ b)).
Proof.
  intros Hwf. destruct busy as [|b0 bs0].
  { simpl. unfold covered. simpl. rewrite orb_false_r, in_slot_iff. simpl.
    split; [tauto|]. intros (H1 & _ & [H|(b & [] & _)]). tauto. }
  rewrite calculate_free_slots_eq. cbv zeta.
  set (busy := b0 :: bs0) in *.
  set (bs := sorted_by_start busy).
  assert (P : Permutation busy bs) by apply sorted_by_start_perm.
  assert (Hs : StronglySorted start_le bs) by apply sorted_by_start_sorted.
  assert (Hwf' : Forall (fun b => slt (start b) (end_ b)) bs)
    by (now apply (Permutation_Forall P)).
  pose proof (cursor_after_ge bs ws) as G.
  pose proof (cursor_after_lt bs ws t) as L.
  set (c := cursor_after ws bs) in *.
  assert (Hends : forall b, In b bs -> sle (end_ b) c)
    by (intros b Hb; now apply cursor_after_ends).
  rewrite covered_app, covered_emit, (covered_perm t busy bs P).
  rewrite (gaps_covered bs ws t Hs Hwf'). fold c.
  split.
  - intros [(K1 & K2 & K3)|(H1 & H2 & H3)].
    + split; [exact K1|]. split; [exact K3|]. right.
      destruct (proj1 L K2) as [H|(b & Hb & H)]; [exfalso; sorder|].
      exists b. split; [|exact H].
      apply (Permutation_in _ (Permutation_sym P) Hb).
    + split; [sorder|]. split; [|now left].
      apply covered_false_iff. intros s Hsin [_ Hx].
      specialize (Hends s Hsin). sorder.
  - intros (H1 & H2 & H3).
    destruct (str_lt t c) eqn:Etc.
    + left. repeat split; assumption.
    + right. destruct H3 as [H3|(b & Hb & H3)].
      * repeat split; [sorder | exact Etc | exact H3].
      * exfalso. specialize (Hends b (Permutation_in _ P Hb)). sorder.
Qed.

(** The free slots are non-empty and listed in increasing order, a busy
    interval lying between any two of them. *)
Lemma free_slots_canonical busy ws we :
  Forall (fun b => slt (start b) (end_ b)) busy ->
  busy <> [] ->
  let free := _calculate_free_slots busy ws we in
  StronglySorted (fun f g => slt (end_ f) (start g)) free /\
  Forall (fun f => slt (start f) (end_ f)) free.
Proof.
  intros Hwf Hne free. subst free.
  destruct busy as [|b0 bs0]; [contradiction|].
  rewrite calculate_free_slots_eq. cbv zeta.
  set (busy := b0 :: bs0) in *.
  set (bs := sorted_by_start busy).
  assert (P : Permutation busy bs) by apply sorted_by_start_perm.
  assert (Hwf' : Forall (fun b => slt (start b) (end_ b)) bs)
    by (now apply (Permutation_Forall P)).
  set (c := cursor_after ws bs) in *.
  assert (Hends : forall b, In b bs -> sle (end_ b) c)
    by (intros b Hb; now apply cursor_after_ends).
  assert (Hgap_end : forall f, In f (gaps ws bs) -> slt (end_ f) c).
  { intros f Hf. destruct (gaps_shape _ _ _ Hf) as (_ & _ & b & Hb & E).
    rewrite Forall_forall in Hwf'.
    specialize (Hwf' b Hb). specialize (Hends b Hb). rewrite E. sorder. }
  split.
  - assert (Sg := gaps_sorted bs ws Hwf').
    destruct (str_lt c we) eqn:Ecw; [|now rewrite app_nil_r].
    clear - Sg Hgap_end. induction Sg as [|f l Sl IH Hall]; simpl.
    + repeat constructor.
    + constructor.
      * apply IH. intros g Hg. apply Hgap_end. now right.
      * apply Forall_app. split; [exact Hall|].
        constructor; [|constructor]. simpl. apply Hgap_end. now left.
  - apply Forall_app. split.
    + apply Forall_forall. intros f Hf. now apply (gaps_shape _ _ _ Hf).
    + destruct (str_lt c we) eqn:Ecw; repeat constructor. exact Ecw.
Qed.

(** Behind the first of a list of separated slots, no later slot covers an
    instant that the first one covers or precedes. *)
Lemma separated_tail_uncovered f l t :
  StronglySorted (fun f g => slt (end_ f) (start g)) (f :: l) ->
  slt t (end_ f) -> covered t l = false.
Proof.
  intros S Ht. inversion S as [|? ? _ Hall]; subst.
  apply covered_false_iff. intros s Hs [H1 _].
  rewrite Forall_forall in Hall. specialize (Hall s Hs). sorder.
Qed.

Lemma covered_cons t f l :
  covered t (f :: l) = in_slot t f || covered t l.
Proof. reflexivity. Qed.

(** Two lists of non-empty, separated slots that cover the same instants
    are the same list. *)
Lemma canonical_unique l1 : forall l2,
  StronglySorted (fun f g => slt (end_ f) (start g)) l1 ->
  Forall (fun f => slt (start f) (end_ f)) l1 ->
  StronglySorted (fun f g => slt (end_ f) (start g)) l2 ->
  Forall (fun f => slt (start f) (end_ f)) l2 ->
  (forall t, covered t l1 = true <-> covered t l2 = true) ->
  l1 = l2.
Proof.
  assert (first_start : forall f l g l',
    StronglySorted (fun f g => slt (end_ f) (start g)) (g :: l') ->
    Forall (fun f => slt (start f) (end_ f)) (f :: l) ->
    Forall (fun f => slt (start f) (end_ f)) (g :: l') ->
    (forall t, covered t (f :: l) = true -> covered t (g :: l') = true) ->
    sle (start g) (start f)).
  { intros f l g l' S2 N1 N2 Hc.
    inversion N1 as [|? ? Nf _]; subst. inversion N2 as [|? ? Ng Nl']; subst.
    inversion S2 as [|? ? _ Hall]; subst.
    assert (C : covered (start f) (f :: l) = true).
    { rewrite covered_cons. apply orb_true_iff. left. apply in_slot_iff.
      split; [sorder | exact Nf]. }
    apply Hc, covered_iff in C. destruct C as (s & [<-|Hs] & H1 & H2); [exact H1|].
    rewrite Forall_forall in Hall. specialize (Hall s Hs). sorder. }
  assert (first_end : forall f l g l',
    StronglySorted (fun f g => slt (end_ f) (start g)) (f :: l) ->
    Forall (fun f => slt (start f) (end_ f)) (f :: l) ->
    start f = start g ->
    (forall t, covered t (g :: l') = true -> covered t (f :: l) = true) ->
    sle (end_ g) (end_ f)).
  { intros f l g l' S1 N1 Es Hc.
    inversion N1 as [|? ? Nf _]; subst. inversion S1 as [|? ? _ Hall]; subst.
    destruct (str_lt (end_ f) (end_ g)) eqn:E; [|exact E]. exfalso.
    assert (C : covered (end_ f) (g :: l') = true).
    { rewrite covered_cons. apply orb_true_iff. left. apply in_slot_iff.
      rewrite <- Es. split; [sorder | exact E]. }
    apply Hc, covered_iff in C. destruct C as (s & [<-|Hs] & H1 & H2); [sorder|].
    rewrite Forall_forall in Hall. specialize (Hall s Hs). sorder. }
  induction l1 as [|f l1 IH]; intros l2 S1 N1 S2 N2 Hc.
  - destruct l2 as [|g l2]; [reflexivity|]. exfalso.
    inversion N2 as [|? ? Ng _]; subst.
    assert (C : covered (start g) (g :: l2) = true).
    { rewrite covered_cons. apply orb_true_iff. left. apply in_slot_iff.
      split; [sorder | exact Ng]. }
    apply Hc in C. discriminate C.
  - destruct l2 as [|g l2].
    { exfalso. inversion N1 as [|? ? Nf _]; subst.
      assert (C : covered (start f) (f :: l1) = true).
      { rewrite covered_cons. apply orb_true_iff. left. apply in_slot_iff.
        split; [sorder | exact Nf]. }
      apply Hc in C. discriminate C. }
    assert (Es : start f = start g).
    { pose proof (first_start f l1 g l2 S2 N1 N2 (fun t => proj1 (Hc t))) as A.
      pose proof (first_start g l2 f l1 S1 N2 N1 (fun t => proj2 (Hc t))) as B.
      sorder. }
    assert (Ee : end_ f = end_ g).
    { pose proof (first_end f l1 g l2 S1 N1 Es (fun t => proj2 (Hc t))) as A.
      pose proof (first_end g l2 f l1 S2 N2 (eq_sym Es) (fun t => proj1 (Hc t))) as B.
      sorder. }
    assert (Efg : f = g) by (destruct f, g; simpl in *; congruence).
    subst g. f_equal.
    inversion S1 as [|? ? S1' _]; subst. inversion S2 as [|? ? S2' _]; subst.
    inversion N1 as [|? ? _ N1']; subst. inversion N2 as [|? ? _ N2']; subst.
    apply IH; try assumption.
    intros t. specialize (Hc t). rewrite !covered_cons in Hc.
    destruct (str_lt t (end_ f)) eqn:Et.
    + rewrite (separated_tail_uncovered f l1 t S1 Et),
        (separated_tail_uncovered f l2 t S2 Et). tauto.
    + assert (Ef : in_slot t f = false).
      { apply in_slot_false. right. exact Et. }
      rewrite Ef in Hc. exact Hc.
Qed.

(** X27: for busy intervals with [start < end], wherever they lie, the
    free slots never contain an instant of a busy interval, never start
    before [work_start], and contain every instant of the window that no
    busy interval covers; the instants they contain beyond [work_end] are
    those in front of a busy interval that ends later. *)
Theorem free_slots_instants busy ws we t :
  Forall (fun b => slt (start b) (end_ b)) busy ->
  covered t (_calculate_free_slots busy ws we) = true <->
  sle ws t /\ covered t busy = false /\
  (slt t we \/ exists b, In b busy /\ slt t (end_ b)).
Proof. apply free_slots_cover. Qed.

(** X28: the result does not depend on the order of the busy intervals:
    two lists of intervals with [start < end] that are permutations of
    each other give the same free slots. *)
Theorem free_slots_order_independent busy busy' ws we :
  Forall (fun b => slt (start b) (end_ b)) busy ->
  Permutation busy busy' ->
  _calculate_free_slots busy ws we = _calculate_free_slots busy' ws we.
Proof.
  intros Hwf P.
  assert (Hwf' : Forall (fun b => slt (start b) (end_ b)) busy')
    by (now apply (Permutation_Forall P)).
  destruct busy as [|b0 bs0].
  { apply Permutation_nil in P. now subst. }
  destruct busy' as [|b0' bs0'].
  { apply Permutation_sym, Permutation_nil in P. discriminate. }
  destruct (free_slots_canonical (b0 :: bs0) ws we Hwf) as [S1 N1]; [discriminate|].
  destruct (free_slots_canonical (b0' :: bs0') ws we Hwf') as [S2 N2]; [discriminate|].
  apply canonical_unique; try assumption.
  intros t. rewrite (free_slots_cover _ ws we t Hwf), (free_slots_cover _ ws we t Hwf').
  rewrite (covered_perm t _ _ P).
  split; intros (H1 & H2 & [H3|(b & Hb & H3)]); repeat split; auto; right;
    exists b; split; auto.
  - apply (Permutation_in _ P Hb).
  - apply (Permutation_in _ (Permutation_sym P) Hb).
Qed.

(** X29: a fully booked day: when one busy interval covers the whole
    window and no busy interval starts after [work_end], there is no free
    slot. *)
Theorem fully_booked_no_free_slot busy ws we b :
  Forall (fun b => slt (start b) (end_ b)) busy ->
  Forall (fun b => sle (start b) we) busy ->
  In b busy -> sle (start b) ws -> sle we (end_ b) ->
  _calculate_free_slots busy ws we = [].
Proof.
  intros Hwf Hin Hb Hs He.
  assert (Hne : busy <> []) by (intros ->; destruct Hb).
  destruct (free_slots_canonical busy ws we Hwf Hne) as [_ N].
  destruct (_calculate_free_slots busy ws we) as [|f l] eqn:E; [reflexivity|].
  exfalso. inversion N as [|? ? Nf _]; subst.
  assert (C : covered (start f) (_calculate_free_slots busy ws we) = true).
  { rewrite E, covered_cons. apply orb_true_iff. left. apply in_slot_iff.
    split; [sorder | exact Nf]. }
  apply (free_slots_cover busy ws we (start f) Hwf) in C.
  destruct C as (H1 & H2 & H3).
  rewrite covered_false_iff in H2.
  assert (Hlt : slt (start f) we).
  { destruct H3 as [H3|(b' & Hb' & H3)]; [exact H3|].
    rewrite Forall_forall in Hin. specialize (Hin b' Hb').
    destruct (str_lt (start f) (start b')) eqn:Ef; [sorder|].
    exfalso. apply (H2 b' Hb'). split; [exact Ef | exact H3]. }
  apply (H2 b Hb). split; sorder.
Qed.

(** X30: the free slots of a day, in minutes after midnight.  When the
    busy intervals are the ["%H:%M"] texts of times [a < b] of one day, as
    [get_availability] formats them, and [work_start] and [work_end] have
    the same zero-padded form, the minute [t] lies in a free slot exactly
    when it is not before [work_start], lies in no busy interval, and is
    before [work_end] or before the end of a busy interval.  The window is
    compared as text and is not checked for that form: with [work_start]
    written ["9:00"], a day from 9:00 to 18:00 with a busy hour from 10:00
    gets no free slot at all. *)
Theorem free_slots_in_minutes busy ws we t :
  let slot := fun b : nat * nat =>
                mkSlot (strftime_HM (fst b)) (strftime_HM (snd b)) in
  (ws < 1440 -> we < 1440 -> t < 1440 ->
   Forall (fun b => fst b < snd b /\ snd b < 1440) busy ->
   covered (strftime_HM t)
     (_calculate_free_slots (map slot busy) (strftime_HM ws) (strftime_HM we))
   = true
   <-> ws <= t /\
       (forall b, In b busy -> ~ (fst b <= t /\ t < snd b)) /\
       (t < we \/ exists b, In b busy /\ t < snd b)) /\
  _calculate_free_slots [slot (600, 660)] "9:00" (strftime_HM 1080) = [].
Proof.
  intros slot. split; [|reflexivity].
  intros Hws Hwe Ht Hb. rewrite Forall_forall in Hb.
  assert (Hwf : Forall (fun b => slt (start b) (end_ b)) (map slot busy)).
  { apply Forall_forall. intros s Hs. apply in_map_iff in Hs.
    destruct Hs as (b & <- & Hin). destruct (Hb b Hin) as [H1 H2].
    unfold slt, slot. cbn [start end_].
    rewrite strftime_HM_lt by lia. now apply Nat.ltb_lt. }
  rewrite (free_slots_cover _ _ _ _ Hwf), covered_false_iff.
  unfold sle, slt. rewrite !strftime_HM_lt by lia.
  rewrite Nat.ltb_ge, Nat.ltb_lt.
  assert (Hin : forall b, In b busy ->
                  (str_lt (strftime_HM t) (start (slot b)) = false <-> fst b <= t)
                  /\ (str_lt (strftime_HM t) (end_ (slot b)) = true <-> t < snd b)).
  { intros b Hi. destruct (Hb b Hi) as [H1 H2]. unfold slot. cbn [start end_].
    rewrite !strftime_HM_lt by lia. now rewrite Nat.ltb_ge, Nat.ltb_lt. }
  split.
  - intros (H1 & H2 & H3). split; [exact H1|]. split.
    + intros b Hi [Ha Hc]. apply (H2 (slot b)); [now apply in_map|].
      destruct (Hin b Hi) as [I1 I2]. split; [now apply I1 | now apply I2].
    + destruct H3 as [H3|(s & Hs & H3)]; [now left | right].
      apply in_map_iff in Hs. destruct Hs as (b & <- & Hi).
      exists b. split; [exact Hi|]. now apply (Hin b Hi).
  - intros (H1 & H2 & H3). split; [exact H1|]. split.
    + intros s Hs [Ha Hc]. apply in_map_iff in Hs. destruct Hs as (b & <- & Hi).
      destruct (Hin b Hi) as [I1 I2]. apply (H2 b Hi).
      split; [now apply I1 | now apply I2].
    + destruct H3 as [H3|(b & Hi & H3)]; [now left | right].
      exists (slot b). split; [now apply in_map|]. now apply (Hin b Hi).
Qed.

End AvailabilityProperties.

(* ------------------------------------------------------------------ *)
(** ** The properties on the sample data *)

Module RepositoryPropertyWitnesses.
Import Models World TokenRepository Invariants.
Import Reference ReferenceFacts Samples RepositoryProperties.

Local Open Scope string_scope.

Lemma create_then_lookup_witness :
  create carol_dated_data sample_world = (inl not_serializable, sample_world) /\
  fst (get_by_user_id "user-789" (snd (create carol_data empty_world)))
  = inr (Some (inserted_row carol_data issued_at)).
Proof.
  split.
  - apply (proj1 (create_then_lookup carol_dated_data sample_world)).
    discriminate.
  - pose proof (proj2 (create_then_lookup carol_data empty_world)
                  eq_refl eq_refl eq_refl eq_refl) as H.
    cbv zeta in H. exact (proj1 (proj2 (proj2 H))).
Defined.

Lemma delete_removes_user_witness :
  faults sample_world = [] /\
  rows_of "user-123" (tokens (snd (delete "user-123" sample_world))) = [].
Proof.
  split; [reflexivity|].
  pose proof (delete_removes_user "user-123" sample_world eq_refl) as H.
  cbv zeta in H. exact (proj1 (proj2 H)).
Defined.

Lemma store_failure_is_absorbed_witness :
  accepts (faulty_world [true]) = false /\
  get_by_user_id "user-123" (faulty_world [true])
  = (inr None, sent DbSelect (faulty_world [true])) /\
  create carol_data (faulty_world [true])
  = (inl store_unavailable, sent DbInsert (faulty_world [true])).
Proof.
  split; [reflexivity|].
  pose proof (store_failure_is_absorbed "user-123" "g-111" carol_data
                issued_at "error" (faulty_world [true]) eq_refl) as H.
  split; [exact (proj1 H)|].
  destruct H as (_ & _ & _ & _ & _ & _ & H7 & _). exact (H7 eq_refl).
Defined.

End RepositoryPropertyWitnesses.

Module StateTokenPropertyWitnesses.
Import PyStr Security Reference ReferenceFacts Samples StateTokenProperties.

Local Open Scope string_scope.

Lemma validate_state_earlier_clock_witness :
  validate_state state_manager issued_at bob_state = inr (Some "user-456") /\
  (issued_at - 3600 <= issued_at)%Z /\
  validate_state state_manager (issued_at - 3600) bob_state
  = inr (Some "user-456").
Proof.
  assert (H1 : validate_state state_manager issued_at bob_state
               = inr (Some "user-456")) by (vm_compute; reflexivity).
  assert (H2 : (issued_at - 3600 <= issued_at)%Z) by (vm_compute; discriminate).
  split; [exact H1|]. split; [exact H2|].
  exact (validate_state_earlier_clock state_manager issued_at
           (issued_at - 3600) bob_state "user-456" H1 H2).
Defined.


End StateTokenPropertyWitnesses.

Module ServicePropertyWitnesses.
Import Models World TokenRepository Provider Security Services Routes Invariants.
Import Reference ReferenceFacts Samples ServiceProperties.

Local Open Scope string_scope.

Lemma alice_state_valid :
  validate_state state_manager (clock sample_world) alice_state
  = inr (Some "user-123").
Proof. vm_compute. reflexivity. Qed.

Lemma alice_owns_account w :
  tokens w = [alice_token] ->
  forall t,
    found (active_of_account "g-111" (tokens w)) = Some t ->
    user_id t = "user-123".
Proof. intros -> t. vm_compute. now intros [= <-]. Qed.

Lemma alice_active w :
  tokens w = [alice_token] -> active_of_user "user-123" (tokens w) = [alice_token].
Proof. now intros ->. Qed.

Lemma alice_read w :
  tokens w = [alice_token] -> accepts w = true ->
  fst (get_by_user_id "user-123" w) = inr (Some alice_token).
Proof.
  intros Ht Ha. rewrite RepositoryFacts.get_by_user_id_run, Ha, Ht. reflexivity.
Qed.

Lemma alice_secret :
  decrypt encryptor (encrypted_refresh_token alice_token)
    (encryption_nonce alice_token) = inr "refresh-token-1".
Proof. vm_compute. reflexivity. Qed.

Lemma reconnect_secret_eq w :
  rng w = sample_entropy ->
  encrypt_with encryptor (fst (os_urandom 12 (rng w))) "refresh-token-2"
  = inr reconnect_secret.
Proof. intros ->. vm_compute. reflexivity. Qed.

Lemma sample_world_in_order : store_invariant (tokens sample_world).
Proof.
  split; intros x; unfold active_of_user, active_of_account;
    cbn [tokens sample_world filter];
    destruct (_ && _); simpl; lia.
Qed.

Lemma callback_with_expiry_raises_witness :
  fetch_token dated_google "code" = inr dated_tokens /\
  expires_at dated_tokens = Some (issued_at + 3599)%Z /\
  let out := handle_callback dated_google encryptor state_manager "code"
               alice_state sample_world in
  (exists e, fst out = inl e) /\
  (forall row, In row (tokens (snd out)) -> In row (tokens sample_world)).
Proof.
  split; [reflexivity|]. split; [reflexivity|].
  pose proof (callback_with_expiry_raises dated_google encryptor state_manager
                "code" alice_state sample_world dated_tokens
                (issued_at + 3599)%Z eq_refl eq_refl) as H.
  cbv zeta in *. destruct H as (H1 & _ & H3). split; assumption.
Defined.

Lemma callback_rejects_invalid_state_witness :
  handle_callback working_google encryptor state_manager "code" "garbage"
    sample_world
  = (inl (OAuthStateError "Invalid or expired state parameter"), sample_world).
Proof.
  apply (callback_rejects_invalid_state working_google encryptor state_manager
           "code" "garbage" sample_world).
  intros uid H. vm_compute in H. discriminate H.
Defined.

Lemma callback_outcomes_witness :
  faults sample_world = [] /\
  let out := handle_callback dated_google encryptor state_manager "code"
               alice_state sample_world in
  match fst out with
  | inl e =>
      tokens (snd out) = tokens sample_world \/
      (e = not_serializable /\
       exists uid oauth expires,
         validate_state state_manager (clock sample_world) alice_state
         = inr (Some uid) /\
         fetch_token dated_google "code" = inr oauth /\
         expires_at oauth = Some expires /\
         tokens (snd out) = without_user uid (tokens sample_world))
  | inr response =>
      callback_success response = true /\
      validate_state state_manager (clock sample_world) alice_state
      = inr (Some (callback_user_id response)) /\
      (forall oauth,
         fetch_token dated_google "code" = inr oauth -> expires_at oauth = None) /\
      exists base row,
        tokens (snd out) = (base ++ [row])%list /\
        (base = tokens sample_world \/
         base = without_user (callback_user_id response) (tokens sample_world)) /\
        user_id row = callback_user_id response /\
        google_email row = callback_google_email response /\
        is_active row = true
  end.
Proof.
  split; [reflexivity|].
  exact (callback_outcomes dated_google encryptor state_manager "code"
           alice_state sample_world eq_refl).
Defined.

Lemma callback_stores_credential_witness :
  let out := handle_callback working_google encryptor state_manager "code"
               alice_state sample_world in
  let row := callback_record "user-123" (mkUserInfo "alice@example.com" "g-111")
               (mkOAuthTokens "access-1" (Some "refresh-token-2") None ["calendar"])
               reconnect_secret (clock sample_world) in
  fst (get_by_user_id "user-123" (snd out)) = inr (Some row) /\
  decrypt encryptor (encrypted_refresh_token row) (encryption_nonce row)
  = inr "refresh-token-2".
Proof.
  pose proof (callback_stores_credential (OK := reference_ok)
                working_google encryptor state_manager
                "code" alice_state sample_world "user-123"
                (mkOAuthTokens "access-1" (Some "refresh-token-2") None ["calendar"])
                (mkUserInfo "alice@example.com" "g-111") "refresh-token-2"
                reconnect_secret
                alice_state_valid ltac:(discriminate) eq_refl eq_refl eq_refl
                eq_refl ltac:(vm_compute; reflexivity) eq_refl
                (alice_owns_account sample_world eq_refl) ltac:(vm_compute; lia)
                (reconnect_secret_eq sample_world eq_refl)) as H.
  cbv zeta in *. destruct H as (_ & H2 & _ & _ & H5 & _). split; assumption.
Defined.

Lemma callback_preserves_invariant_witness :
  faults sample_world = [] /\
  store_invariant (tokens sample_world) /\
  store_invariant
    (tokens (snd (handle_callback working_google encryptor state_manager "code"
                    alice_state sample_world))).
Proof.
  split; [reflexivity|]. split; [exact sample_world_in_order|].
  exact (callback_preserves_invariant working_google encryptor state_manager
           "code" alice_state sample_world eq_refl sample_world_in_order).
Defined.

Lemma callback_without_refresh_token_witness :
  refresh_token (mkOAuthTokens "access-1" None None ["calendar"]) = None /\
  tokens (snd (handle_callback forgetful_google encryptor state_manager "code"
                 alice_state sample_world))
  = tokens sample_world.
Proof.
  split; [reflexivity|].
  pose proof (callback_without_refresh_token forgetful_google encryptor
                state_manager "code" alice_state sample_world "user-123"
                (mkOAuthTokens "access-1" None None ["calendar"])
                (mkUserInfo "alice@example.com" "g-111")
                alice_state_valid ltac:(discriminate) eq_refl eq_refl eq_refl)
    as H.
  cbv zeta in H. exact (proj2 H).
Defined.

Lemma reconnect_not_atomic_witness :
  (let out := handle_callback dated_google encryptor state_manager "code"
                alice_state sample_world in
   fst out = inl not_serializable /\
   rows_of "user-123" (tokens (snd out)) = []) /\
  (let out := handle_callback working_google encryptor state_manager "code"
                alice_state (faulty_world [false; false; false; true]) in
   fst out = inl store_unavailable /\
   rows_of "user-123" (tokens (snd out)) = []).
Proof.
  split.
  - pose proof (proj1 (reconnect_not_atomic dated_google encryptor state_manager
                         "code" alice_state sample_world "user-123" dated_tokens
                         (mkUserInfo "alice@example.com" "g-111")
                         "refresh-token-2" reconnect_secret alice_token
                         alice_state_valid ltac:(discriminate)
                         eq_refl eq_refl eq_refl
                         (reconnect_secret_eq sample_world eq_refl)
                         (alice_owns_account sample_world eq_refl)
                         (alice_active sample_world eq_refl))
                  (issued_at + 3599)%Z eq_refl eq_refl) as H.
    cbv zeta in *. destruct H as (H1 & _ & H3). split; assumption.
  - pose proof (proj2 (reconnect_not_atomic working_google encryptor state_manager
                         "code" alice_state
                         (faulty_world [false; false; false; true]) "user-123"
                         (mkOAuthTokens "access-1" (Some "refresh-token-2") None
                            ["calendar"])
                         (mkUserInfo "alice@example.com" "g-111")
                         "refresh-token-2" reconnect_secret alice_token
                         alice_state_valid ltac:(discriminate)
                         eq_refl eq_refl eq_refl
                         (reconnect_secret_eq
                            (faulty_world [false; false; false; true]) eq_refl)
                         (alice_owns_account
                            (faulty_world [false; false; false; true]) eq_refl)
                         (alice_active
                            (faulty_world [false; false; false; true]) eq_refl))
                  [] eq_refl eq_refl) as H.
    cbv zeta in *. destruct H as (H1 & _ & H3). split; assumption.
Defined.

Lemma not_connected_without_single_record_witness :
  length (active_of_user "user-123" (tokens empty_world)) <> 1 /\
  _get_calendar_client working_google encryptor "user-123" empty_world
  = (inl (CalendarNotConnectedError "user-123"), sent DbSelect empty_world).
Proof.
  assert (H : length (active_of_user "user-123" (tokens empty_world)) <> 1)
    by (vm_compute; discriminate).
  split; [exact H|].
  exact (proj1 (proj2 (not_connected_without_single_record working_google
                         encryptor "user-123" empty_world (or_intror H)))).
Defined.

Lemma revoked_user_is_disconnected_witness :
  let w1 := snd (revoke_connection working_google encryptor "user-123"
                   sample_world) in
  fst (_get_calendar_client working_google encryptor "user-123" w1)
  = inl (CalendarNotConnectedError "user-123") /\
  fst (revoke_connection working_google encryptor "user-123" w1)
  = inr (mkRevokeResponse false "No Google Calendar connection found").
Proof.
  pose proof (revoked_user_is_disconnected working_google encryptor "user-123"
                sample_world alice_token (alice_read sample_world eq_refl eq_refl) eq_refl)
    as H.
  cbv zeta in *. destruct H as (H1 & _ & _ & H4 & _). split; assumption.
Defined.

Lemma revoke_reports_success_when_write_fails_witness :
  let out := revoke_connection working_google encryptor "user-123"
               (faulty_world [false; true]) in
  fst out = inr (mkRevokeResponse true "Google Calendar disconnected successfully") /\
  active_of_user "user-123" (tokens (snd out)) = [alice_token].
Proof.
  pose proof (revoke_reports_success_when_write_fails working_google encryptor
                "user-123" (faulty_world [false; true]) alice_token []
                (alice_read (faulty_world [false; true]) eq_refl eq_refl) eq_refl) as H.
  cbv zeta in *. destruct H as (H1 & _ & H3 & _). split; assumption.
Defined.

Lemma refresh_success_keeps_last_error_witness :
  fst (_get_calendar_client working_google encryptor "user-123" sample_world)
  = inr (mkClient "access-2" "refresh-token-1" "user-123") /\
  refresh_calls
    (snd (_get_calendar_client working_google encryptor "user-123" sample_world))
  = 1.
Proof.
  pose proof (refresh_success_keeps_last_error working_google encryptor
                "user-123" sample_world alice_token "refresh-token-1"
                (mkCredentials "access-2" (Some (issued_at + 3600)%Z))
                (alice_read sample_world eq_refl eq_refl) alice_secret eq_refl) as H.
  cbv zeta in H. destruct H as (H1 & H2 & _). split; assumption.
Defined.

Lemma stale_error_after_recovery_witness :
  let w1 := snd (_get_calendar_client unreachable_google encryptor "user-123"
                   sample_world) in
  let out := _get_calendar_client working_google encryptor "user-123" w1 in
  fst out = inr (mkClient "access-2" "refresh-token-1" "user-123") /\
  fst (check_user_connection "user-123" (snd out))
  = inr (Connected "user-123" "alice@example.com" true None
           (Some (exc_str timeout))).
Proof.
  pose proof (stale_error_after_recovery encryptor unreachable_google
                working_google "user-123" sample_world alice_token
                "refresh-token-1" timeout
                (mkCredentials "access-2" (Some (issued_at + 3600)%Z))
                eq_refl eq_refl alice_secret eq_refl eq_refl) as H.
  cbv zeta in *. destruct H as (_ & H2 & H3). split; assumption.
Defined.

Lemma undecryptable_secret_stops_request_witness :
  exists e,
    decrypt other_encryptor (encrypted_refresh_token alice_token)
      (encryption_nonce alice_token) = inl e /\
    _get_calendar_client working_google other_encryptor "user-123" sample_world
    = (inl e, sent DbSelect sample_world).
Proof.
  destruct (decrypt other_encryptor (encrypted_refresh_token alice_token)
              (encryption_nonce alice_token)) as [e|s] eqn:D.
  - exists e. split; [reflexivity|].
    exact (proj1 (undecryptable_secret_stops_request working_google
                    other_encryptor "user-123" sample_world alice_token e
                    (alice_read sample_world eq_refl eq_refl) D)).
  - exfalso. vm_compute in D. discriminate D.
Defined.

Lemma callback_errors_witness :
  fst (handle_callback dated_google encryptor state_manager "code" alice_state
         sample_world)
  = inl not_serializable /\
  exists oauth expires,
    fetch_token dated_google "code" = inr oauth /\
    expires_at oauth = Some expires.
Proof.
  assert (H : fst (handle_callback dated_google encryptor state_manager "code"
                     alice_state sample_world)
              = inl not_serializable)
    by (vm_compute; reflexivity).
  split; [exact H|].
  destruct (callback_errors dated_google encryptor state_manager "code"
              alice_state sample_world _ H)
    as [D|[D|[D|[[a D]|[[r D]|[[_ D]|[D _]]]]]]];
    first [exact D | vm_compute in D; discriminate D].
Defined.

Lemma oauth_callback_hides_errors_witness :
  exists redirect,
    oauth_callback forgetful_google encryptor state_manager
      "https://app.example.com" "code" alice_state sample_world
    = (inr redirect,
       snd (handle_callback forgetful_google encryptor state_manager "code"
              alice_state sample_world)) /\
    redirect_url redirect = "https://app.example.com/settings/integrations".
Proof.
  pose proof (oauth_callback_hides_errors forgetful_google encryptor
                state_manager "https://app.example.com" "code" alice_state
                sample_world
                ltac:(intros c r; discriminate) ltac:(intros a r; discriminate))
    as H.
  cbv zeta in H. destruct H as (redirect & H1 & H2 & _).
  exists redirect. split; [exact H1 | exact H2].
Defined.

Lemma authorization_state_validates_witness :
  exists response w',
    get_authorization_url state_manager
      (fun s => "https://accounts.google.com/o/oauth2/auth?state=" ++ s)
      "user-123" sample_world = (inr response, w') /\
    validate_state state_manager (issued_at + 600) (state response)
    = inr (Some "user-123").
Proof.
  destruct (authorization_state_validates (OK := reference_ok) state_manager
              (fun s => "https://accounts.google.com/o/oauth2/auth?state=" ++ s)
              "user-123" sample_world eq_refl)
    as (response & w' & H1 & _ & _ & _ & H5).
  exists response, w'. split; [exact H1|].
  apply H5. vm_compute. discriminate.
Defined.

End ServicePropertyWitnesses.

Module AvailabilityPropertyWitnesses.
Import Availability AvailabilityFacts AvailabilityProperties.

Local Open Scope string_scope.

Lemma free_slots_instants_witness :
  covered "18:30" (_calculate_free_slots [mkSlot "19:00" "20:00"] "09:00" "18:00")
  = true <->
  sle "09:00" "18:30" /\ covered "18:30" [mkSlot "19:00" "20:00"] = false /\
  (slt "18:30" "18:00" \/
   exists b, In b [mkSlot "19:00" "20:00"] /\ slt "18:30" (end_ b)).
Proof.
  apply (free_slots_instants [mkSlot "19:00" "20:00"] "09:00" "18:00" "18:30").
  repeat constructor.
Defined.

Lemma free_slots_order_independent_witness :
  _calculate_free_slots [mkSlot "11:00" "12:00"; mkSlot "10:00" "11:30"]
    "09:00" "18:00"
  = _calculate_free_slots [mkSlot "10:00" "11:30"; mkSlot "11:00" "12:00"]
      "09:00" "18:00".
Proof.
  apply free_slots_order_independent; [repeat constructor | apply perm_swap].
Defined.

Lemma fully_booked_no_free_slot_witness :
  _calculate_free_slots [mkSlot "10:00" "11:00"; mkSlot "08:00" "19:00"]
    "09:00" "18:00" = [].
Proof.
  apply (fully_booked_no_free_slot _ "09:00" "18:00" (mkSlot "08:00" "19:00"));
    [repeat constructor | repeat constructor | right; now left
     | reflexivity | reflexivity].
Defined.

Lemma free_slots_in_minutes_witness :
  covered "11:30"
    (_calculate_free_slots [mkSlot "10:00" "11:00"; mkSlot "13:00" "14:30"]
       "09:00" "18:00")
  = true /\
  _calculate_free_slots [mkSlot "10:00" "11:00"] "9:00" "18:00" = [].
Proof.
  pose proof (free_slots_in_minutes [(600, 660); (780, 870)] 540 1080 690) as H.
  cbv zeta in H. destruct H as [H1 H2]. split; [|exact H2].
  apply H1; try lia.
  - repeat constructor; simpl; lia.
  - split; [lia|]. split; [|left; lia].
    intros b [<-|[<-|[]]]; simpl; lia.
Defined.

End AvailabilityPropertyWitnesses.
